(** * homebridge-foscam-stream: control channel and talkback audio pipeline

    A shallow embedding of [lib/FoscamStream.js] (the talkback resampler and
    its 960-byte framing) and of [lib/RTSPClient.js] (request correlation,
    authentication retry, session tracking, SETUP transport negotiation),
    with the properties the specification states about them. *)

From Stdlib Require Import ZArith QArith Qround Lia Ascii String.
From stdpp Require Import gmap strings list fin_maps pretty.
From coqutil Require Import Byte.

Local Open Scope Z_scope.

(** ** Node.js [Buffer]

    A buffer is its sequence of bytes.  Every buffer the resampler writes to
    is freshly allocated and every slice is only read afterwards, so the
    sharing between a slice and its parent is not observable here. *)
Module Buffer.

Abbreviation buffer := (list byte).

(** JS exceptions that the modelled code can raise. *)
Inductive exn :=
| CannotEvenlyResample   (* throw {message: 'Cannot evenly resample.'} *)
| RangeError             (* out-of-range offset or value in read/write *)
| TypeError.             (* method call on null *)

(** [Buffer.alloc(n)]: [n] zero bytes. *)
Definition alloc (n : Z) : buffer := replicate (Z.to_nat n) Byte.x00.

(** [buf.length] *)
Definition blength (b : buffer) : Z := Z.of_nat (length b).

(** [Buffer.concat([a, b])] *)
Definition concat (a b : buffer) : buffer := a ++ b.

(** [buf.slice(start)]: a negative [start] counts from the end, and the
    result is clamped to the buffer. *)
Definition slice (b : buffer) (start : Z) : buffer :=
  if start <? 0 then drop (Z.to_nat (Z.max 0 (blength b + start))) b
  else drop (Z.to_nat start) b.

(** [buf.slice(0, n)] for [0 <= n]. *)
Definition slice_to (b : buffer) (n : Z) : buffer := take (Z.to_nat n) b.

(** [buf.readInt16LE(off)]: two's complement, little endian; [None] stands
    for the [RangeError] of an offset outside the buffer. *)
Definition readInt16LE (b : buffer) (off : Z) : option Z :=
  if (off <? 0) || (blength b <? off + 2) then None
  else
    match b !! Z.to_nat off, b !! Z.to_nat (off + 1) with
    | Some first, Some last =>
        let val := byte.unsigned first + byte.unsigned last * 2 ^ 8 in
        Some (if Z.testbit val 15 then val - 2 ^ 16 else val)
    | _, _ => None
    end.

(** [buf.writeInt16LE(value, off)]: [None] stands for the [RangeError] of
    a value outside [-0x8000, 0x7fff] or an offset outside the buffer. *)
Definition writeInt16LE (b : buffer) (value off : Z) : option buffer :=
  if (value <? - 2 ^ 15) || (2 ^ 15 - 1 <? value) then None
  else if (off <? 0) || (blength b <? off + 2) then None
  else Some (<[Z.to_nat (off + 1) := byte.of_Z (Z.shiftr value 8)]>
               (<[Z.to_nat off := byte.of_Z value]> b)).

End Buffer.
Export Buffer.

(** ** Results of running a piece of the program *)

(** A computation returns, throws, or has not finished within the number of
    loop iterations it was given. *)
Inductive outcome (A : Type) :=
| Value (a : A)
| Throw (e : exn)
| OutOfFuel.
Arguments Value {A} a.
Arguments Throw {A} e.
Arguments OutOfFuel {A}.

Definition obind {A B} (k : A -> outcome B) (m : outcome A) : outcome B :=
  match m with
  | Value a => k a
  | Throw e => Throw e
  | OutOfFuel => OutOfFuel
  end.

Definition of_option {A} (o : option A) (e : exn) : outcome A :=
  match o with Some a => Value a | None => Throw e end.

#[global] Instance outcome_bind : MBind outcome := @obind.
#[global] Instance outcome_ret : MRet outcome := @Value.

(** ** [FoscamStream.resample] *)

(** [Math.round(q)]: nearest integer, ties towards plus infinity. *)
Definition Math_round (q : Q) : Z := Qfloor (Qplus q (Qmake 1 2)).

(** [Math.round(sum / divider * self.speakerGain)] read in exact arithmetic,
    the gain being a finite number. *)
Definition scale_exact (speakerGain : Q) (sum divider : Z) : Z :=
  Math_round (Qmult (Qdiv (inject_Z sum) (inject_Z divider)) speakerGain).

Section Resample.

(** [scale sum divider] is the value of
    [Math.round(sum / divider * self.speakerGain)].  The resampler is
    parametric in it, so that what is proved holds whatever the gain and
    whatever the rounding of the floating-point product. *)
Variable scale : Z -> Z -> Z.

(** The inner loop of the downsampling path:
    [for(let j = 0; j < divider; ++j) sum += samples.readInt16LE(i + (j * 2));]
    with [todo] iterations left. *)
Fixpoint sum_window (samples : buffer) (i : Z) (todo : nat) (j sum : Z)
  : outcome Z :=
  match todo with
  | O => Value sum
  | S todo' =>
      v ← of_option (readInt16LE samples (i + j * 2)) RangeError;
      sum_window samples i todo' (j + 1) (sum + v)
  end.

(** The saturation applied to every downsampled value. *)
Definition clip (sample : Z) : Z :=
  if 32767 <? sample then 32767
  else if sample <? -32767 then -32767
  else sample.

(** The outer loop of the downsampling path,
    [for(i = 0; i <= (samples.length - increment); i += increment)],
    from loop state [(i, cursor, output)].  It returns the output buffer
    and the final [i]. *)
Fixpoint down_loop (fuel : nat) (samples : buffer) (divider increment : Z)
    (i cursor : Z) (output : buffer) : outcome (buffer * Z) :=
  if i <=? blength samples - increment then
    match fuel with
    | O => OutOfFuel
    | S fuel' =>
        sum ← sum_window samples i (Z.to_nat divider) 0 0;
        let sample := clip (scale sum divider) in
        output' ← of_option (writeInt16LE output sample cursor) RangeError;
        down_loop fuel' samples divider increment (i + increment) (cursor + 2) output'
    end
  else Value (output, i).

(** The inner loop of the upsampling path,
    [for(let j = 0; j < multiplier; ++j) { output.writeInt16LE(sample, cursor); cursor += 2; }] *)
Fixpoint write_copies (todo : nat) (sample cursor : Z) (output : buffer)
  : outcome (buffer * Z) :=
  match todo with
  | O => Value (output, cursor)
  | S todo' =>
      output' ← of_option (writeInt16LE output sample cursor) RangeError;
      write_copies todo' sample (cursor + 2) output'
  end.

(** The outer loop of the upsampling path,
    [for(let i = 0; i < samples.length; i += 2)]. *)
Fixpoint up_loop (fuel : nat) (samples : buffer) (multiplier : Z)
    (i cursor : Z) (output : buffer) : outcome buffer :=
  if i <? blength samples then
    match fuel with
    | O => OutOfFuel
    | S fuel' =>
        sample ← of_option (readInt16LE samples i) RangeError;
        r ← write_copies (Z.to_nat multiplier) sample cursor output;
        up_loop fuel' samples multiplier (i + 2) r.2 r.1
    end
  else Value output.

(** [resample(samples, inputRate, outputRate)].  Sample rates are positive
    integers, for which [Math.floor(divider) != divider] says that the
    division leaves a remainder.  The result is the pair
    [[output, carry]], the carry being [null] off the downsampling path.
    Each loop gets one more iteration than the buffer has bytes. *)
Definition resample (samples : buffer) (inputRate outputRate : positive)
  : outcome (buffer * option buffer) :=
  let fuel := S (length samples) in
  if Z.pos outputRate <? Z.pos inputRate then
    let divider := Z.pos inputRate / Z.pos outputRate in
    if negb (Z.pos inputRate mod Z.pos outputRate =? 0) then
      Throw CannotEvenlyResample
    else
      let increment := divider * 2 in
      let output := alloc (2 * (blength samples / increment)) in
      r ← down_loop fuel samples divider increment 0 0 output;
      Value (r.1, Some (slice samples r.2))
  else if Z.pos inputRate <? Z.pos outputRate then
    let multiplier := Z.pos outputRate / Z.pos inputRate in
    if negb (Z.pos outputRate mod Z.pos inputRate =? 0) then
      Throw CannotEvenlyResample
    else
      let output := alloc (blength samples * multiplier) in
      output' ← up_loop fuel samples multiplier 0 0 output;
      Value (output', None)
  else Value (samples, None).

End Resample.

(** ** [FoscamStream]: the talkback pipeline state *)

(** The fields of a [FoscamStream] the audio path reads and writes.
    [talkStreamSetup] is [false] for both [undefined] and [false];
    [foscamStream] says whether the field holds a talk stream ([true]) or
    [null]; [outgoingSampleRate] is the transcoder's property of that
    name. *)
Record stream := mkStream {
  speakerEnabled : bool;
  speakerCompression : bool;
  talkStreamSetup : bool;
  foscamStream : bool;
  audioBuffer : option buffer;
  audioOutputBuffer : option buffer;
  outgoingSampleRate : positive
}.

(** One call [self.foscamStream.sendTalkData(current, self.speakerCompression)]. *)
Record talk_data := mkTalk { frame : buffer; compression : bool }.

(** How a method call ended. *)
Inductive completion :=
| Returned
| Raised (e : exn)
| Unfinished.

(** The result of a method call: the object afterwards, the frames handed
    to the sink during the call, and how the call ended. *)
Record run := mkRun { after : stream; sent : list talk_data; how : completion }.

Definition set_buffers (st : stream) (carry out : option buffer) : stream :=
  mkStream (speakerEnabled st) (speakerCompression st) (talkStreamSetup st)
    (foscamStream st) carry out (outgoingSampleRate st).

(** The state right after the constructor. *)
Definition new_stream (enabled compression : bool) (rate : positive) : stream :=
  mkStream enabled compression false false None None rate.

Section Pipeline.

Variable scale : Z -> Z -> Z.

(** [audioDataInput(samples)] *)
Definition audioDataInput (st : stream) (samples : buffer) : run :=
  if negb (talkStreamSetup st) then mkRun st [] Returned
  else
    let samples :=
      match audioBuffer st with
      | Some carry => if 0 <? blength carry then concat carry samples else samples
      | None => samples
      end in
    match resample scale samples (outgoingSampleRate st) 8000 with
    | Throw e => mkRun st [] (Raised e)
    | OutOfFuel => mkRun st [] Unfinished
    | Value results =>
        let output :=
          match audioOutputBuffer st with
          | Some out => concat out results.1
          | None => results.1
          end in
        if blength output <? 960 then
          mkRun (set_buffers st results.2 (Some output)) [] Returned
        else
          let current := slice_to output 960 in
          let st' :=
            set_buffers st results.2
              (if 960 <? blength output then Some (slice output 960) else None) in
          if foscamStream st then
            mkRun st' [mkTalk current (speakerCompression st)] Returned
          else mkRun st' [] (Raised TypeError)
    end.

(** The [type] of a stream request; [sample_rate] is
    [request['audio']['sample_rate']], in kHz. *)
Inductive request_type :=
| start (sample_rate : positive)
| reconfigure
| stop
| other.

(** [handleStreamRequest(request)], as far as the pipeline state goes: the
    calls to the control channel and to [setOptions] do not touch it. *)
Definition handleStreamRequest (st : stream) (request : request_type) : stream :=
  match request with
  | start sample_rate =>
      mkStream (speakerEnabled st) (speakerCompression st) (talkStreamSetup st)
        (foscamStream st) (audioBuffer st) (audioOutputBuffer st)
        (sample_rate * 1000)%positive
  | reconfigure => st
  | stop =>
      if speakerEnabled st then
        mkStream (speakerEnabled st) (speakerCompression st) false
          false None None (outgoingSampleRate st)
      else st
  | other => st
  end.

(** [prepareStream(request, callback)], as far as the pipeline state goes.
    The new transcoder comes with a sample rate of its own. *)
Definition prepareStream (st : stream) (transcoderRate : positive) : stream :=
  if speakerEnabled st then
    mkStream (speakerEnabled st) (speakerCompression st) (talkStreamSetup st)
      true None None transcoderRate
  else
    mkStream (speakerEnabled st) (speakerCompression st) (talkStreamSetup st)
      (foscamStream st) (audioBuffer st) (audioOutputBuffer st) transcoderRate.

(** The two callbacks on [startTalkStream()]. *)
Definition talkStreamStarted (st : stream) (ok : bool) : stream :=
  mkStream (speakerEnabled st) (speakerCompression st) ok
    (foscamStream st) (audioBuffer st) (audioOutputBuffer st)
    (outgoingSampleRate st).

(** What happens to a stream: calls from the host and from the
    transcoder, and the callbacks of a talk stream that is starting. *)
Inductive event :=
| PrepareStream (transcoderRate : positive)
| TalkStreamStarted (ok : bool)
| StreamRequest (request : request_type)
| AudioData (samples : buffer).

Definition step (st : stream) (ev : event) : stream * list talk_data :=
  match ev with
  | PrepareStream rate => (prepareStream st rate, [])
  | TalkStreamStarted ok => (talkStreamStarted st ok, [])
  | StreamRequest request => (handleStreamRequest st request, [])
  | AudioData samples =>
      let r := audioDataInput st samples in (after r, sent r)
  end.

(** A talk stream is only ever started on a stream with the speaker
    enabled, so only there can its callbacks run. *)
Definition possible (st : stream) (ev : event) : Prop :=
  match ev with
  | TalkStreamStarted _ => speakerEnabled st = true
  | _ => True
  end.

(** The states a stream can be in, with every frame sent so far. *)
Inductive reachable : stream -> list talk_data -> Prop :=
| reach_new enabled compression rate :
    reachable (new_stream enabled compression rate) []
| reach_step st frames ev :
    reachable st frames -> possible st ev ->
    reachable (step st ev).1 (frames ++ (step st ev).2).

End Pipeline.

(** ** JavaScript strings and numbers

    A string is its sequence of character codes, here the codes below 256. *)
Module JS.

(** A number that [parseInt] can return.  Integers are kept exact; a
    double is exact up to [2 ^ 53]. *)
Inductive number :=
| NaN
| Num (n : Z).

(** [str.split(sep)] for a separator of one character. *)
Fixpoint split (sep : ascii) (str : string) : list string :=
  match str with
  | EmptyString => [EmptyString]
  | String c rest =>
      if Ascii.eqb c sep then EmptyString :: split sep rest
      else
        match split sep rest with
        | [] => [String c EmptyString]
        | first :: others => String c first :: others
        end
  end.

(** [str.split(sep, limit)]: the first [limit] pieces, the rest dropped. *)
Definition split_limit (sep : ascii) (limit : nat) (str : string) : list string :=
  take limit (split sep str).

(** The white space [parseInt] skips, among the codes below 256. *)
Definition is_white_space (c : ascii) : bool :=
  bool_decide (nat_of_ascii c ∈ [9; 10; 11; 12; 13; 32; 160]%nat).

Fixpoint trim_start (str : string) : string :=
  match str with
  | String c rest => if is_white_space c then trim_start rest else str
  | EmptyString => str
  end.

(** The value of a character as a digit in the given radix. *)
Definition digit (radix : Z) (c : ascii) : option Z :=
  let n := Z.of_nat (nat_of_ascii c) in
  let v :=
    if (48 <=? n) && (n <=? 57) then Some (n - 48)
    else if (97 <=? n) && (n <=? 122) then Some (n - 87)
    else if (65 <=? n) && (n <=? 90) then Some (n - 55)
    else None in
  match v with
  | Some d => if d <? radix then Some d else None
  | None => None
  end.

(** The value of the longest prefix of digits, [None] when it is empty. *)
Fixpoint digits (radix : Z) (str : string) (acc : option Z) : option Z :=
  match str with
  | String c rest =>
      match digit radix c with
      | Some d => digits radix rest (Some (default 0 acc * radix + d))
      | None => acc
      end
  | EmptyString => acc
  end.

(** [parseInt(str)], no radix given. *)
Definition parseInt (str : string) : number :=
  let s := trim_start str in
  let '(sign, s) :=
    match s with
    | String "-"%char rest => (-1, rest)
    | String "+"%char rest => (1, rest)
    | _ => (1, s)
    end in
  let '(radix, s) :=
    match s with
    | String "0"%char (String "x"%char rest) => (16, rest)
    | String "0"%char (String "X"%char rest) => (16, rest)
    | _ => (10, s)
    end in
  match digits radix s None with
  | Some n => Num (sign * n)
  | None => NaN
  end.

(** [parseInt(x)] for a header that may be missing: [parseInt(undefined)]
    is [NaN]. *)
Definition parseInt_opt (x : option string) : number :=
  match x with
  | Some str => parseInt str
  | None => NaN
  end.

(** Truthiness. *)
Definition truthy_string (s : string) : bool := negb (String.eqb s "").

Definition truthy_number (n : number) : bool :=
  match n with
  | NaN => false
  | Num z => negb (z =? 0)
  end.

(** [n > 0] *)
Definition is_positive (n : number) : bool :=
  match n with
  | NaN => false
  | Num z => 0 <? z
  end.

(** [null] and [undefined] are [None]. *)
Definition truthy {A} (f : A -> bool) (x : option A) : bool :=
  match x with
  | Some a => f a
  | None => false
  end.

End JS.
Export JS.

(** ** [RTSPClient]: messages, promises and errors *)

(** A value stored in a request's [headers] object. *)
Inductive hval :=
| HNull
| HNum (n : Z)
| HStr (s : string).

Definition truthy_hval (v : hval) : bool :=
  match v with
  | HNull => false
  | HNum n => negb (n =? 0)
  | HStr s => truthy_string s
  end.

(** The [options] object of a request.  [headers] is [None] while the
    caller has not given any. *)
Record options := mkOptions {
  method : string;
  uri : string;
  headers : option (gmap string hval)
}.

(** A decoded response: status code and headers, keyed in lower case. *)
Record response := mkResponse {
  statusCode : Z;
  rheaders : gmap string string
}.

(** What a request resolves to: [{response, data}]. *)
Record result := mkResult {
  res_response : response;
  res_data : buffer
}.

(** What [setup] resolves to: [{source, rtpPort, rtcpPort}]. *)
Record transport_result := mkTransport {
  source : string;
  rtpPort : Z;
  rtcpPort : Z
}.

(** The values promises are rejected with. *)
Inductive error :=
| TransportFailure (err : string)
    (* what the socket or the decoder emitted with its 'error' event *)
| AuthenticationError (message : string)
    (* {message, type: 'authentication'} *)
| NoTransport (resp : response)
    (* {message: 'No transport.', response} *)
| CouldNotParseTransport (transport : string) (src : option string)
    (rtp rtcp : option number)
    (* {message: 'Could not parse transport.', transport, source, rtpPort, rtcpPort} *)
| CouldNotResolveSource (src : string).
    (* {message: 'Could not resolve source.', source} *)

(** The state of a promise.  [Following q] is a promise that was resolved
    with the promise [q]: it is locked to [q]'s eventual state. *)
Inductive pstate :=
| Pending
| Fulfilled (v : result)
| Rejected (e : error)
| Following (q : nat).

(** [resolve(x)] and [reject(e)] only act on a promise that is pending. *)
Definition settle (heap : gmap nat pstate) (p : nat) (s : pstate) : gmap nat pstate :=
  match heap !! p with
  | Some Pending => <[p := s]> heap
  | _ => heap
  end.

(** What the holder of promise [p] observes, following at most [fuel]
    links. *)
Fixpoint observe (fuel : nat) (heap : gmap nat pstate) (p : nat) : pstate :=
  match heap !! p with
  | Some (Following q) =>
      match fuel with
      | O => Pending
      | S fuel' => observe fuel' heap q
      end
  | Some s => s
  | None => Pending
  end.

(** How a promise built by [.then] or [new Promise] ends up.  A promise
    that stays pending lists the rejected promises that were created and
    dropped on its way. *)
Inductive settles (A : Type) :=
| Fulfils (a : A)
| RejectsWith (e : error)
| StaysPending (floating : list error).
Arguments Fulfils {A} a.
Arguments RejectsWith {A} e.
Arguments StaysPending {A} floating.

(** An entry of [self.requests]: [{options, resolve, reject}], the two
    functions being those of promise [p_handle]. *)
Record pending := mkPending {
  p_options : options;
  p_handle : nat
}.

(** The [done] closure that [onResponse] registers on the response's 'end'
    event, with what it captured. *)
Record deferred := mkDeferred {
  d_cseq : Z;
  d_request : pending;
  d_response : response
}.

(** What [dns.resolve] hands to its callback. *)
Inductive dns_answer :=
| DnsError (err : string)
| DnsAddresses (addresses : list string).

Section Client.

(** The [www-authenticate] package: [authenticate] is the function
    [www_authenticate(username, password)] returns, [None] when the call
    throws; [auth_err] is the [err] property of what it builds,
    [authorize] its [authorize] method. *)
Variable Authenticator : Type.
Variable authenticate : string -> option Authenticator.
Variable auth_err : Authenticator -> option string.
Variable authorize : Authenticator -> string -> string -> string.

(** An [RTSPClient], followed by the part of the runtime it acts on: the
    promises it created, the requests it wrote to the encoder, the
    interval timers it started and the number of sockets it opened. *)
Record client := mkClient {
  authenticator : option Authenticator;
  requests : gmap Z pending;
  cseq : Z;
  session : option string;
  keepAliveInterval : option nat;
  pendingReconnect : bool;
  promises : gmap nat pstate;
  next_promise : nat;
  written : list options;
  timers : gset nat;
  next_timer : nat;
  sockets : nat
}.

(** The state right after the constructor, which calls [reconnect()]. *)
Definition new_client : client :=
  mkClient None ∅ 1 None None true ∅ 0 [] ∅ 0 1.

Definition set_authenticator (st : client) (a : option Authenticator) : client :=
  mkClient a (requests st) (cseq st) (session st) (keepAliveInterval st)
    (pendingReconnect st) (promises st) (next_promise st) (written st)
    (timers st) (next_timer st) (sockets st).

Definition set_requests (st : client) (r : gmap Z pending) : client :=
  mkClient (authenticator st) r (cseq st) (session st) (keepAliveInterval st)
    (pendingReconnect st) (promises st) (next_promise st) (written st)
    (timers st) (next_timer st) (sockets st).

Definition set_promises (st : client) (h : gmap nat pstate) : client :=
  mkClient (authenticator st) (requests st) (cseq st) (session st)
    (keepAliveInterval st) (pendingReconnect st) h (next_promise st)
    (written st) (timers st) (next_timer st) (sockets st).

Definition set_pendingReconnect (st : client) (b : bool) : client :=
  mkClient (authenticator st) (requests st) (cseq st) (session st)
    (keepAliveInterval st) b (promises st) (next_promise st)
    (written st) (timers st) (next_timer st) (sockets st).

(** [resolve(value)], [resolve(promise)] and [reject(e)] on promise [p]. *)
Definition resolve (st : client) (p : nat) (v : result) : client :=
  set_promises st (settle (promises st) p (Fulfilled v)).

Definition resolve_with_promise (st : client) (p q : nat) : client :=
  set_promises st (settle (promises st) p (Following q)).

Definition reject (st : client) (p : nat) (e : error) : client :=
  set_promises st (settle (promises st) p (Rejected e)).

(** [reconnect()]: one attempt in flight at most. *)
Definition reconnect (st : client) : client :=
  if pendingReconnect st then st
  else
    mkClient (authenticator st) (requests st) (cseq st) (session st)
      (keepAliveInterval st) true (promises st) (next_promise st)
      (written st) (timers st) (next_timer st) (S (sockets st)).

(** The body of the loop of [onError], for one key of [self.requests]. *)
Definition reject_entry (err : error) (st : client) (entry : Z * pending) : client :=
  set_requests (reject st (p_handle entry.2) err) (delete entry.1 (requests st)).

(** [onError(err)] *)
Definition onError (st : client) (err : error) : client :=
  reconnect (foldl (reject_entry err) st (map_to_list (requests st))).

(** [makeRequest(options)]: the client afterwards and the promise
    returned.  The entry stored in [self.requests] holds the options
    object as the call leaves it, headers filled in. *)
Definition makeRequest (st : client) (opts : options) : client * nat :=
  let p := next_promise st in
  let n := cseq st in
  let h := default ∅ (headers opts) in
  let h := <["CSeq" := HNum n]> h in
  let h :=
    match authenticator st with
    | Some a => <["Authorization" := HStr (authorize a (method opts) (uri opts))]> h
    | None => h
    end in
  let h :=
    match session st with
    | Some s =>
        if truthy_string s && negb (truthy truthy_hval (h !! "Session"))
        then <["Session" := HStr s]> h
        else h
    | None => h
    end in
  let opts' := mkOptions (method opts) (uri opts) (Some h) in
  (mkClient (authenticator st) (<[n := mkPending opts' p]> (requests st))
     (n + 1) (session st) (keepAliveInterval st) (pendingReconnect st)
     (<[p := Pending]> (promises st)) (S p) (written st ++ [opts'])
     (timers st) (next_timer st) (sockets st),
   p).

(** [newSession(session)] *)
Definition newSession (st : client) (s : string) : client :=
  let running :=
    match keepAliveInterval st with
    | Some t => timers st ∖ {[t]}
    | None => timers st
    end in
  mkClient (authenticator st) (requests st) (cseq st) (Some s)
    (Some (next_timer st)) (pendingReconnect st) (promises st)
    (next_promise st) (written st) (running ∪ {[next_timer st]})
    (S (next_timer st)) (sockets st).

(** [closeSession()] *)
Definition closeSession (st : client) : client :=
  let running :=
    match keepAliveInterval st with
    | Some t => timers st ∖ {[t]}
    | None => timers st
    end in
  mkClient (authenticator st) (requests st) (cseq st) None
    (keepAliveInterval st) (pendingReconnect st) (promises st)
    (next_promise st) (written st) running (next_timer st) (sockets st).

(** The closure [done] of [onResponse], run for the request found under
    [n], with the body chunks received so far concatenated in [data].
    Nothing catches what [self.authenticate] throws: [done] then ends
    where it is, the entry deleted, [self.authenticator] not assigned and
    neither [resolve] nor [reject] called. *)
Definition done (st : client) (n : Z) (request : pending) (resp : response)
    (data : buffer) : client :=
  let requestOptions := p_options request in
  let p := p_handle request in
  let st := set_requests st (delete n (requests st)) in
  let authorization :=
    truthy truthy_hval (default ∅ (headers requestOptions) !! "Authorization") in
  if (statusCode resp =? 401) && negb authorization
     && truthy truthy_string (rheaders resp !! "www-authenticate") then
    match authenticate (default "" (rheaders resp !! "www-authenticate")) with
    | None => st
    | Some a =>
        let st := set_authenticator st (Some a) in
        if truthy truthy_string (auth_err a) then
          reject st p (AuthenticationError (default "" (auth_err a)))
        else
          let r := makeRequest st requestOptions in
          resolve_with_promise r.1 p r.2
    end
  else if ((statusCode resp =? 401) || (statusCode resp =? 403)) && authorization then
    reject st p (AuthenticationError "Authentication failed.")
  else resolve st p (mkResult resp data).

(** The session update of [onResponse]:
    [if(response.headers['session']) { let parts = ...split(';'); self.newSession(parts[0]); }] *)
Definition update_session (st : client) (resp : response) : client :=
  match rheaders resp !! "session" with
  | Some v =>
      if truthy_string v
      then newSession st (default "" (head (split ";" v)))
      else st
  | None => st
  end.

(** [onResponse(response)]: the client afterwards, and the [done] closure
    left waiting for the end of the body, if any. *)
Definition onResponse (st : client) (resp : response) : client * option deferred :=
  match parseInt_opt (rheaders resp !! "cseq") with
  | NaN => (st, None)
  | Num n =>
      match requests st !! n with
      | None => (st, None)
      | Some request =>
          let st := update_session st resp in
          if truthy truthy_string (rheaders resp !! "content-length")
             && is_positive (parseInt_opt (rheaders resp !! "content-length"))
          then (st, Some (mkDeferred n request resp))
          else (done st n request resp [], None)
      end
  end.

(** The response's 'end' event reaching a waiting [done]. *)
Definition onEnd (st : client) (d : deferred) (data : buffer) : client :=
  done st (d_cseq d) (d_request d) (d_response d) data.

(** [teardown()] *)
Definition teardown (st : client) (sanitizedURI : string) : client * nat :=
  let session_header :=
    match session st with
    | Some s => HStr s
    | None => HNull
    end in
  let r :=
    makeRequest st
      (mkOptions "TEARDOWN" sanitizedURI (Some {[ "Session" := session_header ]})) in
  (closeSession r.1, r.2).

(** [request] is pending under sequence number [n]: it is the entry of
    [self.requests] for [n], and its promise, created by an earlier
    [makeRequest], has not been settled. *)
Definition is_pending (st : client) (n : Z) (request : pending) : Prop :=
  requests st !! n = Some request
  ∧ promises st !! p_handle request = Some Pending.

(** Every promise there is was created by this client. *)
Definition allocated (st : client) : Prop :=
  ∀ p, is_Some (promises st !! p) -> (p < next_promise st)%nat.

(** From [st] to [st'] no promise was lost, and none that was settled or
    locked to another one has changed. *)
Definition later (st st' : client) : Prop :=
  allocated st'
  ∧ (next_promise st <= next_promise st')%nat
  ∧ ∀ p t, promises st !! p = Some t -> t <> Pending ->
           promises st' !! p = Some t.

(** What can happen to a client: calls from its user, events of the
    decoder and of the socket, and the end of a response body reaching a
    [done] that was waiting for it. *)
Inductive client_event :=
| Call_makeRequest (opts : options)
| Call_teardown (sanitizedURI : string)
| On_response (resp : response)
| On_end (d : deferred) (data : buffer)
| On_decoder_error (err : error)
| On_socket_error (err : error)
| On_connected.

Definition client_step (st : client) (ev : client_event) : client :=
  match ev with
  | Call_makeRequest opts => (makeRequest st opts).1
  | Call_teardown sanitizedURI => (teardown st sanitizedURI).1
  | On_response resp => (onResponse st resp).1
  | On_end d data => onEnd st d data
  | On_decoder_error err => onError st err
  | On_socket_error err => onError (set_pendingReconnect st false) err
  | On_connected => set_pendingReconnect st false
  end.

Definition client_run (st : client) (evs : list client_event) : client :=
  foldl client_step st evs.

(** The [done] closure an event leaves waiting for the end of a body. *)
Definition registered (st : client) (ev : client_event) : list deferred :=
  match ev with
  | On_response resp => option_list (onResponse st resp).2
  | _ => []
  end.

(** Only a [done] that was left waiting can be reached by an 'end' event. *)
Definition event_possible (waiting : list deferred) (ev : client_event) : Prop :=
  match ev with
  | On_end d _ => d ∈ waiting
  | _ => True
  end.

(** The states a client can be in, with the [done] closures that were left
    waiting on the way. *)
Inductive client_reachable : client -> list deferred -> Prop :=
| client_reach_new : client_reachable new_client []
| client_reach_step st waiting ev :
    client_reachable st waiting -> event_possible waiting ev ->
    client_reachable (client_step st ev) (waiting ++ registered st ev).

(** What holds of [self.requests], of the promises and of the waiting
    closures in every state: each entry has a promise of its own that is
    still pending, and a waiting closure holds the promise of no entry but
    the one under its sequence number. *)
Definition consistent (reqs : gmap Z pending) (heap : gmap nat pstate)
    (next : nat) (waiting : list deferred) : Prop :=
  (∀ p, is_Some (heap !! p) -> (p < next)%nat)
  ∧ (∀ k r, reqs !! k = Some r -> heap !! p_handle r = Some Pending)
  ∧ (∀ k1 k2 r1 r2, reqs !! k1 = Some r1 -> reqs !! k2 = Some r2 ->
                    p_handle r1 = p_handle r2 -> k1 = k2)
  ∧ (∀ d, d ∈ waiting ->
          (p_handle (d_request d) < next)%nat
          ∧ ∀ k r, reqs !! k = Some r ->
                   p_handle r = p_handle (d_request d) -> k = d_cseq d).

Definition client_consistent (st : client) (waiting : list deferred) : Prop :=
  consistent (requests st) (promises st) (next_promise st) waiting.

End Client.

Arguments mkClient {Authenticator}.
Arguments authenticator {Authenticator}.
Arguments requests {Authenticator}.
Arguments cseq {Authenticator}.
Arguments session {Authenticator}.
Arguments keepAliveInterval {Authenticator}.
Arguments pendingReconnect {Authenticator}.
Arguments promises {Authenticator}.
Arguments next_promise {Authenticator}.
Arguments written {Authenticator}.
Arguments timers {Authenticator}.
Arguments next_timer {Authenticator}.
Arguments sockets {Authenticator}.
Arguments set_authenticator {Authenticator}.
Arguments set_requests {Authenticator}.
Arguments set_promises {Authenticator}.
Arguments set_pendingReconnect {Authenticator}.
Arguments resolve {Authenticator}.
Arguments resolve_with_promise {Authenticator}.
Arguments reject {Authenticator}.
Arguments reconnect {Authenticator}.
Arguments reject_entry {Authenticator}.
Arguments onError {Authenticator}.
Arguments makeRequest {Authenticator}.
Arguments newSession {Authenticator}.
Arguments closeSession {Authenticator}.
Arguments done {Authenticator}.
Arguments onResponse {Authenticator}.
Arguments update_session {Authenticator}.
Arguments onEnd {Authenticator}.
Arguments teardown {Authenticator}.
Arguments new_client {Authenticator}.
Arguments is_pending {Authenticator}.
Arguments allocated {Authenticator}.
Arguments later {Authenticator}.
Arguments client_step {Authenticator}.
Arguments client_run {Authenticator}.
Arguments registered {Authenticator}.
Arguments client_reachable {Authenticator}.
Arguments client_consistent {Authenticator}.

(** ** [RTSPClient.setup]: the transport negotiation *)

Section Transport.

(** [ip.isV4Format] and [ip.isV6Format] of the [ip] package, and the
    answer [dns.resolve] gives for a host name. *)
Variable isV4Format : string -> bool.
Variable isV6Format : string -> bool.
Variable dns_resolve : string -> dns_answer.

(** The three variables the loop over the transport parameters assigns:
    [source], [rtpPort] and [rtcpPort], all [null] at first. *)
Definition parsed : Type := option string * option number * option number.

(** The body of [for(let value of transport.split(';'))]. *)
Definition parse_value (acc : parsed) (value : string) : parsed :=
  let '(src, rtp, rtcp) := acc in
  match split_limit "=" 2 value with
  | [key; val] =>
      if String.eqb key "server_port" then
        let ports := split_limit "-" 2 val in
        let rtp' := parseInt_opt (ports !! 0%nat) in
        let rtcp' :=
          match ports with
          | [_; second] => parseInt second
          | _ => rtp'
          end in
        (src, Some rtp', Some rtcp')
      else if String.eqb key "source" then (Some val, rtp, rtcp)
      else acc
  | _ => acc
  end.

Definition parse_transport (transport : string) : parsed :=
  foldl parse_value (None, None, None) (split ";" transport).

(** The callback given to [dns.resolve].  On failure it returns a
    rejected promise to [dns.resolve], which ignores it: neither
    [resolve] nor [reject] of the promise [setup] returned is called. *)
Definition resolved (src : string) (rtp rtcp : Z) (answer : dns_answer)
  : settles transport_result :=
  match answer with
  | DnsError _ => StaysPending [CouldNotResolveSource src]
  | DnsAddresses [] => StaysPending [CouldNotResolveSource src]
  | DnsAddresses (address :: _) => Fulfils (mkTransport address rtp rtcp)
  end.

(** The function [setup] passes to [.then]: what the promise [setup]
    returns does once the SETUP request is fulfilled with [res]. *)
Definition setup_then (res : result) : settles transport_result :=
  let resp := res_response res in
  match rheaders resp !! "transport" with
  | None => RejectsWith (NoTransport resp)
  | Some transport =>
      if negb (truthy_string transport) then RejectsWith (NoTransport resp)
      else
        let '(src, rtp, rtcp) := parse_transport transport in
        let failed := RejectsWith (CouldNotParseTransport transport src rtp rtcp) in
        if truthy truthy_string src && truthy truthy_number rtp
           && truthy truthy_number rtcp then
          match src, rtp, rtcp with
          | Some host, Some (Num rtpPort), Some (Num rtcpPort) =>
              if isV4Format host || isV6Format host
              then Fulfils (mkTransport host rtpPort rtcpPort)
              else resolved host rtpPort rtcpPort (dns_resolve host)
          | _, _, _ => failed
          end
        else failed
  end.

(** The promise [setup] returns, from what becomes of its request. *)
Definition setup_settles (request : pstate) : settles transport_result :=
  match request with
  | Fulfilled res => setup_then res
  | Rejected e => RejectsWith e
  | Pending | Following _ => StaysPending []
  end.

End Transport.

(** The options [setup(uri, rtpPort, rtcpPort)] makes its request with. *)
Definition setup_options (track : string) (rtpPort rtcpPort : Z) : options :=
  mkOptions "SETUP" track
    (Some {[ "Transport" :=
               HStr ("RTP/AVP;unicast;client_port=" +:+ pretty rtpPort
                     +:+ "-" +:+ pretty rtcpPort) ]}).

(** [setup(uri, rtpPort, rtcpPort)]: the SETUP request it makes.  What the
    promise it returns comes to is [setup_settles] of what the promise of
    the request comes to. *)
Definition setup {Authenticator : Type}
    (authorize : Authenticator -> string -> string -> string)
    (st : client Authenticator) (track : string) (rtpPort rtcpPort : Z)
  : client Authenticator * nat :=
  makeRequest authorize st (setup_options track rtpPort rtcpPort).

(** A recogniser of dotted quads, one to three decimal digits four times,
    the strings [ip.isV4Format] accepts. *)
Definition is_decimal (c : ascii) : bool :=
  let n := nat_of_ascii c in (48 <=? n)%nat && (n <=? 57)%nat.

Definition short_number (s : string) : bool :=
  let cs := list_ascii_of_string s in
  (1 <=? length cs)%nat && (length cs <=? 3)%nat && forallb is_decimal cs.

Definition dotted_quad (s : string) : bool :=
  let parts := split "." s in
  (length parts =? 4)%nat && forallb short_number parts.

(** [key] is the name of one of the [key=value] parameters of
    [transport]. *)
Definition has_parameter (key transport : string) : bool :=
  existsb
    (λ value,
       match split_limit "=" 2 value with
       | [name; _] => String.eqb name key
       | _ => false
       end)
    (split ";" transport).

(** The three variables after the loop are all truthy:
    [source && rtpPort && rtcpPort]. *)
Definition determined (p : parsed) : bool :=
  truthy truthy_string p.1.1 && truthy truthy_number p.1.2
  && truthy truthy_number p.2.

(** A resolver that finds no host, and a host-format test that accepts
    nothing. *)
Definition dns_not_found (host : string) : dns_answer := DnsError "ENOTFOUND".

Definition no_format (s : string) : bool := false.

(** ** Strings around a separator *)

(** The part of [s] before the first [sep], all of [s] when there is none. *)
Fixpoint before_first (sep : ascii) (s : string) : string :=
  match s with
  | EmptyString => EmptyString
  | String c rest =>
      if Ascii.eqb c sep then EmptyString else String c (before_first sep rest)
  end.

Fixpoint contains (sep : ascii) (s : string) : bool :=
  match s with
  | EmptyString => false
  | String c rest => Ascii.eqb c sep || contains sep rest
  end.

(** ** A stand-in for the [www-authenticate] package

    It takes Basic challenges, builds an authenticator with an error for
    a Digest challenge, and throws on any other; the client is run with it
    on examples. *)
Definition basic_authenticate (challenge : string) : option string :=
  if String.prefix "Basic" challenge || String.prefix "Digest" challenge
  then Some challenge
  else None.

Definition basic_err (a : string) : option string :=
  if String.prefix "Basic" a then None else Some "unsupported scheme".

Definition basic_authorize (a method uri : string) : string := "Basic YWRtaW46".

(** A client with one request written and not answered yet. *)
Definition one_pending : client string :=
  (makeRequest basic_authorize new_client
     (mkOptions "DESCRIBE" "rtsp://camera/videoMain" None)).1.

(** A client with two requests written and not answered yet. *)
Definition two_pending : client string :=
  (makeRequest basic_authorize
     (makeRequest basic_authorize new_client
        (mkOptions "DESCRIBE" "rtsp://camera/videoMain" None)).1
     (mkOptions "GET_PARAMETER" "rtsp://camera/videoMain" None)).1.

(** ** What the downsampling loop computes

    The values below describe the result of the loops of [resample]; the
    loops are shown to compute them. *)

(** The bytes [writeInt16LE] stores for the values of [l], in order. *)
Definition enc16 (l : list Z) : buffer :=
  l ≫= (λ v, [byte.of_Z v; byte.of_Z (Z.shiftr v 8)]).

(** The sample at byte offset [off], zero outside the buffer. *)
Definition s16 (b : buffer) (off : Z) : Z := default 0 (readInt16LE b off).

(** The sum of the [todo] samples from sample [j] of the window at [i]. *)
Fixpoint wsum (b : buffer) (i : Z) (todo : nat) (j : Z) : Z :=
  match todo with
  | O => 0
  | S todo' => s16 b (i + j * 2) + wsum b i todo' (j + 1)
  end.

(** The output sample for the window at [i]. *)
Definition window_value (scale : Z -> Z -> Z) (b : buffer) (divider i : Z) : Z :=
  clip (scale (wsum b i (Z.to_nat divider) 0) divider).

(** The output samples for [n] windows in a row, the first at [i]. *)
Fixpoint down_values (scale : Z -> Z -> Z) (b : buffer) (divider increment : Z)
    (i : Z) (n : nat) : list Z :=
  match n with
  | O => []
  | S n' =>
      window_value scale b divider i
      :: down_values scale b divider increment (i + increment) n'
  end.

(** The bytes of the frames sent, in order. *)
Definition frames_bytes (l : list talk_data) : buffer := l ≫= frame.

(** The bytes waiting in [audioOutputBuffer]. *)
Definition buffered (st : stream) : buffer := default [] (audioOutputBuffer st).

(** The bytes [audioDataInput] hands to [resample]: the carry, if any, then
    the new chunk. *)
Definition resample_input (st : stream) (samples : buffer) : buffer :=
  default [] (audioBuffer st) ++ samples.

(** ** More of the pipeline: samples and runs of events *)

(** The [n] samples of [b] that start at byte [i], two bytes each. *)
Fixpoint samples_from (b : buffer) (i : Z) (n : nat) : list Z :=
  match n with
  | O => []
  | S n' => s16 b i :: samples_from b (i + 2) n'
  end.

(** The samples of a buffer of even length. *)
Definition samples_of (b : buffer) : list Z := samples_from b 0 (length b / 2).

(** A stream taken through a list of events: the stream afterwards and
    the frames sent on the way. *)
Definition run_events (scale : Z -> Z -> Z) (st : stream) (evs : list event)
  : stream * list talk_data :=
  foldl (λ acc ev, ((step scale acc.1 ev).1, acc.2 ++ (step scale acc.1 ev).2))
    (st, []) evs.

(** Every event but the callback that says the talk stream has started. *)
Definition not_started (ev : event) : bool :=
  match ev with
  | TalkStreamStarted true => false
  | _ => true
  end.

(** ** More of the client: what its states keep *)

(** The header of a written request, [None] when it has none of that
    name. *)
Definition header (name : string) (o : options) : option hval :=
  default ∅ (headers o) !! name.

(** Sequence numbers in order: the requests written so far carry the CSeq
    headers 1, 2, ... up to the number before [self.cseq], and every entry
    of [self.requests] sits under the number its request carries. *)
Definition numbered (w : list options) (next : Z) (reqs : gmap Z pending) : Prop :=
  1 <= next
  ∧ header "CSeq" <$> w = (λ n, Some (HNum n)) <$> seqZ 1 (next - 1)
  ∧ ∀ k r, reqs !! k = Some r ->
           1 <= k < next ∧ header "CSeq" (p_options r) = Some (HNum k).

(** One keepalive timer runs while there is a session, the one
    [self.keepAliveInterval] holds, and none runs while there is none. *)
Definition keepalive_consistent {Authenticator : Type}
    (st : client Authenticator) : Prop :=
  match session st with
  | Some _ => ∃ t, keepAliveInterval st = Some t ∧ timers st = {[ t ]}
  | None => timers st = ∅
  end.

(** A request written with an Authorization header. *)
Definition authorized (o : options) : Prop :=
  ∃ credentials, header "Authorization" o = Some (HStr credentials).

(** A client whose first request was answered with a challenge, and written
    again with credentials. *)
Definition challenged : client string :=
  client_step basic_authenticate basic_err basic_authorize one_pending
    (On_response
       (mkResponse 401
          {[ "cseq" := "1"; "www-authenticate" := "Basic realm=camera" ]})).

(** The same client once the second request was answered, with a session. *)
Definition established : client string :=
  client_step basic_authenticate basic_err basic_authorize challenged
    (On_response
       (mkResponse 200 {[ "cseq" := "2"; "session" := "ABCD;timeout=60" ]})).

(** What happens to the connection of a client: its calls and events,
    and a call of [reconnect()] from outside the events, as the one
    [getSDP] makes when its request has failed. *)
Inductive connection_event :=
| Client (ev : client_event)
| Call_reconnect.

Definition connection_step {Authenticator : Type}
    (authenticate : string -> option Authenticator)
    (auth_err : Authenticator -> option string)
    (authorize : Authenticator -> string -> string -> string)
    (st : client Authenticator) (ev : connection_event) : client Authenticator :=
  match ev with
  | Client ev => client_step authenticate auth_err authorize st ev
  | Call_reconnect => reconnect st
  end.

Definition connection_run {Authenticator : Type}
    (authenticate : string -> option Authenticator)
    (auth_err : Authenticator -> option string)
    (authorize : Authenticator -> string -> string -> string)
    (st : client Authenticator) (evs : list connection_event)
  : client Authenticator :=
  foldl (connection_step authenticate auth_err authorize) st evs.

(** The events whose handler sets [self.pendingReconnect] to null: the
    connect callback and the error handler of a socket, whichever socket
    it belongs to. *)
Definition clears_pending (ev : connection_event) : bool :=
  match ev with
  | Client On_connected | Client (On_socket_error _) => true
  | _ => false
  end.

Definition cleared (evs : list connection_event) : nat :=
  length (List.filter clears_pending evs).

(** The sockets a call of [reconnect()] would open: one when
    [self.pendingReconnect] is null, none when it is set. *)
Definition attempts_left {Authenticator} (st : client Authenticator) : nat :=
  if pendingReconnect st then 0 else 1.

(** ** [FoscamAccessory]: the video parameters given to the camera *)

(** The body of the loop of [closestBitRate(list, bitRate)], on [closest],
    [null] at first, and [closestDiff], undefined at first. *)
Definition closer (bitRate : Z) (acc : option Z * option Z) (rate : Z)
  : option Z * option Z :=
  let '(closest, closestDiff) := acc in
  let diff := Z.abs (bitRate - rate) in
  if match closest, closestDiff with
     | None, _ => true
     | Some _, Some d => d >? diff
     | Some _, None => false
     end
  then (Some rate, Some diff)
  else acc.

Definition closestBitRate (list : list Z) (bitRate : Z) : option Z :=
  (foldl (closer bitRate) (None, None) list).1.

(** [heightToFoscamResolution(height)]; [None] is [undefined], what the
    [switch] leaves for a height it does not list. *)
Definition heightToFoscamResolution (height : Z) : option Z :=
  if height =? 960 then Some 6
  else if height =? 720 then Some 0
  else if height =? 480 then Some 1
  else if height =? 360 then Some 3
  else if height =? 240 then Some 2
  else if height =? 180 then Some 4
  else None.

(** The resolutions and bit rates the constructor sets up: width, height
    and frames per second of what is advertised for the main and for the
    sub stream, and the bit rates the camera takes. *)
Definition mainResolutions : list (Z * Z * Z) :=
  [ (1280, 960, 30); (1280, 960, 15); (1280, 720, 30); (1280, 720, 15);
    (640, 480, 30); (640, 480, 15); (640, 360, 30); (640, 360, 15);
    (320, 240, 30); (320, 240, 15); (320, 180, 30); (320, 180, 15) ].

Definition subResolutions : list (Z * Z * Z) :=
  [ (1280, 720, 10); (640, 480, 10); (640, 360, 10); (320, 240, 10);
    (320, 180, 10) ].

Definition mainSupportedBitRates : list Z :=
  [ 4 * 1024 * 1024; 2 * 1024 * 1024; 1 * 1024 * 1024; 512 * 1024;
    256 * 1024; 200 * 1024; 128 * 1024; 100 * 1024 ].

Definition subSupportedBitRates : list Z :=
  [ 512 * 1024; 256 * 1024; 200 * 1024; 128 * 1024; 100 * 1024; 50 * 1024;
    20 * 1024 ].

(** The parameters [setMainOptions] and [setSubOptions] give to
    [setVideoStreamParam] and [setSubVideoStreamParam]. *)
Record stream_param := mkStreamParam {
  streamType : Z;
  resolution : option Z;
  bitRate : option Z;
  frameRate : Z;
  GOP : Z;
  isVBR : bool
}.

Definition setMainOptions (self_streamType : Z) (width height fps bitRate : Z)
  : stream_param :=
  mkStreamParam self_streamType (heightToFoscamResolution height)
    (closestBitRate mainSupportedBitRates bitRate) fps fps true.

Definition setSubOptions (self_streamType : Z) (width height fps bitRate : Z)
  : stream_param :=
  mkStreamParam self_streamType (heightToFoscamResolution height)
    (closestBitRate subSupportedBitRates bitRate) fps fps true.

(** [rate] is one of [list], and no rate of [list] is closer to [wanted]. *)
Definition nearest (list : list Z) (wanted rate : Z) : Prop :=
  rate ∈ list ∧ ∀ other, other ∈ list ->
    Z.abs (wanted - rate) <= Z.abs (wanted - other).

(** The parameters are all there: a resolution of the camera, and the
    nearest of the bit rates of [list]. *)
Definition complete (list : list Z) (wanted fps : Z) (p : stream_param) : Prop :=
  (∃ code, resolution p = Some code)
  ∧ (∃ rate, bitRate p = Some rate ∧ nearest list wanted rate)
  ∧ frameRate p = fps ∧ GOP p = fps ∧ isVBR p = true.

(** ** [FoscamAccessory]: the schedule of the motion detector *)

(** The operand of a bitwise operator: the number modulo [2 ^ 32], in the
    signed range. *)
Definition ToInt32 (x : Z) : Z :=
  let m := x mod 2 ^ 32 in
  if m <? 2 ^ 31 then m else m - 2 ^ 32.

(** [a << b]: the shift count is [b] modulo 32. *)
Definition shl (a b : Z) : Z := ToInt32 (Z.shiftl (ToInt32 a) (b mod 32)).

(** [a & b] *)
Definition band (a b : Z) : Z := Z.land (ToInt32 a) (ToInt32 b).

(** [array[i]], [undefined] outside of the array. *)
Definition element {A} (array : list A) (i : Z) : option A :=
  if i <? 0 then None else array !! Z.to_nat i.

(** What [_isDuringMotionActiveTime] reads of its [Date]. *)
Record date := mkDate {
  getDay : Z;      (* 0 for Sunday to 6 for Saturday *)
  getHours : Z;
  getMinutes : Z
}.

(** [_isDuringMotionActiveTime(date)], on [self._activeDays]. *)
Definition isDuringMotionActiveTime (activeDays : list Z) (d : date) : bool :=
  let day := Z.rem (7 + (getDay d - 1)) 7 in
  let active :=
    match element activeDays day with
    | Some a => if a =? 0 then 0 else a
    | None => 0
    end in
  let bit := getHours d * 2 + getMinutes d / 30 in
  negb (band active (shl 1 bit) =? 0).

(** The half hour of the day a time falls in, 0 to 47, and the day of the
    week counted from Monday. *)
Definition slot (d : date) : Z := getHours d * 2 + getMinutes d / 30.

Definition weekday (d : date) : Z := (getDay d + 6) mod 7.

(** A time of day as [Date] gives it. *)
Definition valid_date (d : date) : Prop :=
  0 <= getDay d <= 6 ∧ 0 <= getHours d <= 23 ∧ 0 <= getMinutes d <= 59.

(** ** [RTSPClient.getSDP]: the media of the description

    What [SDPTransform.parse] makes of the body is taken as given: a list
    of media, each with its type, its payloads as [toString()] gives them,
    the entries of its [a=rtpmap] lines and its control attribute, if
    any. *)
Record rtpmap := mkRtpmap {
  rtp_payload : Z;
  rtp_codec : string
}.

Record medium := mkMedium {
  m_type : string;
  m_payloads : string;
  m_rtp : list rtpmap;
  m_control : option string
}.

(** [{payload, codec, uri}]; a codec that was not found is [undefined]. *)
Record descriptor := mkDescriptor {
  d_payload : number;
  d_codec : option string;
  d_uri : string
}.

(** [codecForPayload(payload)] *)
Definition codecForPayload (payload : number) : string :=
  match payload with
  | Num 0 => "PCMU"
  | Num 8 => "PCMA"
  | _ => "UNKNOWN"
  end.

(** [for(let rtp of medium.rtp) if(rtp.payload == payload && rtp.codec)
    { codec = rtp.codec; break; }] *)
Fixpoint rtp_codec_for (payload : Z) (rtp : list rtpmap) : option string :=
  match rtp with
  | [] => None
  | r :: rest =>
      if (rtp_payload r =? payload) && truthy_string (rtp_codec r)
      then Some (rtp_codec r)
      else rtp_codec_for payload rest
  end.

Section Describe.

(** [url.resolve] of the [url] package. *)
Variable url_resolve : string -> string -> string.

(** The descriptor the loop of [getSDP] builds for a medium. *)
Definition describe (sanitizedURI : string) (m : medium) : descriptor :=
  let payloads := split " " (m_payloads m) in
  let payload := parseInt_opt (payloads !! 0%nat) in
  let codec :=
    match payload with
    | Num p =>
        if 96 <=? p then rtp_codec_for p (m_rtp m)
        else Some (codecForPayload payload)
    | NaN => Some (codecForPayload payload)
    end in
  let uri :=
    if truthy truthy_string (m_control m)
    then url_resolve (sanitizedURI +:+ "/") (default "" (m_control m))
    else sanitizedURI in
  mkDescriptor payload codec uri.

(** The body of the loop, on [self.video] and [self.audio]. *)
Definition record_medium (sanitizedURI : string)
    (self : option descriptor * option descriptor) (m : medium)
  : option descriptor * option descriptor :=
  let descriptor := describe sanitizedURI m in
  let video :=
    if String.eqb (m_type m) "video" && negb (bool_decide (is_Some self.1))
    then Some descriptor else self.1 in
  let audio :=
    if String.eqb (m_type m) "audio" && negb (bool_decide (is_Some self.2))
    then Some descriptor else self.2 in
  (video, audio).

Definition record_media (sanitizedURI : string)
    (self : option descriptor * option descriptor) (media : list medium)
  : option descriptor * option descriptor :=
  foldl (record_medium sanitizedURI) self media.

End Describe.

(** The first medium of a type. *)
Definition first_of_type (type : string) (media : list medium) : option medium :=
  head (filter (λ m, m_type m = type) media).

(** No entry of [rtp] gives a codec for [payload]. *)
Definition no_codec_for (payload : Z) (rtp : list rtpmap) : Prop :=
  Forall (λ r, rtp_payload r <> payload ∨ rtp_codec r = "") rtp.

(** ** [RTSPClient]: the credentials the constructor takes from the URL

    [auth] is [parsed.auth], [null] for a URL without user information:
    [let authParts = auth.split(':', 2)], then [authParts[0]] and
    [authParts[1]]. *)
Definition credentials (auth : option string)
  : outcome (string * option string) :=
  match auth with
  | None => Throw TypeError
  | Some auth =>
      let authParts := split_limit ":" 2 auth in
      Value (default "" (authParts !! 0%nat), authParts !! 1%nat)
  end.

(** ** [FoscamAccessory]: the areas of the motion detector *)

(** [x >>> 0] *)
Definition ToUint32 (x : Z) : Z := x mod 2 ^ 32.

(** [a | b] *)
Definition bor (a b : Z) : Z := Z.lor (ToInt32 a) (ToInt32 b).

(** What [_configureMotionDetector] throws. *)
Inductive motion_error :=
| BadIntervalSpecifier (specifier : list string)
| TimeOutOfRange (specifier : list string)
| IntervalTooSmall (interval : string * string)
| CoordinatesOutOfBounds (coordinates : Z * Z)
| TriggerIntervalOutOfRange (triggerInterval : Z).

(** An area of the configuration, [[[x0, y0], [x1, y1]]]: its top left and
    its bottom right cell, whole numbers. *)
Definition area : Type := (Z * Z) * (Z * Z).

(** [activeAreas[y] = (activeAreas[y] | (1 << x)) >>> 0]; [y] is an index
    of the array wherever the loops get to, the bounds having been
    checked. *)
Definition mark (activeAreas : list Z) (y x : Z) : list Z :=
  <[Z.to_nat y := ToUint32 (bor (default 0 (element activeAreas y)) (shl 1 x))]>
    activeAreas.

(** The body of [for(let area of config['areas'])]: the two checks, then
    the loops over [y] and [x]. *)
Definition mark_area (activeAreas : list Z) (a : area) : motion_error + list Z :=
  let '(topLeft, bottomRight) := a in
  if (topLeft.1 <? 0) || (topLeft.1 >? 9) || (topLeft.2 <? 0) || (topLeft.2 >? 9)
  then inl (CoordinatesOutOfBounds topLeft)
  else if (topLeft.1 >? bottomRight.1) || (bottomRight.1 >? 9)
          || (topLeft.2 >? bottomRight.2) || (bottomRight.2 >? 9)
  then inl (CoordinatesOutOfBounds topLeft)
  else
    inr (foldl
           (λ rows y,
              foldl (λ rows x, mark rows y x) rows
                (seqZ topLeft.1 (bottomRight.1 - topLeft.1 + 1)))
           activeAreas
           (seqZ topLeft.2 (bottomRight.2 - topLeft.2 + 1))).

(** [activeAreas] once [config['areas']] is gone through, or what was
    thrown on the way. *)
Definition mark_areas (areas : list area) : motion_error + list Z :=
  foldl
    (λ acc a,
       match acc with
       | inr rows => mark_area rows a
       | inl e => inl e
       end)
    (inr (replicate 10 0)) areas.

(** [activeAreas] with and without [config['areas']]. *)
Definition activeAreas_of (areas : option (list area)) : motion_error + list Z :=
  match areas with
  | Some areas => mark_areas areas
  | None => inr (replicate 10 (ToUint32 (shl 1 10 - 1)))
  end.

(** An area lies in the grid of ten by ten cells, top left before bottom
    right; an area covers a cell. *)
Definition in_bounds (a : area) : Prop :=
  0 <= a.1.1 ∧ a.1.1 <= a.2.1 ∧ a.2.1 <= 9
  ∧ 0 <= a.1.2 ∧ a.1.2 <= a.2.2 ∧ a.2.2 <= 9.

Definition covers (a : area) (x y : Z) : Prop :=
  a.1.1 <= x ∧ x <= a.2.1 ∧ a.1.2 <= y ∧ y <= a.2.2.

(** Bit [x] of row [y] is set. *)
Definition marked (rows : list Z) (y : nat) (x : Z) : Prop :=
  ∃ row, rows !! y = Some row ∧ Z.testbit row x = true.

(** Ten rows of ten bits. *)
Definition ten_by_ten (rows : list Z) : Prop :=
  length rows = 10%nat ∧ Forall (λ row, 0 <= row < 2 ^ 10) rows.

(** ** [FoscamAccessory]: the days of the motion detector

    [parseInt(a) * 2 + parseInt(b) / 30] is a whole number of thirtieths,
    or NaN; it is kept as that whole number, so that nothing is rounded.
    A double holds it as exactly on the whole and half hours the
    properties below are about. *)
Inductive half_hours :=
| NotANumber
| Thirtieths (t : Z).

(** [parseInt(specifier[0]) * 2 + (parseInt(specifier[1]) / 30)] *)
Definition time_bit (specifier : list string) : half_hours :=
  match parseInt_opt (specifier !! 0%nat), parseInt_opt (specifier !! 1%nat) with
  | Num h, Num m => Thirtieths (h * 2 * 30 + m)
  | _, _ => NotANumber
  end.

(** [bit < 0 || bit > 48] *)
Definition out_of_range (bit : half_hours) : bool :=
  match bit with
  | Thirtieths t => (t <? 0 * 30) || (t >? 48 * 30)
  | NotANumber => false
  end.

(** [startBit == stopBit] *)
Definition same_bit (startBit stopBit : half_hours) : bool :=
  match startBit, stopBit with
  | Thirtieths s, Thirtieths t => s =? t
  | _, _ => false
  end.

(** The values [i] takes in [for(let i = startBit; i < stopBit; ++i)], in
    thirtieths. *)
Definition loop_values (startBit stopBit : half_hours) : list Z :=
  match startBit, stopBit with
  | Thirtieths s, Thirtieths t =>
      (λ k, s + k * 30) <$> seqZ 0 ((t - s + 29) / 30)
  | _, _ => []
  end.

(** The body of that loop, for [i] in thirtieths; a shift takes the whole
    part of its count:
    [if(i >= 32) bits += ((1 << (i - 32)) >>> 0) * 0x100000000;
     else bits += (1 << i) >>> 0;] *)
Definition add_bit (bits i : Z) : Z :=
  if i >=? 32 * 30
  then bits + ToUint32 (shl 1 (Z.quot (i - 32 * 30) 30)) * 2 ^ 32
  else bits + ToUint32 (shl 1 (Z.quot i 30)).

(** An interval of the configuration, [[start, stop]]. *)
Definition interval : Type := string * string.

(** The body of [for(let interval of config[day])]. *)
Definition add_interval (bits : Z) (iv : interval) : motion_error + Z :=
  let start := split ":" iv.1 in
  let stop := split ":" iv.2 in
  if negb (length start =? 2)%nat then inl (BadIntervalSpecifier start)
  else if negb (length stop =? 2)%nat then inl (BadIntervalSpecifier stop)
  else
    let startBit := time_bit start in
    if out_of_range startBit then inl (TimeOutOfRange start)
    else
      let stopBit := time_bit stop in
      if out_of_range stopBit then inl (TimeOutOfRange stop)
      else if same_bit startBit stopBit then inl (IntervalTooSmall iv)
      else inr (foldl add_bit bits (loop_values startBit stopBit)).

(** [generateBitMapForDay]: what [activeDays[idx]] is afterwards, 0 as
    before when the schedule has nothing for the day, or what was
    thrown. *)
Definition generateBitMapForDay (config_day : option (list interval))
  : motion_error + Z :=
  match config_day with
  | None => inr 0
  | Some intervals =>
      foldl
        (λ acc iv,
           match acc with
           | inr bits => add_interval bits iv
           | inl e => inl e
           end)
        (inr 0) intervals
  end.

(** [specifier] is a whole or a half hour, "H:00" or "H:30", the half hour
    [slot] of the day. *)
Definition reads (specifier : string) (slot : Z) : Prop :=
  ∃ hours minutes h m,
    split ":" specifier = [hours; minutes]
    ∧ parseInt hours = Num h ∧ parseInt minutes = Num m
    ∧ (m = 0 ∨ m = 30) ∧ slot = h * 2 + m / 30.

(** The intervals read as the given spans of half hours, first slot and
    slot after the last, within the day. *)
Definition read_as (intervals : list interval) (spans : list (Z * Z)) : Prop :=
  Forall2
    (λ (iv : interval) (span : Z * Z),
       reads iv.1 span.1 ∧ reads iv.2 span.2
       ∧ 0 <= span.1 ∧ span.1 < span.2 ∧ span.2 <= 48)
    intervals spans.

(** No two of the spans share a half hour. *)
Definition apart (spans : list (Z * Z)) : Prop :=
  ∀ l1 a l2 b l3, spans = l1 ++ a :: l2 ++ b :: l3 -> a.2 <= b.1 ∨ b.2 <= a.1.

(** The half hour [k] lies in one of the spans. *)
Definition scheduled (spans : list (Z * Z)) (k : Z) : Prop :=
  ∃ span, span ∈ spans ∧ span.1 <= k ∧ k < span.2.

(** [config['schedule']]: for each day its intervals, if it has any. *)
Record schedule := mkSchedule {
  monday : option (list interval);
  tuesday : option (list interval);
  wednesday : option (list interval);
  thursday : option (list interval);
  friday : option (list interval);
  saturday : option (list interval);
  sunday : option (list interval)
}.

(** The calls of [generateBitMapForDay], with the index each is for. *)
Definition days_of (s : schedule) : list (nat * option (list interval)) :=
  [ (0, monday s); (1, tuesday s); (2, wednesday s); (3, thursday s);
    (4, friday s); (5, saturday s); (6, sunday s) ]%nat.

(** [activeDays] as [_configureMotionDetector] leaves it in
    [self._activeDays], with and without [config['schedule']]. *)
Definition activeDays_of (config_schedule : option schedule)
  : motion_error + list Z :=
  match config_schedule with
  | Some s =>
      foldl
        (λ acc day,
           match acc with
           | inr activeDays =>
               match generateBitMapForDay day.2 with
               | inr bits => inr (<[day.1 := bits]> activeDays)
               | inl e => inl e
               end
           | inl e => inl e
           end)
        (inr (replicate 7 0)) (days_of s)
  | None =>
      let allDay := ToUint32 (shl 1 (48 - 32)) * 2 ^ 32 - 1 in
      inr (replicate 7 allDay)
  end.

(** The days of the schedule read as the given spans of half hours, no
    two spans of a day sharing a half hour; a day without intervals has no
    span. *)
Definition day_read_as (day : option (list interval)) (spans : list (Z * Z)) : Prop :=
  match day with
  | Some intervals => read_as intervals spans ∧ apart spans
  | None => spans = []
  end.

Definition week_read_as (s : schedule) (week : list (list (Z * Z))) : Prop :=
  Forall2 day_read_as (days_of s).*2 week.

(** The half hour the check looks at: the one sixteen hours earlier, from
    16:00 on. *)
Definition looked_at (d : date) : Z :=
  if getHours d <? 16 then slot d else slot d - 32.

(** Reads a time written out, as "08:30". *)
Ltac read_time :=
  eexists _, _, _, _;
  split; [vm_compute; reflexivity|];
  split; [vm_compute; reflexivity|];
  split; [vm_compute; reflexivity|];
  split; [first [by left|by right]|vm_compute; reflexivity].

(** * Properties of the talkback pipeline *)

(** ** Sixteen-bit samples in a buffer *)

Lemma blength_app (a b : buffer) : blength (a ++ b) = blength a + blength b.
Proof. unfold blength. rewrite length_app. lia. Qed.

Lemma blength_nonneg (b : buffer) : 0 <= blength b.
Proof. unfold blength. lia. Qed.

Lemma blength_alloc n : 0 <= n -> blength (alloc n) = n.
Proof. intros Hn. unfold blength, alloc. rewrite length_replicate. lia. Qed.

Lemma length_enc16 l : length (enc16 l) = (2 * length l)%nat.
Proof. induction l as [|v l IH]; [done|]. unfold enc16 in *. cbn. rewrite IH. lia. Qed.

Lemma enc16_app l1 l2 : enc16 (l1 ++ l2) = enc16 l1 ++ enc16 l2.
Proof. unfold enc16. apply bind_app. Qed.

Lemma int16_of_bytes (v : Z) :
  - 2 ^ 15 <= v <= 2 ^ 15 - 1 ->
  let val := byte.unsigned (byte.of_Z v)
             + byte.unsigned (byte.of_Z (Z.shiftr v 8)) * 2 ^ 8 in
  (if Z.testbit val 15 then val - 2 ^ 16 else val) = v.
Proof.
  intros Hv. cbv zeta. rewrite !byte.unsigned_of_Z. unfold byte.wrap.
  rewrite Z.shiftr_div_pow2 by lia.
  assert (Hval : v mod 2 ^ 8 + (v / 2 ^ 8) mod 2 ^ 8 * 2 ^ 8 = v mod 2 ^ 16).
  { change (2 ^ 16) with (2 ^ 8 * 2 ^ 8). rewrite Z.rem_mul_r by lia. lia. }
  rewrite Hval.
  assert (Hm : v < 0 -> v mod 2 ^ 16 = v + 2 ^ 16).
  { intros Hneg. symmetry. apply Z.mod_unique with (-1); lia. }
  destruct (Z.testbit (v mod 2 ^ 16) 15) eqn:Hbit.
  - apply Z.testbit_true in Hbit; [|lia].
    assert (v < 0 \/ 0 <= v) as [Hneg|Hpos] by lia.
    + rewrite Hm by done. lia.
    + rewrite (Z.mod_small v) in Hbit by lia.
      rewrite (Z.div_small v) in Hbit by lia. discriminate.
  - assert (v < 0 \/ 0 <= v) as [Hneg|Hpos] by lia.
    + rewrite Hm in Hbit by done.
      assert (Z.testbit (v + 2 ^ 16) 15 = true); [|congruence].
      apply Z.testbit_true; [lia|].
      replace ((v + 2 ^ 16) / 2 ^ 15) with 1; [done|].
      apply Z.div_unique with (v + 2 ^ 15); lia.
    + apply Z.mod_small. lia.
Qed.

(** Reading is decided by the two bytes at the offset. *)
Lemma readInt16LE_app_l (a b : buffer) off :
  0 <= off -> off + 2 <= blength a ->
  readInt16LE (a ++ b) off = readInt16LE a off.
Proof.
  intros H0 H1. unfold readInt16LE. rewrite blength_app.
  pose proof (blength_nonneg b).
  replace (off <? 0) with false by lia.
  replace (blength a + blength b <? off + 2) with false by lia.
  replace (blength a <? off + 2) with false by lia. cbn [orb].
  unfold blength in *.
  rewrite !lookup_app_l by lia. done.
Qed.

Lemma readInt16LE_app_r (a b : buffer) off :
  0 <= off ->
  readInt16LE (a ++ b) (blength a + off) = readInt16LE b off.
Proof.
  intros H0. unfold readInt16LE. rewrite blength_app.
  pose proof (blength_nonneg a).
  replace (blength a + off <? 0) with false by lia.
  replace (off <? 0) with false by lia.
  replace (blength a + blength b <? blength a + off + 2)
    with (blength b <? off + 2) by lia.
  cbn [orb]. destruct (blength b <? off + 2); [done|].
  unfold blength in *.
  rewrite !lookup_app_r by lia.
  replace (Z.to_nat (Z.of_nat (length a) + off) - length a)%nat
    with (Z.to_nat off) by lia.
  replace (Z.to_nat (Z.of_nat (length a) + off + 1) - length a)%nat
    with (Z.to_nat (off + 1)) by lia.
  done.
Qed.

Lemma readInt16LE_in_range (b : buffer) off :
  0 <= off -> off + 2 <= blength b -> is_Some (readInt16LE b off).
Proof.
  intros H0 H1. unfold readInt16LE.
  replace (off <? 0) with false by lia.
  replace (blength b <? off + 2) with false by lia. cbn [orb].
  unfold blength in *.
  destruct (lookup_lt_is_Some_2 b (Z.to_nat off)) as [x ->]; [lia|].
  destruct (lookup_lt_is_Some_2 b (Z.to_nat (off + 1))) as [y ->]; [lia|].
  done.
Qed.

Lemma readInt16LE_outside (b : buffer) off :
  blength b < off + 2 -> readInt16LE b off = None.
Proof.
  intros H. unfold readInt16LE.
  rewrite (proj2 (Z.ltb_lt (blength b) (off + 2))) by done.
  by rewrite orb_true_r.
Qed.

Lemma s16_app_l (a b : buffer) off :
  0 <= off -> off + 2 <= blength a -> s16 (a ++ b) off = s16 a off.
Proof. intros. unfold s16. by rewrite readInt16LE_app_l. Qed.

Lemma s16_app_r (a b : buffer) off :
  0 <= off -> s16 (a ++ b) (blength a + off) = s16 b off.
Proof. intros. unfold s16. by rewrite readInt16LE_app_r. Qed.

(** Writing replaces the two bytes at the cursor. *)
Lemma writeInt16LE_at (pre post : buffer) (x y : byte) (v cursor : Z) :
  - 2 ^ 15 <= v <= 2 ^ 15 - 1 ->
  blength pre = cursor ->
  writeInt16LE (pre ++ x :: y :: post) v cursor = Some (pre ++ enc16 [v] ++ post).
Proof.
  intros Hv Hc. unfold writeInt16LE.
  replace (v <? - 2 ^ 15) with false by lia.
  replace (2 ^ 15 - 1 <? v) with false by lia. cbn [orb].
  rewrite blength_app. unfold blength in *. cbn [length].
  replace (cursor <? 0) with false by lia.
  rewrite (proj2 (Z.ltb_ge _ (cursor + 2))) by lia.
  cbn [orb]. f_equal.
  replace (Z.to_nat cursor) with (length pre + 0)%nat by lia.
  replace (Z.to_nat (cursor + 1)) with (length pre + 1)%nat by lia.
  rewrite !insert_app_r. done.
Qed.

(** Reading back what was written. *)
Lemma readInt16LE_enc16_one (x : Z) :
  - 2 ^ 15 <= x <= 2 ^ 15 - 1 -> readInt16LE (enc16 [x]) 0 = Some x.
Proof.
  intros Hx.
  change (readInt16LE (enc16 [x]) 0)
    with (Some (let val := byte.unsigned (byte.of_Z x)
                           + byte.unsigned (byte.of_Z (Z.shiftr x 8)) * 2 ^ 8 in
                if Z.testbit val 15 then val - 2 ^ 16 else val)).
  f_equal. by apply int16_of_bytes.
Qed.

Lemma readInt16LE_enc16 (l : list Z) (k : nat) (v : Z) :
  Forall (λ x, - 2 ^ 15 <= x <= 2 ^ 15 - 1) l ->
  readInt16LE (enc16 l) (2 * Z.of_nat k) = Some v -> l !! k = Some v.
Proof.
  intros Hl. revert k. induction Hl as [|x l Hx Hl IH]; intros k.
  - rewrite readInt16LE_outside; [done|]. unfold blength. cbn. lia.
  - destruct k as [|k].
    + change (enc16 (x :: l)) with (enc16 [x] ++ enc16 l).
      rewrite readInt16LE_app_l by (unfold blength; cbn; lia).
      change (2 * Z.of_nat 0) with 0.
      rewrite readInt16LE_enc16_one by done. done.
    + change (enc16 (x :: l)) with (enc16 [x] ++ enc16 l).
      replace (2 * Z.of_nat (S k)) with (blength (enc16 [x]) + 2 * Z.of_nat k)
        by (unfold blength; cbn; lia).
      rewrite readInt16LE_app_r by lia. cbn. apply IH.
Qed.

(** ** The loops of [resample] *)

Lemma clip_range (x : Z) : -32767 <= clip x <= 32767.
Proof.
  unfold clip. destruct (32767 <? x) eqn:E1; [lia|].
  destruct (x <? -32767) eqn:E2; lia.
Qed.

Lemma alloc_two_more (n : nat) :
  alloc (2 * Z.of_nat (S n)) = Byte.x00 :: Byte.x00 :: alloc (2 * Z.of_nat n).
Proof.
  unfold alloc. replace (Z.to_nat (2 * Z.of_nat (S n))) with (S (S (Z.to_nat (2 * Z.of_nat n)))) by lia.
  done.
Qed.

Lemma sum_window_spec (b : buffer) (i : Z) (todo : nat) (j sum : Z) :
  0 <= i -> 0 <= j -> i + (j + Z.of_nat todo) * 2 <= blength b ->
  sum_window b i todo j sum = Value (sum + wsum b i todo j).
Proof.
  revert j sum. induction todo as [|todo IH]; intros j sum Hi Hj Hlen.
  - cbn. f_equal. lia.
  - cbn [sum_window wsum].
    destruct (readInt16LE_in_range b (i + j * 2)) as [v Hv]; [lia..|].
    unfold s16. rewrite Hv. cbn.
    rewrite IH by lia. f_equal. lia.
Qed.

Lemma wsum_app_l (a b : buffer) (i : Z) (todo : nat) (j : Z) :
  0 <= i -> 0 <= j -> i + (j + Z.of_nat todo) * 2 <= blength a ->
  wsum (a ++ b) i todo j = wsum a i todo j.
Proof.
  revert j. induction todo as [|todo IH]; intros j Hi Hj Hlen; [done|].
  cbn [wsum]. rewrite s16_app_l by lia. rewrite IH by lia. done.
Qed.

Lemma wsum_app_r (a b : buffer) (i : Z) (todo : nat) (j : Z) :
  0 <= i -> 0 <= j ->
  wsum (a ++ b) (blength a + i) todo j = wsum b i todo j.
Proof.
  revert j. induction todo as [|todo IH]; intros j Hi Hj; [done|].
  cbn [wsum]. replace (blength a + i + j * 2) with (blength a + (i + j * 2)) by lia.
  rewrite s16_app_r by lia. rewrite IH by lia. done.
Qed.

Section DownLoop.

Variable scale : Z -> Z -> Z.
Variable samples : buffer.
Variables divider increment : Z.
Hypothesis divider_pos : 1 <= divider.
Hypothesis increment_def : increment = divider * 2.

(** From any loop state with [n] windows left, the loop fills the rest of
    the output with their values and stops behind the last window. *)
Lemma down_loop_spec (n fuel : nat) (i cursor : Z) (pre : buffer) :
  (n < fuel)%nat -> 0 <= i ->
  i + Z.of_nat n * increment <= blength samples ->
  blength samples < i + (Z.of_nat n + 1) * increment ->
  blength pre = cursor ->
  down_loop scale fuel samples divider increment i cursor
    (pre ++ alloc (2 * Z.of_nat n))
  = Value (pre ++ enc16 (down_values scale samples divider increment i n),
           i + Z.of_nat n * increment).
Proof.
  revert fuel i cursor pre.
  induction n as [|n IH]; intros fuel i cursor pre Hfuel Hi Hlo Hhi Hpre.
  - destruct fuel as [|fuel]; [lia|]. cbn [down_loop].
    rewrite (proj2 (Z.leb_gt _ _)) by lia.
    cbn. rewrite !app_nil_r. f_equal. f_equal. lia.
  - destruct fuel as [|fuel]; [lia|]. cbn [down_loop].
    rewrite (proj2 (Z.leb_le _ _)) by lia.
    rewrite sum_window_spec by lia. cbn [mbind outcome_bind obind].
    rewrite alloc_two_more.
    rewrite writeInt16LE_at by (pose proof (clip_range (scale (0 + wsum samples i (Z.to_nat divider) 0) divider)); lia || done).
    cbn [of_option].
    replace (pre ++ enc16 [clip (scale (0 + wsum samples i (Z.to_nat divider) 0) divider)]
               ++ alloc (2 * Z.of_nat n))
      with ((pre ++ enc16 [clip (scale (0 + wsum samples i (Z.to_nat divider) 0) divider)])
               ++ alloc (2 * Z.of_nat n)) by (by rewrite <- app_assoc).
    cbn [mbind outcome_bind obind].
    rewrite IH; [|lia|lia|lia|lia|].
    + cbn [down_values]. unfold window_value. rewrite Z.add_0_l.
      rewrite <- app_assoc. f_equal. f_equal. lia.
    + rewrite blength_app. unfold blength in *. cbn. lia.
Qed.

End DownLoop.

Lemma divider_pos (inputRate outputRate : positive) :
  Z.pos outputRate < Z.pos inputRate ->
  1 <= Z.pos inputRate / Z.pos outputRate.
Proof. intros H. apply Z.div_le_lower_bound; lia. Qed.

Lemma windows_bounds (len increment : Z) :
  0 <= len -> 0 < increment ->
  let n := Z.to_nat (len / increment) in
  Z.of_nat n * increment <= len < (Z.of_nat n + 1) * increment.
Proof.
  intros Hlen Hinc n.
  assert (0 <= len / increment) by (apply Z.div_pos; lia).
  replace (Z.of_nat n) with (len / increment) by (unfold n; lia).
  pose proof (Z.div_mod len increment ltac:(lia)).
  pose proof (Z.mod_pos_bound len increment ltac:(lia)).
  nia.
Qed.

(** The downsampling path returns the values of all full windows, and the
    bytes behind the last full window as carry. *)
Lemma resample_down (scale : Z -> Z -> Z) (samples : buffer)
    (inputRate outputRate : positive) :
  Z.pos outputRate < Z.pos inputRate ->
  Z.pos inputRate mod Z.pos outputRate = 0 ->
  let divider := Z.pos inputRate / Z.pos outputRate in
  let n := Z.to_nat (blength samples / (divider * 2)) in
  resample scale samples inputRate outputRate
  = Value (enc16 (down_values scale samples divider (divider * 2) 0 n),
           Some (drop (Z.to_nat (Z.of_nat n * (divider * 2))) samples)).
Proof.
  intros Hlt Hmod divider n.
  pose proof (divider_pos _ _ Hlt) as Hd. fold divider in Hd.
  pose proof (windows_bounds (blength samples) (divider * 2)
                (blength_nonneg _) ltac:(lia)) as Hn.
  cbv zeta in Hn. fold n in Hn.
  unfold resample.
  rewrite (proj2 (Z.ltb_lt _ _) Hlt). rewrite Hmod. cbn [Z.eqb negb].
  fold divider.
  replace (blength samples / (divider * 2)) with (Z.of_nat n).
  2:{ unfold n. rewrite Z2Nat.id; [done|]. apply Z.div_pos; [apply blength_nonneg|lia]. }
  change (alloc (2 * Z.of_nat n)) with ([] ++ alloc (2 * Z.of_nat n)).
  rewrite (down_loop_spec scale samples divider (divider * 2));
    [|done|done|unfold blength in *; nia|lia|lia|lia|done].
  cbn. unfold slice.
  rewrite (proj2 (Z.ltb_ge _ _)) by lia. done.
Qed.

(** ** Windows of a concatenation *)

Lemma down_values_app_l (scale : Z -> Z -> Z) (a b : buffer)
    (divider : Z) (i : Z) (n : nat) :
  1 <= divider -> 0 <= i ->
  i + Z.of_nat n * (divider * 2) <= blength a ->
  down_values scale (a ++ b) divider (divider * 2) i n
  = down_values scale a divider (divider * 2) i n.
Proof.
  intros Hd. revert i. induction n as [|n IH]; intros i Hi Hlen; [done|].
  cbn [down_values]. rewrite IH by lia. unfold window_value.
  rewrite wsum_app_l by lia. done.
Qed.

Lemma down_values_app_r (scale : Z -> Z -> Z) (a b : buffer)
    (divider : Z) (i : Z) (n : nat) :
  1 <= divider -> 0 <= i ->
  down_values scale (a ++ b) divider (divider * 2) (blength a + i) n
  = down_values scale b divider (divider * 2) i n.
Proof.
  intros Hd. revert i. induction n as [|n IH]; intros i Hi; [done|].
  cbn [down_values].
  replace (blength a + i + divider * 2) with (blength a + (i + divider * 2)) by lia.
  rewrite IH by lia. unfold window_value. rewrite wsum_app_r by lia. done.
Qed.

Lemma down_values_add (scale : Z -> Z -> Z) (b : buffer)
    (divider increment : Z) (i : Z) (n1 n2 : nat) :
  down_values scale b divider increment i (n1 + n2)
  = down_values scale b divider increment i n1
    ++ down_values scale b divider increment (i + Z.of_nat n1 * increment) n2.
Proof.
  revert i. induction n1 as [|n1 IH]; intros i.
  - cbn. f_equal. lia.
  - cbn [Nat.add down_values app]. rewrite IH. do 3 f_equal. lia.
Qed.

Lemma down_values_in_range (scale : Z -> Z -> Z) (b : buffer)
    (divider increment : Z) (i : Z) (n : nat) :
  Forall (λ v, -32767 <= v <= 32767) (down_values scale b divider increment i n).
Proof.
  revert i. induction n as [|n IH]; intros i; cbn [down_values]; constructor.
  - apply clip_range.
  - apply IH.
Qed.

(** Two chunks, the carry of the first one put in front of the second. *)
Lemma resample_chunks (scale : Z -> Z -> Z) (inputRate outputRate : positive)
    (chunk1 chunk2 : buffer) :
  Z.pos outputRate < Z.pos inputRate ->
  Z.pos inputRate mod Z.pos outputRate = 0 ->
  let increment := Z.pos inputRate / Z.pos outputRate * 2 in
  ∃ out1 carry out2 carry',
    resample scale chunk1 inputRate outputRate = Value (out1, Some carry)
    ∧ resample scale (concat carry chunk2) inputRate outputRate
      = Value (out2, Some carry')
    ∧ resample scale (concat chunk1 chunk2) inputRate outputRate
      = Value (concat out1 out2, Some carry')
    ∧ (∃ windows, chunk1 = windows ++ carry
                  ∧ blength windows mod increment = 0)
    ∧ blength carry < increment.
Proof.
  intros Hlt Hmod increment.
  pose proof (divider_pos _ _ Hlt) as Hd.
  set (divider := Z.pos inputRate / Z.pos outputRate) in *.
  assert (Hinc : 0 < divider * 2) by lia.
  set (n1 := Z.to_nat (blength chunk1 / (divider * 2))).
  set (carry := drop (Z.to_nat (Z.of_nat n1 * (divider * 2))) chunk1).
  set (windows := take (Z.to_nat (Z.of_nat n1 * (divider * 2))) chunk1).
  set (n2 := Z.to_nat (blength (carry ++ chunk2) / (divider * 2))).
  pose proof (windows_bounds (blength chunk1) (divider * 2)
                (blength_nonneg _) Hinc) as H1. cbv zeta in H1. fold n1 in H1.
  pose proof (windows_bounds (blength (carry ++ chunk2)) (divider * 2)
                (blength_nonneg _) Hinc) as H2. cbv zeta in H2. fold n2 in H2.
  assert (Hsplit : chunk1 = windows ++ carry)
    by (symmetry; apply take_drop).
  assert (Hw : blength windows = Z.of_nat n1 * (divider * 2)).
  { unfold windows, blength in *. rewrite length_take. lia. }
  assert (Hc : blength carry = blength chunk1 - Z.of_nat n1 * (divider * 2)).
  { unfold carry, blength in *. rewrite length_drop. lia. }
  assert (Hn : Z.to_nat (blength (chunk1 ++ chunk2) / (divider * 2)) = (n1 + n2)%nat).
  { rewrite !blength_app in *.
    replace (blength chunk1 + blength chunk2)
      with (Z.of_nat n1 * (divider * 2) + (blength carry + blength chunk2)) by lia.
    rewrite Z.div_add_l by lia.
    assert (0 <= (blength carry + blength chunk2) / (divider * 2))
      by (apply Z.div_pos; lia).
    unfold n2. rewrite blength_app. lia. }
  exists (enc16 (down_values scale chunk1 divider (divider * 2) 0 n1)), carry,
    (enc16 (down_values scale (carry ++ chunk2) divider (divider * 2) 0 n2)),
    (drop (Z.to_nat (Z.of_nat n2 * (divider * 2))) (carry ++ chunk2)).
  split; [apply (resample_down scale chunk1); done|].
  split; [apply (resample_down scale (carry ++ chunk2)); done|].
  split.
  - unfold concat. rewrite (resample_down scale (chunk1 ++ chunk2)) by done.
    fold divider. rewrite Hn. f_equal. f_equal.
    + rewrite down_values_add, enc16_app. f_equal.
      * f_equal. apply down_values_app_l; lia.
      * f_equal. rewrite Hsplit at 1. rewrite <- app_assoc.
        replace (0 + Z.of_nat n1 * (divider * 2)) with (blength windows + 0) by lia.
        apply down_values_app_r; lia.
    + f_equal. rewrite Hsplit at 1. rewrite <- app_assoc.
      replace (Z.to_nat (Z.of_nat (n1 + n2) * (divider * 2)))
        with (length windows + Z.to_nat (Z.of_nat n2 * (divider * 2)))%nat
        by (unfold blength in *; lia).
      apply drop_app_add.
  - split; [|unfold increment; lia].
    exists windows. split; [done|].
    rewrite Hw. unfold increment. apply Z.mod_mul. lia.
Qed.

(** ** One call of [audioDataInput] *)

Lemma audioDataInput_input (scale : Z -> Z -> Z) (st : stream) (samples : buffer) :
  match audioBuffer st with
  | Some carry => if 0 <? blength carry then concat carry samples else samples
  | None => samples
  end = resample_input st samples.
Proof.
  unfold resample_input, concat. destruct (audioBuffer st) as [carry|]; [|done].
  cbn. destruct (0 <? blength carry) eqn:E; [done|].
  apply Z.ltb_ge in E. destruct carry; [done|]. unfold blength in E. cbn in E. lia.
Qed.

(** A call on an active stream whose resampling returns. *)
Lemma audioDataInput_active (scale : Z -> Z -> Z) (st : stream)
    (samples output : buffer) (carry : option buffer) :
  talkStreamSetup st = true ->
  resample scale (resample_input st samples) (outgoingSampleRate st) 8000
  = Value (output, carry) ->
  let r := audioDataInput scale st samples in
  let all := buffered st ++ output in
  audioBuffer (after r) = carry
  ∧ speakerEnabled (after r) = speakerEnabled st
  ∧ speakerCompression (after r) = speakerCompression st
  ∧ talkStreamSetup (after r) = true
  ∧ foscamStream (after r) = foscamStream st
  ∧ outgoingSampleRate (after r) = outgoingSampleRate st
  ∧ (blength all < 960 ->
     sent r = [] ∧ how r = Returned ∧ audioOutputBuffer (after r) = Some all)
  ∧ (960 <= blength all ->
     buffered (after r) = drop 960 all
     ∧ (audioOutputBuffer (after r) = None <-> blength all = 960)
     ∧ (foscamStream st = true ->
        sent r = [mkTalk (take 960 all) (speakerCompression st)]
        ∧ how r = Returned)
     ∧ (foscamStream st = false -> sent r = [] ∧ how r = Raised TypeError)).
Proof.
  intros Hactive Hres r all. subst r. unfold audioDataInput.
  rewrite Hactive. cbn [negb].
  rewrite (audioDataInput_input scale), Hres. cbn [fst snd].
  assert (Hall : match audioOutputBuffer st with
                 | Some out => concat out output
                 | None => output
                 end = all).
  { unfold all, buffered, concat. by destruct (audioOutputBuffer st). }
  rewrite Hall.
  destruct (blength all <? 960) eqn:Hlen.
  - cbn. repeat split; try done; lia.
  - assert (Hdrop : buffered (set_buffers st carry
               (if 960 <? blength all then Some (slice all 960) else None))
             = drop 960 all).
    { unfold buffered. cbn. destruct (960 <? blength all) eqn:E; [done|].
      cbn. symmetry. apply drop_ge. unfold blength in *. lia. }
    destruct (foscamStream st) eqn:Hsink; cbn [after sent how].
    + repeat split; try done; try lia.
      * cbn. destruct (960 <? blength all) eqn:E; [done|lia].
      * cbn. intros ->. done.
    + repeat split; try done; try lia.
      * cbn. destruct (960 <? blength all) eqn:E; [done|lia].
      * cbn. intros ->. done.
Qed.

(** On an active stream with a sink, the frames sent and the bytes kept are
    the bytes that were waiting and the resampled bytes, in order. *)
Lemma audioDataInput_bytes (scale : Z -> Z -> Z) (st : stream)
    (samples output : buffer) (carry : option buffer) :
  talkStreamSetup st = true -> foscamStream st = true ->
  resample scale (resample_input st samples) (outgoingSampleRate st) 8000
  = Value (output, carry) ->
  let r := audioDataInput scale st samples in
  frames_bytes (sent r) ++ buffered (after r) = buffered st ++ output.
Proof.
  intros Hactive Hsink Hres r.
  destruct (audioDataInput_active scale st samples output carry Hactive Hres)
    as (_ & _ & _ & _ & _ & _ & Hshort & Hlong).
  fold r in Hshort, Hlong.
  destruct (Z_lt_ge_dec (blength (buffered st ++ output)) 960) as [H|H].
  - destruct (Hshort H) as (-> & _ & Hbuf). unfold buffered at 1. rewrite Hbuf. done.
  - destruct (Hlong ltac:(lia)) as (-> & _ & Hsent & _).
    destruct (Hsent Hsink) as (-> & _). cbn. rewrite app_nil_r. apply take_drop.
Qed.

(** Every frame a call sends has 960 bytes, and a call sends one at most. *)
Lemma audioDataInput_sent (scale : Z -> Z -> Z) (st : stream) (samples : buffer) :
  let r := audioDataInput scale st samples in
  (length (sent r) <= 1)%nat ∧ Forall (λ t, blength (frame t) = 960) (sent r).
Proof.
  cbv zeta. unfold audioDataInput.
  destruct (talkStreamSetup st); cbn [negb]; [|by split; [cbn; lia|constructor]].
  destruct (resample _ _ _ _) as [[output carry]| |];
    [|by split; [cbn; lia|constructor]..].
  cbn [fst snd].
  destruct (blength _ <? 960) eqn:Hlen; [by split; [cbn; lia|constructor]|].
  destruct (foscamStream st); [|by split; [cbn; lia|constructor]].
  split; [cbn; lia|]. repeat constructor. cbn. unfold slice_to, blength in *.
  rewrite length_take. lia.
Qed.

(** ** The stream over its lifetime *)

(** A stream without a speaker never becomes active and never buffers. *)
Lemma reachable_speaker_disabled (scale : Z -> Z -> Z) (st : stream)
    (frames : list talk_data) :
  reachable scale st frames ->
  speakerEnabled st = false ->
  talkStreamSetup st = false ∧ audioBuffer st = None ∧ audioOutputBuffer st = None.
Proof.
  induction 1 as [enabled compression rate|st frames ev Hreach IH Hpossible];
    [by cbn|].
  destruct ev as [rate|ok|request|samples]; cbn.
  - unfold prepareStream. destruct (speakerEnabled st) eqn:E; cbn; [done|].
    intros _. by apply IH.
  - cbn in Hpossible. congruence.
  - destruct request; cbn; try done.
    destruct (speakerEnabled st) eqn:E; cbn; [done|]. intros _. by apply IH.
  - unfold audioDataInput. destruct (talkStreamSetup st) eqn:Ht; cbn [negb];
      [|by cbn; intros Hoff; destruct (IH Hoff) as (? & ? & ?)].
    intros Hoff.
    assert (speakerEnabled st = false) as Hst.
    { revert Hoff. destruct (resample _ _ _ _) as [[output carry]| |]; cbn; try done.
      destruct (_ <? 960); cbn; [done|]. by destruct (foscamStream st). }
    destruct (IH Hst) as [? _]. congruence.
Qed.

(** Every frame a stream has sent has 960 bytes. *)
Lemma reachable_frames (scale : Z -> Z -> Z) (st : stream)
    (frames : list talk_data) :
  reachable scale st frames -> Forall (λ t, blength (frame t) = 960) frames.
Proof.
  induction 1 as [enabled compression rate|st frames ev Hreach IH Hpossible];
    [constructor|].
  apply Forall_app. split; [done|].
  destruct ev; cbn; try constructor.
  apply audioDataInput_sent.
Qed.

(** * The claims about the talkback pipeline *)

(** C6. Resampling from 16000 Hz to 8000 Hz with gain factor 1 the four
    input samples 100, 300, -100, 100 returns exactly the two output samples
    200 and 0, their pairwise averages, and an empty carry. *)
Theorem resample_16000_to_8000_pairwise_average :
  resample (scale_exact 1) (enc16 [100; 300; -100; 100]) 16000 8000
  = Value (enc16 [200; 0], Some [])
  ∧ readInt16LE (enc16 [200; 0]) 0 = Some 200
  ∧ readInt16LE (enc16 [200; 0]) 2 = Some 0
  ∧ blength (enc16 [200; 0]) = 4.
Proof. vm_compute. done. Qed.

(** C9. On the downsampling path the call returns, and every sample of the
    output lies between -32767 and 32767: a scaled average above 0x7fff is
    replaced by 0x7fff, one below -0x7fff by -0x7fff, so -32768 is never
    written. *)
Theorem downsampled_samples_saturate (scale : Z -> Z -> Z) (samples : buffer)
    (inputRate outputRate : positive) :
  Z.pos outputRate < Z.pos inputRate ->
  Z.pos inputRate mod Z.pos outputRate = 0 ->
  (∃ output carry,
     resample scale samples inputRate outputRate = Value (output, carry)
     ∧ ∀ k v, readInt16LE output (2 * k) = Some v -> -32767 <= v <= 32767)
  ∧ (∀ x, 32767 < x -> clip x = 32767)
  ∧ (∀ x, x < -32767 -> clip x = -32767)
  ∧ (∀ x, -32767 <= x <= 32767 -> clip x = x).
Proof.
  intros Hlt Hmod. split.
  - eexists _, _. split; [by apply resample_down|].
    intros k v Hread.
    assert (0 <= k) as Hk.
    { destruct (Z_lt_ge_dec k 0) as [Hneg|]; [|lia].
      unfold readInt16LE in Hread.
      rewrite (proj2 (Z.ltb_lt (2 * k) 0)) in Hread by lia. done. }
    replace k with (Z.of_nat (Z.to_nat k)) in Hread by lia.
    apply readInt16LE_enc16 in Hread.
    + eapply (Forall_lookup_1 _ _ _ _ (down_values_in_range _ _ _ _ _ _) Hread).
    + eapply Forall_impl; [apply down_values_in_range|]. cbn. lia.
  - unfold clip. repeat split; intros x Hx.
    + by rewrite (proj2 (Z.ltb_lt _ _)) by lia.
    + rewrite (proj2 (Z.ltb_ge _ _)) by lia. by rewrite (proj2 (Z.ltb_lt _ _)) by lia.
    + rewrite (proj2 (Z.ltb_ge _ _)) by lia. by rewrite (proj2 (Z.ltb_ge _ _)) by lia.
Qed.

Lemma downsampled_samples_saturate_witness :
  ∃ output carry,
    resample (scale_exact (-500)) (enc16 [100; 300; -100; 100]) 16000 8000
    = Value (output, carry)
    ∧ ∀ k v, readInt16LE output (2 * k) = Some v -> -32767 <= v <= 32767.
Proof.
  apply (downsampled_samples_saturate (scale_exact (-500))
           (enc16 [100; 300; -100; 100]) 16000 8000); reflexivity.
Defined.

(** C7. At a downsampling ratio, the first chunk leaves as carry the bytes
    behind its last full decimation window; resampling the carry put in
    front of the second chunk yields, after the output of the first chunk,
    exactly the output of resampling both chunks in one call, and the same
    carry.  In [audioDataInput], which puts the stored carry in front of
    each new chunk, two calls leave the same carry and the same sequence of
    frame and buffered bytes as one call with both chunks. *)
Theorem resample_chunking (scale : Z -> Z -> Z) (inputRate outputRate : positive)
    (chunk1 chunk2 : buffer) :
  Z.pos outputRate < Z.pos inputRate ->
  Z.pos inputRate mod Z.pos outputRate = 0 ->
  let increment := Z.pos inputRate / Z.pos outputRate * 2 in
  (∃ out1 carry out2 carry',
     resample scale chunk1 inputRate outputRate = Value (out1, Some carry)
     ∧ resample scale (concat carry chunk2) inputRate outputRate
       = Value (out2, Some carry')
     ∧ resample scale (concat chunk1 chunk2) inputRate outputRate
       = Value (concat out1 out2, Some carry')
     ∧ (∃ windows, chunk1 = windows ++ carry
                   ∧ blength windows mod increment = 0)
     ∧ blength carry < increment)
  ∧ (∀ st : stream,
       talkStreamSetup st = true -> foscamStream st = true ->
       outgoingSampleRate st = inputRate -> outputRate = 8000%positive ->
       let first := audioDataInput scale st chunk1 in
       let second := audioDataInput scale (after first) chunk2 in
       let both := audioDataInput scale st (concat chunk1 chunk2) in
       audioBuffer (after second) = audioBuffer (after both)
       ∧ frames_bytes (sent first ++ sent second) ++ buffered (after second)
         = frames_bytes (sent both) ++ buffered (after both)).
Proof.
  intros Hlt Hmod increment. split; [by apply resample_chunks|].
  intros st Hactive Hsink Hrate -> first second both.
  destruct (resample_chunks scale inputRate 8000
              (resample_input st chunk1) chunk2 Hlt Hmod)
    as (out1 & carry & out2 & carry' & H1 & H2 & H12 & _ & _).
  rewrite <- Hrate in H1, H2, H12.
  destruct (audioDataInput_active scale st chunk1 out1 (Some carry) Hactive H1)
    as (Hc1 & _ & _ & Ha1 & Hs1 & Hr1 & _).
  pose proof (audioDataInput_bytes scale st chunk1 out1 (Some carry)
                Hactive Hsink H1) as Hb1.
  fold first in Hc1, Ha1, Hs1, Hr1, Hb1.
  assert (H2' : resample scale (resample_input (after first) chunk2)
                  (outgoingSampleRate (after first)) 8000
                = Value (out2, Some carry')).
  { unfold resample_input. rewrite Hc1, Hr1. exact H2. }
  destruct (audioDataInput_active scale (after first) chunk2 out2 (Some carry')
              Ha1 H2') as (Hc2 & _).
  pose proof (audioDataInput_bytes scale (after first) chunk2 out2 (Some carry')
                Ha1 ltac:(congruence) H2') as Hb2.
  fold second in Hc2, Hb2.
  assert (H12' : resample scale (resample_input st (concat chunk1 chunk2))
                   (outgoingSampleRate st) 8000
                 = Value (concat out1 out2, Some carry')).
  { unfold resample_input, concat in *. rewrite app_assoc. exact H12. }
  destruct (audioDataInput_active scale st (concat chunk1 chunk2)
              (concat out1 out2) (Some carry') Hactive H12') as (Hc12 & _).
  pose proof (audioDataInput_bytes scale st (concat chunk1 chunk2)
                (concat out1 out2) (Some carry') Hactive Hsink H12') as Hb12.
  fold both in Hc12, Hb12.
  split; [congruence|].
  rewrite Hb12. unfold frames_bytes in *. rewrite bind_app, <- app_assoc.
  rewrite Hb2, app_assoc, Hb1. unfold concat. by rewrite app_assoc.
Qed.

Lemma resample_chunking_witness :
  ∃ out1 carry out2 carry',
    resample (scale_exact 1) (enc16 [100; 300; -100]) 16000 8000
    = Value (out1, Some carry)
    ∧ resample (scale_exact 1) (concat carry (enc16 [100; 7; 9])) 16000 8000
      = Value (out2, Some carry')
    ∧ resample (scale_exact 1)
        (concat (enc16 [100; 300; -100]) (enc16 [100; 7; 9])) 16000 8000
      = Value (concat out1 out2, Some carry')
    ∧ (∃ windows, enc16 [100; 300; -100] = windows ++ carry
                  ∧ blength windows mod (16000 / 8000 * 2) = 0)
    ∧ blength carry < 16000 / 8000 * 2.
Proof.
  apply (resample_chunking (scale_exact 1) 16000 8000
           (enc16 [100; 300; -100]) (enc16 [100; 7; 9])); reflexivity.
Defined.

(** C8. When neither rate is a multiple of the other, as with 11025 Hz in
    and 8000 Hz out, [resample] throws at once, whatever the samples, and
    the call of [audioDataInput] it was made from raises that error having
    sent nothing and with carry and output buffer as they were. *)
Theorem uneven_rates_throw (scale : Z -> Z -> Z) (inputRate outputRate : positive) :
  Z.pos inputRate mod Z.pos outputRate <> 0 ->
  Z.pos outputRate mod Z.pos inputRate <> 0 ->
  (∀ samples,
     resample scale samples inputRate outputRate = Throw CannotEvenlyResample)
  ∧ (∀ st samples,
       outgoingSampleRate st = inputRate -> outputRate = 8000%positive ->
       let r := audioDataInput scale st samples in
       after r = st ∧ sent r = []
       ∧ (talkStreamSetup st = true -> how r = Raised CannotEvenlyResample)).
Proof.
  intros Hin Hout.
  assert (Hthrow : ∀ samples,
    resample scale samples inputRate outputRate = Throw CannotEvenlyResample).
  { intros samples. unfold resample.
    destruct (Z.pos outputRate <? Z.pos inputRate) eqn:E1.
    - by rewrite (proj2 (Z.eqb_neq _ _) Hin).
    - destruct (Z.pos inputRate <? Z.pos outputRate) eqn:E2.
      + by rewrite (proj2 (Z.eqb_neq _ _) Hout).
      + exfalso. apply Hin.
        replace (Z.pos inputRate) with (Z.pos outputRate) by lia.
        apply Z.mod_same. lia. }
  split; [done|].
  intros st samples Hrate -> r. subst r. unfold audioDataInput.
  destruct (talkStreamSetup st); cbn [negb]; [|done].
  rewrite Hrate, Hthrow. done.
Qed.

Lemma uneven_rates_throw_witness :
  (∀ samples,
     resample (scale_exact 1) samples 11025 8000 = Throw CannotEvenlyResample)
  ∧ (∀ st samples,
       outgoingSampleRate st = 11025%positive -> 8000%positive = 8000%positive ->
       let r := audioDataInput (scale_exact 1) st samples in
       after r = st ∧ sent r = []
       ∧ (talkStreamSetup st = true -> how r = Raised CannotEvenlyResample)).
Proof.
  apply (uneven_rates_throw (scale_exact 1) 11025 8000); vm_compute; discriminate.
Defined.

(** C2, as the code has it.  A call on an active stream with a sink, once
    the resampled bytes are appended to the output buffer, sends one frame
    at most: nothing while fewer than 960 bytes are there, otherwise the
    first 960 bytes as one frame, everything behind them being kept, be it
    960 bytes or more.  No frame a stream ever sent has another length than
    960 bytes, and a stop request sends nothing and leaves no carry and no
    output buffer. *)
Theorem audioDataInput_emits_one_frame (scale : Z -> Z -> Z) (st : stream)
    (frames : list talk_data) :
  reachable scale st frames ->
  (∀ samples output carry,
     talkStreamSetup st = true -> foscamStream st = true ->
     resample scale (resample_input st samples) (outgoingSampleRate st) 8000
     = Value (output, carry) ->
     let r := audioDataInput scale st samples in
     let all := buffered st ++ output in
     how r = Returned
     ∧ (blength all < 960 -> sent r = [] ∧ buffered (after r) = all)
     ∧ (960 <= blength all ->
        sent r = [mkTalk (take 960 all) (speakerCompression st)]
        ∧ blength (take 960 all) = 960
        ∧ buffered (after r) = drop 960 all
        ∧ blength (buffered (after r)) = blength all - 960))
  ∧ Forall (λ t, blength (frame t) = 960) frames
  ∧ (∀ samples,
       Forall (λ t, blength (frame t) = 960) (sent (audioDataInput scale st samples)))
  ∧ (let stopped := step scale st (StreamRequest stop) in
     stopped.2 = [] ∧ audioBuffer stopped.1 = None
     ∧ audioOutputBuffer stopped.1 = None).
Proof.
  intros Hreach. split; [|split; [|split]].
  - intros samples output carry Hactive Hsink Hres r all.
    destruct (audioDataInput_active scale st samples output carry Hactive Hres)
      as (_ & _ & _ & _ & _ & _ & Hshort & Hlong).
    fold r all in Hshort, Hlong.
    destruct (Z_lt_ge_dec (blength all) 960) as [H|H].
    + destruct (Hshort H) as (Hs & Hh & Hb). split; [done|]. split; [|lia].
      intros _. split; [done|]. unfold buffered at 1. by rewrite Hb.
    + destruct (Hlong ltac:(lia)) as (Hb & _ & Hsent & _).
      destruct (Hsent Hsink) as (Hs & Hh). split; [done|]. split; [lia|].
      intros _. split; [done|]. split; [|split; [done|]].
      * unfold blength in *. rewrite length_take. lia.
      * rewrite Hb. unfold blength in *. rewrite length_drop. lia.
  - by apply (reachable_frames scale st).
  - intros samples. apply audioDataInput_sent.
  - cbn. split; [done|].
    destruct (speakerEnabled st) eqn:E; cbn; [done|].
    by destruct (reachable_speaker_disabled scale st frames Hreach E) as (_ & ? & ?).
Qed.

Lemma audioDataInput_emits_one_frame_witness :
  let st :=
    (step (scale_exact 1)
       (step (scale_exact 1) (new_stream true true 16000) (PrepareStream 16000)).1
       (TalkStreamStarted true)).1 in
  talkStreamSetup st = true ∧ foscamStream st = true
  ∧ Forall (λ t, blength (frame t) = 960)
      (sent (audioDataInput (scale_exact 1) st (alloc 3840))).
Proof.
  split; [reflexivity|]. split; [reflexivity|].
  refine (proj1 (proj2 (proj2
    (audioDataInput_emits_one_frame (scale_exact 1) _ (([] ++ []) ++ []) _))) _).
  apply (reach_step (scale_exact 1) _ _ (TalkStreamStarted true)).
  - apply (reach_step (scale_exact 1) _ _ (PrepareStream 16000)).
    + apply reach_new.
    + exact I.
  - reflexivity.
Defined.

(** C2 as stated fails: a call whose resampled bytes make two frames sends
    one of them, and a full frame of 960 bytes stays in the buffer. *)
Lemma audioDataInput_leaves_full_frame :
  let st := mkStream true true true true None None 16000 in
  let r := audioDataInput (scale_exact 1) st (alloc 3840) in
  how r = Returned ∧ length (sent r) = 1%nat
  ∧ ¬ blength (buffered (after r)) < 960.
Proof. vm_compute. repeat split; discriminate. Qed.

(** * Properties of the control channel *)

Section ClientFacts.

Context {Authenticator : Type}.
Variable authenticate : string -> option Authenticator.
Variable auth_err : Authenticator -> option string.
Variable authorize : Authenticator -> string -> string -> string.

(** ** Settling promises *)

Lemma settle_pending (heap : gmap nat pstate) (p : nat) (s : pstate) :
  heap !! p = Some Pending -> settle heap p s !! p = Some s.
Proof. intros H. unfold settle. rewrite H. apply lookup_insert_eq. Qed.

Lemma settle_settled (heap : gmap nat pstate) (p q : nat) (s t : pstate) :
  heap !! q = Some t -> t <> Pending -> settle heap p s !! q = Some t.
Proof.
  intros H Ht. unfold settle. destruct (heap !! p) as [[| | |]|] eqn:E; try done.
  rewrite lookup_insert_ne; [done|]. intros ->. congruence.
Qed.

Lemma settle_other (heap : gmap nat pstate) (p q : nat) (s : pstate) :
  p <> q -> settle heap p s !! q = heap !! q.
Proof.
  intros H. unfold settle. destruct (heap !! p) as [[| | |]|]; try done.
  by rewrite lookup_insert_ne.
Qed.

(** A promise resolved with another one shows what that one shows. *)
Lemma observe_following (heap : gmap nat pstate) (p q : nat) (fuel : nat) :
  heap !! p = Some (Following q) ->
  observe (S fuel) heap p = observe fuel heap q.
Proof. intros H. cbn. by rewrite H. Qed.

(** ** [onError] *)

Lemma reconnect_requests (st : client Authenticator) : requests (reconnect st) = requests st.
Proof. unfold reconnect. by destruct (pendingReconnect st). Qed.

Lemma reconnect_promises (st : client Authenticator) : promises (reconnect st) = promises st.
Proof. unfold reconnect. by destruct (pendingReconnect st). Qed.

Lemma reject_all_rejected (err : error) (l : list (Z * pending)) (st : client Authenticator)
    (p : nat) :
  promises st !! p = Some (Rejected err) ->
  promises (foldl (reject_entry err) st l) !! p = Some (Rejected err).
Proof.
  revert st. induction l as [|entry l IH]; intros st H; [done|].
  cbn [foldl]. apply IH. cbn. by apply settle_settled with (t := Rejected err).
Qed.

Lemma reject_all_pending (err : error) (l : list (Z * pending)) (st : client Authenticator)
    (k : Z) (request : pending) :
  (k, request) ∈ l ->
  promises st !! p_handle request = Some Pending ->
  promises (foldl (reject_entry err) st l) !! p_handle request
  = Some (Rejected err).
Proof.
  revert st. induction l as [|entry l IH]; intros st Hin Hp.
  - by apply elem_of_nil in Hin.
  - cbn [foldl]. apply elem_of_cons in Hin as [<-|Hin].
    + apply reject_all_rejected. cbn. by apply settle_pending.
    + destruct (decide (p_handle entry.2 = p_handle request)) as [Heq|Hne].
      * apply reject_all_rejected. cbn. rewrite Heq. by apply settle_pending.
      * apply IH; [done|]. cbn. by rewrite settle_other.
Qed.

Lemma reject_all_other (err : error) (l : list (Z * pending)) (st : client Authenticator)
    (p : nat) :
  Forall (λ entry, p_handle entry.2 <> p) l ->
  promises (foldl (reject_entry err) st l) !! p = promises st !! p.
Proof.
  revert st. induction l as [|entry l IH]; intros st Hl; [done|].
  apply Forall_cons in Hl as [Hentry Hl]. cbn [foldl].
  rewrite IH by done. cbn. by apply settle_other.
Qed.

Lemma reject_all_requests (err : error) (l : list (Z * pending)) (st : client Authenticator)
    (k : Z) :
  requests (foldl (reject_entry err) st l) !! k
  = if bool_decide (k ∈ l.*1) then None else requests st !! k.
Proof.
  revert st. induction l as [|entry l IH]; intros st; [done|].
  cbn [foldl]. rewrite IH. cbn [fmap list_fmap].
  destruct (decide (k = entry.1)) as [->|Hne].
  - rewrite (bool_decide_eq_true_2 (entry.1 ∈ entry.1 :: l.*1)) by set_solver.
    case_bool_decide; [done|]. cbn. apply lookup_delete_eq.
  - cbn. rewrite lookup_delete_ne by done.
    case_bool_decide as H1; case_bool_decide as H2; try done.
    + exfalso. apply H2. apply elem_of_cons. by right.
    + exfalso. apply H1. by apply elem_of_cons in H2 as [?|?].
Qed.

(** ** Settled promises stay as they are *)

Lemma later_refl (st : client Authenticator) : allocated st -> later st st.
Proof. intros H. by repeat split. Qed.

Lemma later_trans (st1 st2 st3 : client Authenticator) :
  later st1 st2 -> later st2 st3 -> later st1 st3.
Proof.
  intros (_ & Hn1 & H1) (Ha & Hn2 & H2). repeat split; [done|lia|].
  intros p t Hp Ht. apply H2; [|done]. by apply H1.
Qed.

Lemma later_settle (st : client Authenticator) (p : nat) (s : pstate) :
  allocated st -> later st (set_promises st (settle (promises st) p s)).
Proof.
  intros Ha. repeat split; cbn [promises set_promises next_promise]; [|lia|].
  - intros q [t Hq]. apply Ha. cbn [promises set_promises] in Hq.
    destruct (decide (p = q)) as [->|Hne].
    + destruct (promises st !! q) as [t'|] eqn:E; [by eexists|].
      unfold settle in Hq. rewrite E in Hq. cbn in Hq. congruence.
    + rewrite settle_other in Hq by done. by eexists.
  - intros q t Hq Ht. by apply settle_settled.
Qed.

Lemma later_same_promises (st st' : client Authenticator) :
  allocated st -> promises st' = promises st ->
  next_promise st' = next_promise st -> later st st'.
Proof.
  intros Ha Hp Hn. repeat split; [|lia|].
  - intros p. rewrite Hp, Hn. apply Ha.
  - intros p t. by rewrite Hp.
Qed.

Lemma later_makeRequest (st : client Authenticator) (opts : options) :
  allocated st -> later st (makeRequest authorize st opts).1.
Proof.
  intros Ha. unfold later, allocated in *. cbn. repeat split; [|lia|].
  - intros q [t Hq]. destruct (decide (next_promise st = q)) as [<-|Hne]; [lia|].
    rewrite lookup_insert_ne in Hq by done.
    assert (q < next_promise st)%nat by (apply Ha; by eexists). lia.
  - intros q t Hq Ht. rewrite lookup_insert_ne; [done|].
    intros <-. assert (next_promise st < next_promise st)%nat; [|lia].
    apply Ha. by eexists.
Qed.

Lemma later_done (st : client Authenticator) (n : Z) (request : pending) (resp : response)
    (data : buffer) :
  allocated st -> later st (done authenticate auth_err authorize st n request resp data).
Proof.
  intros Ha. unfold done.
  set (st1 := set_requests st (delete n (requests st))).
  assert (H1 : later st st1) by (by apply later_same_promises).
  repeat case_match.
  - eapply later_trans; [exact H1|].
    eapply later_trans; [apply later_same_promises with
      (st' := set_authenticator st1 (Some a)); [apply H1|done|done]|].
    unfold reject. apply later_settle. apply H1.
  - eapply later_trans; [exact H1|].
    set (st2 := set_authenticator st1 _).
    assert (Hst2 : later st1 st2) by (apply later_same_promises; [apply H1|done|done]).
    eapply later_trans; [exact Hst2|].
    eapply later_trans; [apply later_makeRequest; apply Hst2|].
    unfold resolve_with_promise. apply later_settle. apply later_makeRequest, Hst2.
  - exact H1.
  - eapply later_trans; [exact H1|]. unfold reject. apply later_settle. apply H1.
  - eapply later_trans; [exact H1|]. unfold resolve. apply later_settle. apply H1.
Qed.

Lemma later_newSession (st : client Authenticator) (s : string) :
  allocated st -> later st (newSession st s).
Proof. intros Ha. by apply later_same_promises. Qed.

Lemma later_onResponse (st : client Authenticator) (resp : response) :
  allocated st -> later st (onResponse authenticate auth_err authorize st resp).1.
Proof.
  intros Ha. unfold onResponse.
  destruct (parseInt_opt _) as [|n]; [by apply later_refl|].
  destruct (requests st !! n) as [request|]; [|by apply later_refl].
  set (st1 := update_session st resp).
  assert (H1 : later st st1).
  { unfold st1, update_session. repeat case_match; try by apply later_refl.
    by apply later_newSession. }
  case_match; cbn; [done|].
  eapply later_trans; [exact H1|]. apply later_done, H1.
Qed.

Lemma later_reject_all (err : error) (l : list (Z * pending)) (st : client Authenticator) :
  allocated st -> later st (foldl (reject_entry err) st l).
Proof.
  revert st. induction l as [|entry l IH]; intros st Ha; [by apply later_refl|].
  cbn [foldl].
  assert (H1 : later st (reject_entry err st entry)).
  { unfold reject_entry, reject.
    eapply later_trans; [by apply later_settle|].
    apply later_same_promises; [by apply later_settle|done|done]. }
  eapply later_trans; [exact H1|]. apply IH, H1.
Qed.

Lemma later_onError (st : client Authenticator) (err : error) :
  allocated st -> later st (onError st err).
Proof.
  intros Ha. unfold onError.
  eapply later_trans; [by apply later_reject_all|].
  apply later_same_promises.
  - by apply later_reject_all.
  - apply reconnect_promises.
  - unfold reconnect. by destruct (pendingReconnect _).
Qed.

Lemma later_step (st : client Authenticator) (ev : client_event) :
  allocated st -> later st (client_step authenticate auth_err authorize st ev).
Proof.
  intros Ha. destruct ev; cbn [client_step].
  - by apply later_makeRequest.
  - unfold teardown. cbn [fst].
    match goal with |- later _ (closeSession (makeRequest _ _ ?o).1) =>
      pose proof (later_makeRequest st o Ha) as H1 end.
    eapply later_trans; [exact H1|].
    apply later_same_promises; [apply H1|done|done].
  - by apply later_onResponse.
  - by apply later_done.
  - by apply later_onError.
  - assert (H1 : later st (set_pendingReconnect st false))
      by (by apply later_same_promises).
    eapply later_trans; [exact H1|]. apply later_onError, H1.
  - by apply later_same_promises.
Qed.

Lemma later_run (evs : list client_event) (st : client Authenticator) :
  allocated st -> later st (client_run authenticate auth_err authorize st evs).
Proof.
  revert st. induction evs as [|ev evs IH]; intros st Ha; [by apply later_refl|].
  cbn. eapply later_trans; [by apply later_step|].
  apply IH. by apply later_step.
Qed.

(** ** Requests, promises and waiting closures stay consistent *)

Lemma settle_is_Some (heap : gmap nat pstate) (p q : nat) (s : pstate) :
  is_Some (settle heap p s !! q) -> is_Some (heap !! q).
Proof.
  intros [t Hq]. destruct (decide (p = q)) as [->|Hne].
  - destruct (heap !! q) as [t'|] eqn:E; [by eexists|].
    unfold settle in Hq. rewrite E in Hq. cbn in Hq. congruence.
  - rewrite settle_other in Hq by done. by eexists.
Qed.

Lemma consistent_delete (reqs : gmap Z pending) (heap : gmap nat pstate)
    (next : nat) (waiting : list deferred) (n : Z) :
  consistent reqs heap next waiting ->
  consistent (delete n reqs) heap next waiting.
Proof.
  intros (Ha & Hp & Hi & Hw). repeat split.
  - done.
  - intros k r [_ Hk]%lookup_delete_Some. by eapply Hp.
  - intros k1 k2 r1 r2 [_ H1]%lookup_delete_Some [_ H2]%lookup_delete_Some.
    by eapply Hi.
  - by apply Hw.
  - intros k r [_ Hk]%lookup_delete_Some. by apply Hw.
Qed.

Lemma consistent_settle (reqs : gmap Z pending) (heap : gmap nat pstate)
    (next : nat) (waiting : list deferred) (p : nat) (s : pstate) :
  consistent reqs heap next waiting ->
  (∀ k r, reqs !! k = Some r -> p_handle r <> p) ->
  consistent reqs (settle heap p s) next waiting.
Proof.
  intros (Ha & Hp & Hi & Hw) Hfree. repeat split.
  - intros q Hq. by apply Ha, (settle_is_Some heap p q s).
  - intros k r Hk. rewrite settle_other; [by eapply Hp|].
    intros Heq. by eapply Hfree.
  - done.
  - by apply Hw.
  - by apply Hw.
Qed.

Lemma consistent_insert (reqs : gmap Z pending) (heap : gmap nat pstate)
    (next : nat) (waiting : list deferred) (n : Z) (opts : options) :
  consistent reqs heap next waiting ->
  consistent (<[n := mkPending opts next]> reqs) (<[next := Pending]> heap)
    (S next) waiting.
Proof.
  intros (Ha & Hp & Hi & Hw).
  assert (Hold : ∀ k r, reqs !! k = Some r -> (p_handle r < next)%nat).
  { intros k r Hk. apply Ha. rewrite (Hp _ _ Hk). by eexists. }
  repeat split.
  - intros q [t Hq]. destruct (decide (next = q)) as [<-|Hne]; [lia|].
    rewrite lookup_insert_ne in Hq by done.
    assert (q < next)%nat by (apply Ha; by eexists). lia.
  - intros k r [[<- <-]|[Hne Hk]]%lookup_insert_Some.
    + apply lookup_insert_eq.
    + rewrite lookup_insert_ne; [by eapply Hp|].
      pose proof (Hold _ _ Hk). lia.
  - intros k1 k2 r1 r2 [[<- <-]|[Hne1 H1]]%lookup_insert_Some
      [[<- <-]|[Hne2 H2]]%lookup_insert_Some Heq; try done.
    + cbn in Heq. pose proof (Hold _ _ H2). lia.
    + cbn in Heq. pose proof (Hold _ _ H1). lia.
    + by eapply Hi.
  - destruct (Hw d ltac:(done)) as [Hlt _]. lia.
  - intros k r [[<- <-]|[Hne Hk]]%lookup_insert_Some Heq.
    + cbn in Heq. destruct (Hw d ltac:(done)) as [Hlt _]. lia.
    + by eapply (Hw d).
Qed.

Lemma consistent_register (reqs : gmap Z pending) (heap : gmap nat pstate)
    (next : nat) (waiting : list deferred) (n : Z) (request : pending)
    (resp : response) :
  consistent reqs heap next waiting ->
  reqs !! n = Some request ->
  consistent reqs heap next (waiting ++ [mkDeferred n request resp]).
Proof.
  intros (Ha & Hp & Hi & Hw) Hn.
  split; [done|]. split; [done|]. split; [done|].
  intros d [Hd|Hd%list_elem_of_singleton]%elem_of_app; [by apply Hw|].
  subst d. cbn. split.
  - apply Ha. rewrite (Hp _ _ Hn). by eexists.
  - intros k r Hk Heq. by eapply Hi.
Qed.

Lemma consistent_done (st : client Authenticator) (waiting : list deferred)
    (n : Z) (request : pending) (resp : response) (data : buffer) :
  client_consistent st waiting ->
  (p_handle request < next_promise st)%nat ->
  (∀ k r, requests st !! k = Some r ->
          p_handle r = p_handle request -> k = n) ->
  client_consistent
    (done authenticate auth_err authorize st n request resp data) waiting.
Proof.
  intros Hc Hlt Hunique. unfold client_consistent in *.
  pose proof (consistent_delete _ _ _ _ n Hc) as H1.
  assert (Hfree : ∀ k r, delete n (requests st) !! k = Some r ->
                         p_handle r <> p_handle request).
  { intros k r [Hne Hk]%lookup_delete_Some Heq. apply Hne.
    symmetry. by eapply Hunique. }
  unfold done. repeat case_match; cbn.
  - by apply consistent_settle.
  - apply consistent_settle; [by apply consistent_insert|].
    intros k r [[<- <-]|[Hne Hk]]%lookup_insert_Some; [|by eapply Hfree].
    cbn. lia.
  - exact H1.
  - by apply consistent_settle.
  - by apply consistent_settle.
Qed.

Lemma consistent_onResponse (st : client Authenticator) (waiting : list deferred)
    (resp : response) :
  client_consistent st waiting ->
  client_consistent (onResponse authenticate auth_err authorize st resp).1
    (waiting ++ option_list (onResponse authenticate auth_err authorize st resp).2).
Proof.
  intros Hc. unfold onResponse.
  destruct (parseInt_opt _) as [|n]; [by rewrite app_nil_r|].
  destruct (requests st !! n) as [request|] eqn:Hn; [|by rewrite app_nil_r].
  set (st1 := update_session st resp).
  assert (H1 : client_consistent st1 waiting
               ∧ requests st1 = requests st
               ∧ next_promise st1 = next_promise st).
  { unfold st1, update_session. by repeat case_match. }
  destruct H1 as (H1 & Hreqs & Hnext).
  pose proof Hc as (Ha & Hp & Hi & _).
  case_match; cbn [fst snd option_list].
  - apply consistent_register; [done|]. by rewrite Hreqs.
  - rewrite app_nil_r. apply consistent_done; [done| |].
    + rewrite Hnext. apply Ha. rewrite (Hp _ _ Hn). by eexists.
    + rewrite Hreqs. intros k r Hk Heq. by eapply Hi.
Qed.

Lemma reject_all_next_promise (err : error) (l : list (Z * pending))
    (st : client Authenticator) :
  next_promise (foldl (reject_entry err) st l) = next_promise st.
Proof.
  revert st. induction l as [|entry l IH]; intros st; [done|].
  cbn [foldl]. by rewrite IH.
Qed.

Lemma onError_requests (st : client Authenticator) (err : error) :
  requests (onError st err) = ∅.
Proof.
  apply map_eq. intros k. rewrite lookup_empty.
  unfold onError. rewrite reconnect_requests, reject_all_requests.
  case_bool_decide as Hk; [done|].
  destruct (requests st !! k) as [request|] eqn:E; [|done].
  exfalso. apply Hk. apply list_elem_of_fmap. exists (k, request).
  split; [done|]. by apply elem_of_map_to_list.
Qed.

Lemma consistent_onError (st : client Authenticator) (waiting : list deferred)
    (err : error) :
  client_consistent st waiting -> client_consistent (onError st err) waiting.
Proof.
  intros (Ha & Hp & Hi & Hw). unfold client_consistent.
  rewrite onError_requests.
  assert (Hnext : next_promise (onError st err) = next_promise st).
  { unfold onError, reconnect. destruct (pendingReconnect _); cbn;
      apply reject_all_next_promise. }
  split; [apply (later_onError st err Ha)|].
  split; [intros k r; by rewrite lookup_empty|].
  split; [intros k1 k2 r1 r2; by rewrite lookup_empty|].
  intros d Hd. rewrite Hnext. split; [by apply Hw|].
  intros k r. by rewrite lookup_empty.
Qed.

Lemma consistent_step (st : client Authenticator) (waiting : list deferred)
    (ev : client_event) :
  client_consistent st waiting -> event_possible waiting ev ->
  client_consistent (client_step authenticate auth_err authorize st ev)
    (waiting ++ registered authenticate auth_err authorize st ev).
Proof.
  intros Hc Hev. destruct ev; cbn [client_step registered];
    try rewrite app_nil_r.
  - unfold client_consistent. cbn. by apply consistent_insert.
  - unfold client_consistent. cbn. by apply consistent_insert.
  - by apply consistent_onResponse.
  - destruct Hc as (Ha & Hp & Hi & Hw). destruct (Hw d Hev) as [Hlt Hunique].
    by apply consistent_done.
  - by apply consistent_onError.
  - by apply consistent_onError.
  - done.
Qed.

(** In every state a client can be in, each entry of [self.requests] is a
    pending request, and every promise was created by the client. *)
Lemma reachable_consistent (st : client Authenticator) (waiting : list deferred) :
  client_reachable authenticate auth_err authorize st waiting ->
  client_consistent st waiting.
Proof.
  induction 1 as [|st waiting ev Hreach IH Hev].
  - repeat split; cbn; intros;
      try (match goal with H : is_Some _ |- _ => destruct H as [? H] end);
      try by (rewrite lookup_empty in *).
    by apply elem_of_nil in H.
  - by apply consistent_step.
Qed.

Lemma reachable_pending (st : client Authenticator) (waiting : list deferred)
    (n : Z) (request : pending) :
  client_reachable authenticate auth_err authorize st waiting ->
  requests st !! n = Some request ->
  allocated st ∧ is_pending st n request.
Proof.
  intros Hreach Hn. destruct (reachable_consistent st waiting Hreach)
    as (Ha & Hp & _).
  split; [done|]. split; [done|]. by eapply Hp.
Qed.

End ClientFacts.

(** * The claims about the control channel *)

Section ClientClaims.

Context {Authenticator : Type}.
Variable authenticate : string -> option Authenticator.
Variable auth_err : Authenticator -> option string.
Variable authorize : Authenticator -> string -> string -> string.

(** C5. A transport failure rejects every pending request with the error
    it came with, and leaves [self.requests] empty; this holds for an
    error of the decoder and for one of the socket alike.  In every state
    the client can be in, all the entries of [self.requests] are pending
    requests, so all of them are rejected. *)
Theorem onError_rejects_all_pending (st : client Authenticator) (err : error) :
  (∀ n request,
     is_pending st n request ->
     promises (onError st err) !! p_handle request = Some (Rejected err)
     ∧ ∀ fuel, observe fuel (promises (onError st err)) (p_handle request)
               = Rejected err)
  ∧ requests (onError st err) = ∅
  ∧ (∀ waiting n request,
       client_reachable authenticate auth_err authorize st waiting ->
       requests st !! n = Some request ->
       promises (onError st err) !! p_handle request = Some (Rejected err))
  ∧ client_step authenticate auth_err authorize st (On_decoder_error err)
    = onError st err
  ∧ client_step authenticate auth_err authorize st (On_socket_error err)
    = onError (set_pendingReconnect st false) err.
Proof.
  assert (Hrejected : ∀ n request,
    is_pending st n request ->
    promises (onError st err) !! p_handle request = Some (Rejected err)).
  { intros n request [Hreq Hp]. unfold onError. rewrite reconnect_promises.
    apply reject_all_pending with (k := n); [|done].
    by apply elem_of_map_to_list. }
  split; [|split; [|split; [|done]]].
  - intros n request Hpending. pose proof (Hrejected _ _ Hpending) as H.
    split; [done|]. intros fuel. destruct fuel; cbn; by rewrite H.
  - apply onError_requests.
  - intros waiting n request Hreach Hn. apply (Hrejected n).
    by eapply reachable_pending.
Qed.

(** What [onResponse] does with the response to a request under [n]: the
    session is updated, then [done] runs at once, or waits for the end of
    the body and runs then. *)
Lemma onResponse_runs_done (st : client Authenticator) (resp : response)
    (n : Z) (request : pending) :
  parseInt_opt (rheaders resp !! "cseq") = Num n ->
  requests st !! n = Some request ->
  let st1 := update_session st resp in
  (onResponse authenticate auth_err authorize st resp
   = (done authenticate auth_err authorize st1 n request resp [], None)
   ∨ onResponse authenticate auth_err authorize st resp
     = (st1, Some (mkDeferred n request resp)))
  ∧ (∀ st2 data,
       onEnd authenticate auth_err authorize st2 (mkDeferred n request resp) data
       = done authenticate auth_err authorize st2 n request resp data)
  ∧ requests st1 = requests st ∧ promises st1 = promises st
  ∧ next_promise st1 = next_promise st ∧ written st1 = written st.
Proof.
  intros Hcseq Hreq st1. split; [|split; [done|]].
  - unfold onResponse. rewrite Hcseq, Hreq. fold st1.
    case_match; [by right|by left].
  - unfold st1, update_session. by repeat case_match.
Qed.

(** C3, what the code does.  A request answered 401 that carried no
    Authorization header, the response bringing a challenge, as [done]
    finds it, at once or at the end of the body: when the challenge yields
    an authenticator, the same method and URI are written once more, now
    with the Authorization header the authenticator computes, and the
    caller's promise is locked to the promise of that retry, so that
    whatever happens later the caller observes what the retry comes to; a
    401 or 403 answer to the retry rejects it and writes nothing.  When
    the authenticator the challenge yields has an error, the caller's
    promise is rejected with an authentication error and nothing is
    written.  When [self.authenticate] throws on the challenge, nothing is
    written and nothing is rejected: the entry is gone, the authenticator
    is as it was and the caller's promise is left pending, where no later
    failure of the connection finds it either. *)
Theorem unauthorized_retried_once (st : client Authenticator) (n : Z) (request : pending)
    (resp : response) (data : buffer) (challenge : string) :
  allocated st ->
  is_pending st n request ->
  statusCode resp = 401 ->
  truthy truthy_hval
    (default ∅ (headers (p_options request)) !! "Authorization") = false ->
  rheaders resp !! "www-authenticate" = Some challenge ->
  truthy_string challenge = true ->
  let original := p_options request in
  let p := p_handle request in
  let q := next_promise st in
  let st' := done authenticate auth_err authorize st n request resp data in
  (∀ a, authenticate challenge = Some a ->
   truthy truthy_string (auth_err a) = false ->
   ∃ retry,
     written st' = written st ++ [retry]
     ∧ method retry = method original ∧ uri retry = uri original
     ∧ default ∅ (headers retry) !! "Authorization"
       = Some (HStr (authorize a (method original) (uri original)))
     ∧ default ∅ (headers retry) !! "CSeq" = Some (HNum (cseq st))
     ∧ (∀ key, key ∉ ["CSeq"; "Authorization"; "Session"] ->
               default ∅ (headers retry) !! key
               = default ∅ (headers original) !! key)
     ∧ requests st'
       = <[cseq st := mkPending retry q]> (delete n (requests st))
     ∧ is_pending st' (cseq st) (mkPending retry q)
     ∧ promises st' !! p = Some (Following q)
     ∧ (∀ evs fuel,
          let st'' := client_run authenticate auth_err authorize st' evs in
          observe (S fuel) (promises st'') p = observe fuel (promises st'') q)
     ∧ (∀ resp' data',
          statusCode resp' = 401 ∨ statusCode resp' = 403 ->
          truthy_string (authorize a (method original) (uri original)) = true ->
          let st2 := done authenticate auth_err authorize st' (cseq st)
                       (mkPending retry q) resp' data' in
          written st2 = written st'
          ∧ promises st2 !! q
            = Some (Rejected (AuthenticationError "Authentication failed."))))
  ∧ (∀ a, authenticate challenge = Some a ->
     truthy truthy_string (auth_err a) = true ->
     written st' = written st
     ∧ requests st' = delete n (requests st)
     ∧ promises st' !! p
       = Some (Rejected (AuthenticationError (default "" (auth_err a))))
     ∧ ∀ evs fuel,
         observe fuel
           (promises (client_run authenticate auth_err authorize st' evs)) p
         = Rejected (AuthenticationError (default "" (auth_err a))))
  ∧ (authenticate challenge = None ->
     written st' = written st
     ∧ requests st' = delete n (requests st)
     ∧ authenticator st' = authenticator st
     ∧ promises st' = promises st
     ∧ promises st' !! p = Some Pending
     ∧ (∀ fuel, observe fuel (promises st') p = Pending)
     ∧ ∀ waiting err,
         client_consistent st waiting ->
         promises (onError st' err) !! p = Some Pending).
Proof.
  intros Halloc [Hreq Hpending] Hstatus Hplain Hchallenge Htruthy
    original p q st'.
  assert (Hpq : p <> q).
  { assert (p < q)%nat; [|lia]. apply Halloc. by eexists. }
  assert (Hlater : later st st') by apply later_done, Halloc.
  assert (Hdone : ∀ a, authenticate challenge = Some a -> st' =
    let st1 := set_authenticator (set_requests st (delete n (requests st)))
                 (Some a) in
    if truthy truthy_string (auth_err a) then
      reject st1 p (AuthenticationError (default "" (auth_err a)))
    else
      resolve_with_promise (makeRequest authorize st1 original).1 p
        (makeRequest authorize st1 original).2).
  { intros a Ha. unfold st', done, original, p.
    rewrite Hstatus, Hplain, Hchallenge.
    cbn [Z.eqb Pos.eqb negb andb truthy default]. rewrite Htruthy.
    cbn [from_option id]. rewrite Ha. done. }
  assert (Hthrown : authenticate challenge = None ->
                    st' = set_requests st (delete n (requests st))).
  { intros Ha. unfold st', done, original, p.
    rewrite Hstatus, Hplain, Hchallenge.
    cbn [Z.eqb Pos.eqb negb andb truthy default]. rewrite Htruthy.
    cbn [from_option id]. rewrite Ha. done. }
  split; [|split]; [intros a Ha Herr; specialize (Hdone a Ha); cbv zeta in Hdone;
                    rewrite Herr in Hdone..|].
  3:{ intros Ha. rewrite (Hthrown Ha). cbn [written requests authenticator
        promises set_requests].
      split; [done|]. split; [done|]. split; [done|]. split; [done|].
      split; [exact Hpending|]. split.
      - intros fuel. unfold p. destruct fuel; cbn [observe]; by rewrite Hpending.
      - intros waiting err (_ & _ & Hunique & _).
        unfold onError. rewrite reconnect_promises, reject_all_other; [done|].
        apply Forall_forall. intros [k r] Hin%elem_of_map_to_list.
        cbn [requests set_requests] in Hin.
        apply lookup_delete_Some in Hin as [Hk Hr].
        cbn. intros Heq. apply Hk. by apply (Hunique n k request r). }
  - set (h := default ∅ (headers original)) in *.
    set (h1 := <["Authorization" := HStr (authorize a (method original) (uri original))]>
                 (<["CSeq" := HNum (cseq st)]> h)).
    set (h2 := match session st with
               | Some s0 =>
                   if truthy_string s0 && negb (truthy truthy_hval (h1 !! "Session"))
                   then <["Session" := HStr s0]> h1 else h1
               | None => h1
               end).
    exists (mkOptions (method original) (uri original) (Some h2)).
    assert (Hh2 : ∀ key, key <> "Session" -> h2 !! key = h1 !! key).
    { intros key Hkey. unfold h2. repeat case_match; try done.
      by rewrite lookup_insert_ne. }
    assert (Hq : promises st' !! q = Some Pending).
    { rewrite Hdone. cbn. rewrite settle_other by done. apply lookup_insert_eq. }
    assert (Hp : promises st' !! p = Some (Following q)).
    { rewrite Hdone. cbn. apply settle_pending.
      rewrite lookup_insert_ne by done. exact Hpending. }
    split; [by rewrite Hdone|]. split; [done|]. split; [done|].
    split; [cbn; rewrite Hh2 by done; unfold h1; apply lookup_insert_eq|].
    split; [cbn; rewrite Hh2 by done; unfold h1;
            rewrite lookup_insert_ne by done; apply lookup_insert_eq|].
    split.
    { intros key Hkey. cbn. rewrite Hh2 by set_solver. unfold h1.
      rewrite !lookup_insert_ne by set_solver. done. }
    split; [by rewrite Hdone|].
    split.
    { split; [|exact Hq]. rewrite Hdone. cbn. apply lookup_insert_eq. }
    split; [exact Hp|]. split.
    + intros evs fuel st''. apply observe_following.
      destruct (later_run authenticate auth_err authorize evs st')
        as (_ & _ & Hkeep); [apply Hlater|].
      by apply Hkeep.
    + intros resp' data' Hstatus' Hauth st2.
      assert (Hcarried : truthy truthy_hval (h2 !! "Authorization") = true).
      { rewrite Hh2 by done. unfold h1. rewrite lookup_insert_eq. exact Hauth. }
      unfold st2, done. cbn [p_options p_handle headers].
      change (default ∅ (Some h2)) with h2. rewrite Hcarried.
      assert (((statusCode resp' =? 401) || (statusCode resp' =? 403)) = true)
        as Hor by (destruct Hstatus' as [-> | ->]; done).
      rewrite Hor. cbn [negb andb].
      rewrite andb_false_r. cbn [andb].
      split; [done|]. cbn. by apply settle_pending.
  - assert (Hp : promises st' !! p
                 = Some (Rejected (AuthenticationError (default "" (auth_err a))))).
    { rewrite Hdone. cbn. by apply settle_pending. }
    split; [by rewrite Hdone|]. split; [by rewrite Hdone|]. split; [exact Hp|].
    intros evs fuel.
    destruct (later_run authenticate auth_err authorize evs st')
        as (_ & _ & Hkeep); [apply Hlater|].
    destruct fuel; cbn; by rewrite (Hkeep _ _ Hp).
Qed.

(** ** Sessions *)

Lemma head_split (sep : ascii) (s : string) :
  head (split sep s) = Some (before_first sep s).
Proof.
  induction s as [|c s IH]; [done|]. cbn.
  destruct (Ascii.eqb c sep); [done|].
  destruct (split sep s) as [|first others]; [done|].
  cbn in *. congruence.
Qed.

Lemma contains_truthy (sep : ascii) (s : string) :
  contains sep s = true -> truthy_string s = true.
Proof. by destruct s. Qed.

Lemma done_session (st : client Authenticator) (n : Z) (request : pending) (resp : response)
    (data : buffer) :
  session (done authenticate auth_err authorize st n request resp data)
  = session st.
Proof. unfold done. by repeat case_match. Qed.

(** What [makeRequest] writes as Session header: the session of the
    client when that is not empty and the options carry none, what the
    options carry otherwise. *)
Lemma makeRequest_session (st : client Authenticator) (opts : options) :
  ∃ req,
    written (makeRequest authorize st opts).1 = written st ++ [req]
    ∧ method req = method opts ∧ uri req = uri opts
    ∧ default ∅ (headers req) !! "Session"
      = match session st with
        | Some s =>
            if truthy_string s
               && negb (truthy truthy_hval (default ∅ (headers opts) !! "Session"))
            then Some (HStr s)
            else default ∅ (headers opts) !! "Session"
        | None => default ∅ (headers opts) !! "Session"
        end.
Proof.
  eexists. split; [reflexivity|]. split; [done|]. split; [done|].
  cbn [headers default from_option id].
  set (h0 := from_option id ∅ (headers opts)).
  set (h2 := match authenticator st with
             | Some a => <["Authorization" := HStr (authorize a (method opts) (uri opts))]>
                           (<["CSeq" := HNum (cseq st)]> h0)
             | None => <["CSeq" := HNum (cseq st)]> h0
             end).
  assert (H2 : h2 !! "Session" = h0 !! "Session").
  { unfold h2. destruct (authenticator st); by rewrite !lookup_insert_ne by done. }
  rewrite H2. destruct (session st) as [s|]; [|done].
  destruct (truthy_string s && negb (truthy truthy_hval (h0 !! "Session")));
    [apply lookup_insert_eq|done].
Qed.

(** C10, as the code has it.  When a response to a pending request
    carries a session header with a semicolon in it, the part before the
    first semicolon becomes the session of the client; as long as that
    is the session, and provided it is not empty, every request made with
    options that carry no Session header is written with that part as its
    Session header, and a request made with options that carry one is
    written with the one they carry.  The retry of a challenged request is
    made with the options of its first sending as [makeRequest] left them:
    it is written with the Session header that sending was given, if it
    was given one, and with the session of the client only if not. *)
Theorem session_identifier_truncated (st : client Authenticator) (resp : response) (n : Z)
    (request : pending) (value : string) :
  parseInt_opt (rheaders resp !! "cseq") = Num n ->
  requests st !! n = Some request ->
  rheaders resp !! "session" = Some value ->
  contains ";" value = true ->
  let identifier := before_first ";" value in
  session (onResponse authenticate auth_err authorize st resp).1
  = Some identifier
  ∧ (∀ (later_st : client Authenticator) (opts : options),
      session later_st = Some identifier ->
      identifier <> "" ->
      truthy truthy_hval (default ∅ (headers opts) !! "Session") = false ->
      ∃ req,
        written (makeRequest authorize later_st opts).1
        = written later_st ++ [req]
        ∧ method req = method opts ∧ uri req = uri opts
        ∧ default ∅ (headers req) !! "Session" = Some (HStr identifier))
  ∧ (∀ (later_st : client Authenticator) (opts : options),
      session later_st = Some identifier ->
      truthy truthy_hval (default ∅ (headers opts) !! "Session") = true ->
      ∃ req,
        written (makeRequest authorize later_st opts).1
        = written later_st ++ [req]
        ∧ method req = method opts ∧ uri req = uri opts
        ∧ default ∅ (headers req) !! "Session"
          = default ∅ (headers opts) !! "Session")
  ∧ (∀ (later_st : client Authenticator) (k : Z) (first : pending)
       (answer : response) (data : buffer) (a : Authenticator),
      session later_st = Some identifier ->
      statusCode answer = 401 ->
      truthy truthy_hval
        (default ∅ (headers (p_options first)) !! "Authorization") = false ->
      truthy truthy_string (rheaders answer !! "www-authenticate") = true ->
      authenticate (default "" (rheaders answer !! "www-authenticate")) = Some a ->
      truthy truthy_string (auth_err a) = false ->
      ∃ retry,
        written (done authenticate auth_err authorize later_st k first answer data)
        = written later_st ++ [retry]
        ∧ method retry = method (p_options first)
        ∧ uri retry = uri (p_options first)
        ∧ default ∅ (headers retry) !! "Session"
          = if truthy truthy_hval
                 (default ∅ (headers (p_options first)) !! "Session")
            then default ∅ (headers (p_options first)) !! "Session"
            else if truthy_string identifier then Some (HStr identifier)
                 else default ∅ (headers (p_options first)) !! "Session").
Proof.
  intros Hcseq Hreq Hsession Hsemi identifier. split; [|split; [|split]].
  - unfold onResponse, update_session. rewrite Hcseq, Hreq, Hsession.
    rewrite (contains_truthy _ _ Hsemi), head_split.
    case_match; cbn [fst]; [done|]. by rewrite done_session.
  - intros later_st opts Hs Hne Hunset.
    eexists. split; [reflexivity|]. split; [done|]. split; [done|].
    cbn. rewrite Hs.
    assert (truthy_string identifier = true) as ->.
    { unfold truthy_string. destruct identifier; [done|]. done. }
    assert (∀ h : gmap string hval,
              truthy truthy_hval (h !! "Session") = false ->
              truthy truthy_hval
                (match authenticator later_st with
                 | Some a0 =>
                     <["Authorization" :=
                         HStr (authorize a0 (method opts) (uri opts))]>
                       (<["CSeq" := HNum (cseq later_st)]> h)
                 | None => <["CSeq" := HNum (cseq later_st)]> h
                 end !! "Session") = false) as Hkeep.
    { intros h Hh. destruct (authenticator later_st);
        by rewrite !lookup_insert_ne by done. }
    rewrite Hkeep by done. cbn. apply lookup_insert_eq.
  - intros later_st opts Hs Hset.
    destruct (makeRequest_session later_st opts) as (req & Hw & Hm & Hu & Hh).
    exists req. split; [done|]. split; [done|]. split; [done|].
    rewrite Hh, Hs, Hset. cbn [negb]. by rewrite andb_false_r.
  - intros later_st k first answer data a Hs Hstatus Hplain Hchallenge Ha Herr.
    unfold done. rewrite Hstatus, Hplain, Hchallenge, Ha, Herr.
    cbn [Z.eqb Pos.eqb negb andb].
    match goal with |- context [makeRequest authorize ?s ?o] =>
      destruct (makeRequest_session s o) as (retry & Hw & Hm & Hu & Hh) end.
    exists retry. cbn [written resolve_with_promise set_promises] in *.
    split; [exact Hw|]. split; [done|]. split; [done|].
    rewrite Hh. cbn [session set_authenticator set_requests]. rewrite Hs.
    destruct (truthy truthy_hval (default ∅ (headers (p_options first)) !! "Session"));
      cbn [negb]; [by rewrite andb_false_r|by rewrite andb_true_r].
Qed.

End ClientClaims.

Lemma allocated_one_pending : allocated one_pending.
Proof.
  intros p [t Hp]. destruct p as [|p]; [cbn; lia|].
  change (promises one_pending)
    with (<[0%nat := Pending]> (∅ : gmap nat pstate)) in Hp.
  rewrite lookup_insert_ne in Hp by done. by rewrite lookup_empty in Hp.
Qed.

Lemma unauthorized_retried_once_witness :
  let request :=
    mkPending (mkOptions "DESCRIBE" "rtsp://camera/videoMain"
                 (Some {[ "CSeq" := HNum 1 ]})) 0 in
  let answered challenge :=
    done basic_authenticate basic_err basic_authorize one_pending 1 request
      (mkResponse 401 {[ "cseq" := "1"; "www-authenticate" := challenge ]}) [] in
  is_pending one_pending 1 request
  ∧ promises (answered "Basic realm=camera") !! 0%nat = Some (Following 1%nat)
  ∧ promises (answered "Digest realm=camera") !! 0%nat
    = Some (Rejected (AuthenticationError "unsupported scheme"))
  ∧ written (answered "Digest realm=camera") = written one_pending
  ∧ promises (answered "Negotiate") !! 0%nat = Some Pending
  ∧ written (answered "Negotiate") = written one_pending
  ∧ requests (answered "Negotiate") = ∅.
Proof.
  intros request answered.
  assert (Hpending : is_pending one_pending 1 request)
    by (split; vm_compute; reflexivity).
  pose (basic := mkResponse 401
                   {[ "cseq" := "1"; "www-authenticate" := "Basic realm=camera" ]}).
  pose (digest := mkResponse 401
                    {[ "cseq" := "1"; "www-authenticate" := "Digest realm=camera" ]}).
  pose (other := mkResponse 401
                   {[ "cseq" := "1"; "www-authenticate" := "Negotiate" ]}).
  assert (Hbasic : rheaders basic !! "www-authenticate" = Some "Basic realm=camera")
    by (vm_compute; reflexivity).
  assert (Hdigest : rheaders digest !! "www-authenticate" = Some "Digest realm=camera")
    by (vm_compute; reflexivity).
  assert (Hother : rheaders other !! "www-authenticate" = Some "Negotiate")
    by (vm_compute; reflexivity).
  split; [exact Hpending|].
  destruct (unauthorized_retried_once basic_authenticate basic_err
              basic_authorize one_pending 1 request basic [] "Basic realm=camera"
              allocated_one_pending Hpending eq_refl eq_refl Hbasic eq_refl)
    as (Hretry & _ & _).
  destruct (Hretry "Basic realm=camera" eq_refl eq_refl)
    as (retry & _ & _ & _ & _ & _ & _ & _ & _ & Hp & _).
  split; [exact Hp|].
  destruct (unauthorized_retried_once basic_authenticate basic_err
              basic_authorize one_pending 1 request digest [] "Digest realm=camera"
              allocated_one_pending Hpending eq_refl eq_refl Hdigest eq_refl)
    as (_ & Herror & _).
  destruct (Herror "Digest realm=camera" eq_refl eq_refl)
    as (Hw & _ & Hrejected & _).
  split; [exact Hrejected|]. split; [exact Hw|].
  destruct (unauthorized_retried_once basic_authenticate basic_err
              basic_authorize one_pending 1 request other [] "Negotiate"
              allocated_one_pending Hpending eq_refl eq_refl Hother eq_refl)
    as (_ & _ & Hthrown).
  destruct (Hthrown eq_refl) as (Hw' & Hr & _ & _ & Hp' & _).
  split; [exact Hp'|]. split; [exact Hw'|].
  change (requests (answered "Negotiate"))
    with (requests (done basic_authenticate basic_err basic_authorize
                      one_pending 1 request other [])).
  rewrite Hr. vm_compute. reflexivity.
Defined.

Lemma session_identifier_truncated_witness :
  let resp :=
    mkResponse 200 {[ "cseq" := "1"; "session" := "ABCD;timeout=60" ]} in
  session (onResponse basic_authenticate basic_err basic_authorize
             one_pending resp).1 = Some "ABCD".
Proof.
  intros resp.
  refine (proj1 (session_identifier_truncated basic_authenticate basic_err
                   basic_authorize one_pending resp 1
                   (mkPending (mkOptions "DESCRIBE" "rtsp://camera/videoMain"
                                 (Some {[ "CSeq" := HNum 1 ]})) 0)
                   "ABCD;timeout=60" _ _ _ _)); vm_compute; reflexivity.
Defined.

(** C10 as stated fails when nothing stands before the semicolon: the
    session stored is the empty string, and the next request is written
    without a Session header.  It also fails for a response that matches no
    pending request, which is dropped, session header and all.  And it
    fails for the retry of a challenged request: a PLAY made without a
    Session header while the session is S1 is answered 401 with a
    challenge and the session header "S2;timeout=60"; S2 is stored, and
    the retry is written with S1. *)
Lemma empty_session_identifier_not_attached :
  let resp :=
    mkResponse 200 {[ "cseq" := "1"; "session" := ";timeout=60" ]} in
  let st' :=
    (onResponse basic_authenticate basic_err basic_authorize one_pending resp).1 in
  let next :=
    (makeRequest basic_authorize st'
       (mkOptions "PLAY" "rtsp://camera/videoMain" None)).1 in
  let unmatched :=
    mkResponse 200 {[ "cseq" := "7"; "session" := "ABCD;timeout=60" ]} in
  let in_session :=
    (onResponse basic_authenticate basic_err basic_authorize one_pending
       (mkResponse 200 {[ "cseq" := "1"; "session" := "S1;timeout=60" ]})).1 in
  let playing :=
    (makeRequest basic_authorize in_session
       (mkOptions "PLAY" "rtsp://camera/videoMain" None)).1 in
  let challenged_play :=
    (onResponse basic_authenticate basic_err basic_authorize playing
       (mkResponse 401
          {[ "cseq" := "2"; "www-authenticate" := "Basic realm=camera";
             "session" := "S2;timeout=60" ]})).1 in
  contains ";" ";timeout=60" = true
  ∧ session st' = Some (before_first ";" ";timeout=60")
  ∧ (¬ ∃ req, last (written next) = Some req
              ∧ default ∅ (headers req) !! "Session"
                = Some (HStr (before_first ";" ";timeout=60")))
  ∧ session (onResponse basic_authenticate basic_err basic_authorize
               one_pending unmatched).1
    <> Some (before_first ";" "ABCD;timeout=60")
  ∧ session challenged_play = Some (before_first ";" "S2;timeout=60")
  ∧ before_first ";" "S2;timeout=60" = "S2"
  ∧ ∃ retry, written challenged_play = written playing ++ [retry]
             ∧ method retry = "PLAY"
             ∧ default ∅ (headers retry) !! "CSeq" = Some (HNum 3)
             ∧ default ∅ (headers retry) !! "Session" = Some (HStr "S1").
Proof.
  intros resp st' next unmatched in_session playing challenged_play.
  split; [reflexivity|]. split; [vm_compute; reflexivity|]. split; [|split].
  - intros (req & Hlast & Hsession).
    vm_compute in Hlast. injection Hlast as <-. vm_compute in Hsession. done.
  - vm_compute. done.
  - split; [vm_compute; reflexivity|]. split; [reflexivity|].
    eexists. split; [vm_compute; reflexivity|].
    split; [reflexivity|]. split; vm_compute; reflexivity.
Qed.

Lemma onError_rejects_all_pending_witness :
  ∃ first second,
    is_pending two_pending 1 first ∧ is_pending two_pending 2 second
    ∧ promises (onError two_pending (TransportFailure "ECONNRESET"))
        !! p_handle first
      = Some (Rejected (TransportFailure "ECONNRESET"))
    ∧ promises (onError two_pending (TransportFailure "ECONNRESET"))
        !! p_handle second
      = Some (Rejected (TransportFailure "ECONNRESET")).
Proof.
  eexists _, _.
  assert (H1 : is_pending two_pending 1
                 (mkPending (mkOptions "DESCRIBE" "rtsp://camera/videoMain"
                               (Some {[ "CSeq" := HNum 1 ]})) 0))
    by (split; vm_compute; reflexivity).
  assert (H2 : is_pending two_pending 2
                 (mkPending (mkOptions "GET_PARAMETER" "rtsp://camera/videoMain"
                               (Some {[ "CSeq" := HNum 2 ]})) 1))
    by (split; vm_compute; reflexivity).
  split; [exact H1|]. split; [exact H2|].
  pose proof (onError_rejects_all_pending basic_authenticate basic_err
                basic_authorize two_pending (TransportFailure "ECONNRESET"))
    as [H _].
  split; [exact (proj1 (H _ _ H1))|exact (proj1 (H _ _ H2))].
Defined.

(** * The claims about the transport negotiation *)

Section TransportClaims.

Variable isV4Format : string -> bool.
Variable isV6Format : string -> bool.
Variable dns_resolve : string -> dns_answer.

(** Parameters of another name leave what was found so far alone. *)
Lemma parse_value_other (key : string) (acc : parsed) (value : string) :
  match split_limit "=" 2 value with
  | [name; _] => String.eqb name key
  | _ => false
  end = false ->
  (key = "server_port" ->
   (parse_value acc value).1.2 = acc.1.2 ∧ (parse_value acc value).2 = acc.2)
  ∧ (key = "source" -> (parse_value acc value).1.1 = acc.1.1).
Proof.
  intros Hother. unfold parse_value. destruct acc as [[src rtp] rtcp].
  destruct (split_limit "=" 2 value) as [|name [|val [|]]]; try done.
  split; intros ->.
  - rewrite Hother. by destruct (String.eqb name "source").
  - rewrite Hother. by destruct (String.eqb name "server_port").
Qed.

Lemma parse_values_other (key : string) (values : list string) (acc : parsed) :
  existsb (λ value, match split_limit "=" 2 value with
                    | [name; _] => String.eqb name key
                    | _ => false
                    end) values = false ->
  (key = "server_port" ->
   (foldl parse_value acc values).1.2 = acc.1.2
   ∧ (foldl parse_value acc values).2 = acc.2)
  ∧ (key = "source" -> (foldl parse_value acc values).1.1 = acc.1.1).
Proof.
  revert acc. induction values as [|value values IH]; intros acc H; [done|].
  cbn in H. apply orb_false_iff in H as [Hvalue Hvalues]. cbn [foldl].
  destruct (IH (parse_value acc value) Hvalues) as [IH1 IH2].
  destruct (parse_value_other key acc value Hvalue) as [H1 H2].
  split; intros Hkey.
  - destruct (IH1 Hkey) as [-> ->]. by apply H1.
  - rewrite (IH2 Hkey). by apply H2.
Qed.

(** Without a [server_port] parameter, or without a [source] parameter,
    not all three variables are set. *)
Lemma missing_parameter (transport : string) :
  has_parameter "server_port" transport = false
  ∨ has_parameter "source" transport = false ->
  determined (parse_transport transport) = false.
Proof.
  unfold has_parameter, parse_transport, determined. intros [H|H].
  - destruct (parse_values_other _ _ (None, None, None) H) as [H1 _].
    destruct (H1 eq_refl) as [-> _]. cbn. by rewrite andb_false_r.
  - destruct (parse_values_other _ _ (None, None, None) H) as [_ H2].
    rewrite (H2 eq_refl). done.
Qed.

(** What [setup_then] does with a transport header that is there. *)
Lemma setup_then_undetermined (resp : response) (data : buffer)
    (transport : string) :
  rheaders resp !! "transport" = Some transport ->
  truthy_string transport = true ->
  determined (parse_transport transport) = false ->
  setup_then isV4Format isV6Format dns_resolve (mkResult resp data)
  = RejectsWith
      (CouldNotParseTransport transport (parse_transport transport).1.1
         (parse_transport transport).1.2 (parse_transport transport).2).
Proof.
  intros Hheader Htruthy Hundetermined. unfold setup_then. cbn [res_response].
  rewrite Hheader, Htruthy. cbn [negb].
  destruct (parse_transport transport) as [[src rtp] rtcp].
  unfold determined in Hundetermined. cbn in Hundetermined.
  by rewrite Hundetermined.
Qed.

(** C4, as the code has it.  The transport string
    "server_port=6970-6971;source=192.0.2.5" gives source "192.0.2.5", RTP
    port 6970 and RTCP port 6971, which is what [setup] resolves to, the
    source being a literal address; "server_port=6970" gives RTCP port and
    RTP port 6970, and no source; and for every transport string that is
    not empty,
    when source, RTP port and RTCP port are not all found, as when there
    is no [server_port] or no [source] parameter, [setup] rejects with the
    parse error that carries the string.  An empty or missing transport
    header is rejected with the other error, which carries the
    response. *)
Theorem transport_parsing :
  parse_transport "server_port=6970-6971;source=192.0.2.5"
  = (Some "192.0.2.5", Some (Num 6970), Some (Num 6971))
  ∧ (∀ resp data,
       rheaders resp !! "transport"
       = Some "server_port=6970-6971;source=192.0.2.5" ->
       isV4Format "192.0.2.5" = true ->
       setup_settles isV4Format isV6Format dns_resolve
         (Fulfilled (mkResult resp data))
       = Fulfils (mkTransport "192.0.2.5" 6970 6971))
  ∧ parse_transport "server_port=6970" = (None, Some (Num 6970), Some (Num 6970))
  ∧ (∀ resp data,
       rheaders resp !! "transport" = Some "server_port=6970" ->
       setup_settles isV4Format isV6Format dns_resolve
         (Fulfilled (mkResult resp data))
       = RejectsWith
           (CouldNotParseTransport "server_port=6970" None
              (Some (Num 6970)) (Some (Num 6970))))
  ∧ (∀ resp data transport,
       rheaders resp !! "transport" = Some transport ->
       transport <> "" ->
       determined (parse_transport transport) = false
       ∨ has_parameter "server_port" transport = false
       ∨ has_parameter "source" transport = false ->
       setup_settles isV4Format isV6Format dns_resolve
         (Fulfilled (mkResult resp data))
       = RejectsWith
           (CouldNotParseTransport transport (parse_transport transport).1.1
              (parse_transport transport).1.2 (parse_transport transport).2))
  ∧ (∀ resp data,
       rheaders resp !! "transport" = Some ""
       ∨ rheaders resp !! "transport" = None ->
       setup_settles isV4Format isV6Format dns_resolve
         (Fulfilled (mkResult resp data))
       = RejectsWith (NoTransport resp)).
Proof.
  split; [reflexivity|]. split.
  { intros resp data Hheader Hv4. cbn [setup_settles]. unfold setup_then.
    cbn [res_response]. rewrite Hheader.
    change (parse_transport "server_port=6970-6971;source=192.0.2.5")
      with (Some "192.0.2.5", Some (Num 6970), Some (Num 6971)).
    cbn. by rewrite Hv4. }
  split; [reflexivity|]. split.
  { intros resp data Hheader. cbn [setup_settles].
    by rewrite (setup_then_undetermined resp data "server_port=6970"). }
  split.
  - intros resp data transport Hheader Hne Hundetermined.
    cbn [setup_settles]. apply setup_then_undetermined; [done| |].
    + by destruct transport.
    + destruct Hundetermined as [H|H]; [done|]. by apply missing_parameter.
  - intros resp data [H|H]; cbn [setup_settles]; unfold setup_then;
      cbn [res_response]; by rewrite H.
Qed.

(** C1, what the code does.  When the transport names a source that is
    not a literal address and the resolver fails or finds no address,
    the promise [setup] returned is neither resolved nor rejected: the
    rejection with the host in it is built and dropped. *)
Theorem setup_unresolved_source_stays_pending (resp : response) (data : buffer)
    (transport host : string) (rtp rtcp : Z) :
  rheaders resp !! "transport" = Some transport ->
  parse_transport transport = (Some host, Some (Num rtp), Some (Num rtcp)) ->
  determined (parse_transport transport) = true ->
  isV4Format host = false -> isV6Format host = false ->
  (∃ err, dns_resolve host = DnsError err) ∨ dns_resolve host = DnsAddresses [] ->
  setup_settles isV4Format isV6Format dns_resolve
    (Fulfilled (mkResult resp data))
  = StaysPending [CouldNotResolveSource host]
  ∧ ∀ e, setup_settles isV4Format isV6Format dns_resolve
           (Fulfilled (mkResult resp data))
         <> RejectsWith e.
Proof.
  intros Hheader Hparsed Hdetermined Hv4 Hv6 Hdns.
  assert (setup_settles isV4Format isV6Format dns_resolve
      (Fulfilled (mkResult resp data))
          = StaysPending [CouldNotResolveSource host]) as ->; [|done].
  cbn [setup_settles]; unfold setup_then. cbn [res_response]. rewrite Hheader.
  assert (truthy_string transport = true) as ->.
  { destruct transport; [|done]. vm_compute in Hparsed. done. }
  cbn [negb]. rewrite Hparsed in *. unfold determined in Hdetermined.
  cbn [fst snd] in Hdetermined. rewrite Hdetermined, Hv4, Hv6. cbn [orb].
  by destruct Hdns as [[err ->]| ->].
Qed.

End TransportClaims.

Lemma transport_parsing_witness :
  setup_settles dotted_quad no_format dns_not_found
    (Fulfilled (mkResult
       (mkResponse 200
          {[ "cseq" := "3";
             "transport" := "server_port=6970-6971;source=192.0.2.5" ]})
       []))
  = Fulfils (mkTransport "192.0.2.5" 6970 6971).
Proof.
  apply (transport_parsing dotted_quad no_format dns_not_found); reflexivity.
Defined.

Lemma setup_unresolved_source_stays_pending_witness :
  setup_settles dotted_quad no_format dns_not_found
    (Fulfilled (mkResult
       (mkResponse 200
          {[ "cseq" := "3";
             "transport" := "RTP/AVP;unicast;client_port=5000-5001;server_port=6970-6971;source=camera.local" ]})
       []))
  = StaysPending [CouldNotResolveSource "camera.local"].
Proof.
  refine (proj1 (setup_unresolved_source_stays_pending dotted_quad no_format
                   dns_not_found _ _
                   "RTP/AVP;unicast;client_port=5000-5001;server_port=6970-6971;source=camera.local"
                   "camera.local" 6970 6971 _ _ _ _ _ _));
    try reflexivity.
  left. by eexists.
Defined.

(** C4 as stated fails for the empty transport string: nothing can be
    found in it, and [setup] rejects with the error that has no transport
    string in it. *)
Lemma empty_transport_rejected_as_missing :
  let resp := mkResponse 200 {[ "cseq" := "3"; "transport" := "" ]} in
  determined (parse_transport "") = false
  ∧ has_parameter "server_port" "" = false
  ∧ ∀ src rtp rtcp,
      setup_settles dotted_quad no_format dns_not_found
        (Fulfilled (mkResult resp []))
      <> RejectsWith (CouldNotParseTransport "" src rtp rtcp).
Proof.
  intros resp. split; [reflexivity|]. split; [reflexivity|].
  intros src rtp rtcp. vm_compute. discriminate.
Qed.


#[local] Set Warnings "-clear-no-such-hyp".
(** * More properties of the talkback pipeline *)

(** ** The upsampling path *)

Lemma int16_range (lo hi : byte) :
  let val := byte.unsigned lo + byte.unsigned hi * 2 ^ 8 in
  - 2 ^ 15 <= (if Z.testbit val 15 then val - 2 ^ 16 else val) <= 2 ^ 15 - 1.
Proof.
  pose proof (byte.unsigned_range lo). pose proof (byte.unsigned_range hi).
  intros val. assert (0 <= val < 2 ^ 16) by (unfold val; lia).
  clearbody val.
  destruct (Z.testbit val 15) eqn:Hbit.
  - apply Z.testbit_true in Hbit; [|lia].
    assert (2 ^ 15 <= val); [|lia].
    destruct (Z_lt_ge_dec val (2 ^ 15)) as [Hlt|]; [|lia].
    rewrite Z.div_small in Hbit by lia. done.
  - assert (val < 2 ^ 15); [|lia].
    destruct (Z_lt_ge_dec val (2 ^ 15)) as [|Hge]; [done|].
    assert (Z.testbit val 15 = true); [|congruence].
    apply Z.testbit_true; [lia|].
    replace (val / 2 ^ 15) with 1; [done|].
    apply Z.div_unique with (val - 2 ^ 15); lia.
Qed.

Lemma readInt16LE_range (b : buffer) (off v : Z) :
  readInt16LE b off = Some v -> - 2 ^ 15 <= v <= 2 ^ 15 - 1.
Proof.
  unfold readInt16LE. destruct ((off <? 0) || (blength b <? off + 2)); [done|].
  destruct (b !! Z.to_nat off) as [lo|]; [|done].
  destruct (b !! Z.to_nat (off + 1)) as [hi|]; [|done].
  intros Heq. apply (inj Some) in Heq. subst v. apply int16_range.
Qed.

Lemma s16_range (b : buffer) (off : Z) : - 2 ^ 15 <= s16 b off <= 2 ^ 15 - 1.
Proof.
  unfold s16. destruct (readInt16LE b off) as [v|] eqn:E; cbn; [|lia].
  by eapply readInt16LE_range.
Qed.

Lemma samples_from_range (b : buffer) (i : Z) (n : nat) :
  Forall (λ v, - 2 ^ 15 <= v <= 2 ^ 15 - 1) (samples_from b i n).
Proof.
  revert i. induction n as [|n IH]; intros i; cbn; constructor; [|done].
  apply s16_range.
Qed.

Lemma replicate_zeros_app (a b : nat) :
  replicate (a + b) Byte.x00 = replicate a Byte.x00 ++ replicate b Byte.x00.
Proof. apply replicate_add. Qed.

(** The inner loop writes its copies where the cursor stands. *)
Lemma write_copies_spec (m : nat) (v cursor : Z) (pre : buffer) (r : nat) :
  - 2 ^ 15 <= v <= 2 ^ 15 - 1 ->
  blength pre = cursor ->
  write_copies m v cursor (pre ++ replicate (2 * m + r) Byte.x00)
  = Value (pre ++ enc16 (replicate m v) ++ replicate r Byte.x00,
           cursor + 2 * Z.of_nat m).
Proof.
  intros Hv. revert cursor pre. induction m as [|m IH]; intros cursor pre Hpre.
  - cbn. do 2 f_equal. lia.
  - cbn [write_copies].
    replace (2 * S m + r)%nat with (S (S (2 * m + r))) by lia. cbn [replicate].
    rewrite writeInt16LE_at by done. cbn [of_option mbind outcome_bind obind].
    replace (pre ++ enc16 [v] ++ replicate (2 * m + r) Byte.x00)
      with ((pre ++ enc16 [v]) ++ replicate (2 * m + r) Byte.x00)
      by (by rewrite <- app_assoc).
    rewrite IH by (rewrite blength_app; unfold blength in *; cbn; lia).
    rewrite <- app_assoc. do 2 f_equal. lia.
Qed.

(** From any loop state with [n] whole samples left: the loop returns the
    output filled with their copies when nothing is left behind them, and
    throws when one byte is. *)
Lemma up_loop_spec (samples : buffer) (multiplier : Z) (n fuel : nat) (i cursor : Z)
    (pre : buffer) (r : nat) :
  (n < fuel)%nat -> 0 <= i -> 0 <= multiplier ->
  blength pre = cursor ->
  let m := Z.to_nat multiplier in
  let output := pre ++ replicate (2 * m * n + r) Byte.x00 in
  (blength samples = i + 2 * Z.of_nat n ->
   up_loop fuel samples multiplier i cursor output
   = Value (pre ++ enc16 (samples_from samples i n ≫= replicate m)
                ++ replicate r Byte.x00))
  ∧ (blength samples = i + 2 * Z.of_nat n + 1 -> (n + 1 < fuel)%nat ->
     up_loop fuel samples multiplier i cursor output = Throw RangeError).
Proof.
  intros Hfuel Hi Hm Hpre m. revert fuel i cursor pre Hfuel Hi Hpre.
  induction n as [|n IH]; intros fuel i cursor pre Hfuel Hi Hpre output.
  - destruct fuel as [|fuel]; [lia|]. split.
    + intros Hlen. cbn [up_loop]. rewrite (proj2 (Z.ltb_ge _ _)) by lia.
      unfold output. by replace (2 * m * 0 + r)%nat with r by lia.
    + intros Hlen _. cbn [up_loop]. rewrite (proj2 (Z.ltb_lt _ _)) by lia.
      rewrite readInt16LE_outside by lia. done.
  - destruct fuel as [|fuel]; [lia|].
    assert (Hstep : up_loop (S fuel) samples multiplier i cursor output
      = up_loop fuel samples multiplier (i + 2)
          (cursor + 2 * Z.of_nat m)
          ((pre ++ enc16 (replicate m (s16 samples i)))
             ++ replicate (2 * m * n + r) Byte.x00)
        ∨ blength samples < i + 2).
    { destruct (Z_lt_ge_dec (blength samples) (i + 2)) as [|Hge]; [by right|left].
      cbn [up_loop]. rewrite (proj2 (Z.ltb_lt _ _)) by lia.
      destruct (readInt16LE_in_range samples i Hi ltac:(lia)) as [v Hv].
      unfold s16. rewrite Hv. cbn [of_option mbind outcome_bind obind default].
      unfold output.
      replace (2 * m * S n + r)%nat with (2 * m + (2 * m * n + r))%nat by lia.
      fold m. rewrite write_copies_spec by (done || by eapply readInt16LE_range).
      cbn [mbind outcome_bind obind fst snd]. by rewrite <- app_assoc. }
    assert (Hpre' : blength (pre ++ enc16 (replicate m (s16 samples i)))
                    = cursor + 2 * Z.of_nat m).
    { rewrite blength_app. unfold blength in *.
      rewrite length_enc16, length_replicate. lia. }
    destruct (IH fuel (i + 2) (cursor + 2 * Z.of_nat m)
                (pre ++ enc16 (replicate m (s16 samples i)))
                ltac:(lia) ltac:(lia) Hpre') as [IHa IHb].
    split.
    + intros Hlen. destruct Hstep as [-> | ?]; [|lia].
      rewrite IHa by lia. cbn [samples_from]. rewrite bind_cons, enc16_app.
      by rewrite <- !app_assoc.
    + intros Hlen Hfuel'. destruct Hstep as [-> | ?]; [|lia].
      apply IHb; lia.
Qed.

Lemma lookup_bind_replicate {A} (l : list A) (m k : nat) :
  (0 < m)%nat -> (l ≫= replicate m) !! k = l !! (k / m)%nat.
Proof.
  intros Hm. revert k. induction l as [|x l IH]; intros k.
  - by rewrite !lookup_nil.
  - rewrite bind_cons. destruct (Nat.lt_ge_cases k m) as [Hlt|Hge].
    + rewrite lookup_app_l by (by rewrite length_replicate).
      rewrite Nat.div_small by done. cbn. by apply lookup_replicate_2.
    + rewrite lookup_app_r by (by rewrite length_replicate).
      rewrite length_replicate, IH.
      replace (k / m)%nat with (S ((k - m) / m)); [done|].
      replace k with ((k - m) + 1 * m)%nat at 2 by lia.
      rewrite Nat.div_add by lia. lia.
Qed.

Lemma length_bind_replicate {A} (l : list A) (m : nat) :
  length (l ≫= replicate m) = (length l * m)%nat.
Proof.
  induction l as [|x l IH]; [done|].
  rewrite bind_cons, length_app, length_replicate, IH. cbn. lia.
Qed.

Lemma readInt16LE_enc16_lookup (l : list Z) (k : nat) (v : Z) :
  Forall (λ x, - 2 ^ 15 <= x <= 2 ^ 15 - 1) l ->
  l !! k = Some v ->
  readInt16LE (enc16 l) (2 * Z.of_nat k) = Some v.
Proof.
  intros Hl Hk. pose proof (lookup_lt_Some _ _ _ Hk) as Hlt.
  destruct (readInt16LE_in_range (enc16 l) (2 * Z.of_nat k)) as [v' Hv'];
    [lia|unfold blength; rewrite length_enc16; lia|].
  rewrite Hv'. f_equal.
  pose proof (readInt16LE_enc16 l k v' Hl Hv'). congruence.
Qed.

Lemma lookup_samples_from (b : buffer) (i : Z) (n j : nat) :
  (j < n)%nat -> samples_from b i n !! j = Some (s16 b (i + 2 * Z.of_nat j)).
Proof.
  revert i j. induction n as [|n IH]; intros i j Hj; [lia|].
  destruct j as [|j]; cbn.
  - do 2 f_equal. lia.
  - rewrite IH by lia. do 2 f_equal. lia.
Qed.

Lemma length_samples_from (b : buffer) (i : Z) (n : nat) :
  length (samples_from b i n) = n.
Proof. revert i. induction n as [|n IH]; intros i; cbn; [done|]. by rewrite IH. Qed.

Lemma multiplier_pos (inputRate outputRate : positive) :
  Z.pos inputRate < Z.pos outputRate ->
  (0 < Z.to_nat (Z.pos outputRate / Z.pos inputRate))%nat.
Proof. intros H. pose proof (divider_pos outputRate inputRate H). lia. Qed.

(** X1. Upsampling by a whole factor a buffer of whole samples returns
    every input sample as it is, the factor times in a row, and no carry:
    the gain plays no part, and nothing is clipped. *)
Theorem upsampling_replicates_samples (scale : Z -> Z -> Z) (samples : buffer)
    (inputRate outputRate : positive) :
  Z.pos inputRate < Z.pos outputRate ->
  Z.pos outputRate mod Z.pos inputRate = 0 ->
  blength samples mod 2 = 0 ->
  let multiplier := Z.to_nat (Z.pos outputRate / Z.pos inputRate) in
  ∃ output,
    resample scale samples inputRate outputRate = Value (output, None)
    ∧ output = enc16 (samples_of samples ≫= replicate multiplier)
    ∧ blength output = blength samples * Z.of_nat multiplier
    ∧ ∀ k : nat,
        (k < length samples / 2 * multiplier)%nat ->
        is_Some (readInt16LE output (2 * Z.of_nat k))
        ∧ readInt16LE output (2 * Z.of_nat k)
          = readInt16LE samples (2 * Z.of_nat (k / multiplier)).
Proof.
  intros Hlt Hmod Heven multiplier.
  pose proof (multiplier_pos _ _ Hlt) as Hm. fold multiplier in Hm.
  set (n := (length samples / 2)%nat).
  assert (Hlen : blength samples = 2 * Z.of_nat n).
  { unfold n, blength in *. rewrite Nat2Z.inj_div.
    pose proof (Z.div_mod (Z.of_nat (length samples)) 2 ltac:(lia)). cbn in *. lia. }
  exists (enc16 (samples_of samples ≫= replicate multiplier)).
  assert (Hout : blength (enc16 (samples_of samples ≫= replicate multiplier))
                 = blength samples * Z.of_nat multiplier).
  { unfold blength at 1. rewrite length_enc16, length_bind_replicate.
    unfold samples_of. fold n. rewrite length_samples_from. lia. }
  split; [|split; [done|split; [done|]]].
  - unfold resample. rewrite (proj2 (Z.ltb_ge _ _)) by lia.
    rewrite (proj2 (Z.ltb_lt _ _) Hlt), Hmod. cbn [Z.eqb negb].
    set (mult := Z.pos outputRate / Z.pos inputRate) in *.
    assert (0 <= mult) by (unfold multiplier in Hm; lia).
    replace (alloc (blength samples * mult))
      with ([] ++ replicate (2 * Z.to_nat mult * n + 0) Byte.x00).
    2:{ unfold alloc. cbn [app]. f_equal. nia. }
    destruct (up_loop_spec samples mult n (S (length samples)) 0 0 [] 0)
      as [Hloop _]; [unfold blength in *; lia|lia|lia|done|].
    rewrite Hloop by lia. cbn. by rewrite app_nil_r.
  - intros k Hk.
    assert (Hin : (k / multiplier < n)%nat)
      by (apply Nat.Div0.div_lt_upper_bound; lia).
    assert (Hread : readInt16LE samples (2 * Z.of_nat (k / multiplier))
                    = Some (s16 samples (2 * Z.of_nat (k / multiplier)))).
    { unfold s16.
      destruct (readInt16LE_in_range samples (2 * Z.of_nat (k / multiplier)))
        as [v ->]; [lia|lia|done]. }
    rewrite Hread.
    assert (readInt16LE (enc16 (samples_of samples ≫= replicate multiplier))
              (2 * Z.of_nat k)
            = Some (s16 samples (2 * Z.of_nat (k / multiplier)))) as ->;
      [|by split; [eexists|]].
    apply readInt16LE_enc16_lookup.
    + apply Forall_bind. eapply Forall_impl; [apply samples_from_range|].
      intros v Hv. cbn. by apply Forall_replicate.
    + rewrite lookup_bind_replicate by done.
      unfold samples_of. fold n. by rewrite lookup_samples_from.
Qed.

Lemma upsampling_replicates_samples_witness :
  ∃ output,
    resample (scale_exact 3) (enc16 [100; -32768; 7]) 4000 8000
    = Value (output, None)
    ∧ output = enc16 (samples_of (enc16 [100; -32768; 7]) ≫= replicate 2)
    ∧ blength output = 12.
Proof.
  destruct (upsampling_replicates_samples (scale_exact 3)
              (enc16 [100; -32768; 7]) 4000 8000 eq_refl eq_refl eq_refl)
    as (output & H1 & H2 & H3 & _).
  exists output. split; [exact H1|]. split; [exact H2|exact H3].
Defined.

(** X2. Upsampling a buffer with an odd number of bytes never returns: the
    read of the last sample runs over the end of the buffer and throws. *)
Theorem upsampling_odd_length_throws (scale : Z -> Z -> Z) (samples : buffer)
    (inputRate outputRate : positive) :
  Z.pos inputRate < Z.pos outputRate ->
  Z.pos outputRate mod Z.pos inputRate = 0 ->
  blength samples mod 2 = 1 ->
  resample scale samples inputRate outputRate = Throw RangeError.
Proof.
  intros Hlt Hmod Hodd.
  pose proof (multiplier_pos _ _ Hlt) as Hm.
  set (n := (length samples / 2)%nat).
  assert (Hlen : blength samples = 2 * Z.of_nat n + 1).
  { unfold n, blength in *. rewrite Nat2Z.inj_div.
    pose proof (Z.div_mod (Z.of_nat (length samples)) 2 ltac:(lia)). cbn in *. lia. }
  unfold resample. rewrite (proj2 (Z.ltb_ge _ _)) by lia.
  rewrite (proj2 (Z.ltb_lt _ _) Hlt), Hmod. cbn [Z.eqb negb].
  set (mult := Z.pos outputRate / Z.pos inputRate) in *.
  assert (0 <= mult) by lia.
  replace (alloc (blength samples * mult))
    with ([] ++ replicate (2 * Z.to_nat mult * n + Z.to_nat mult) Byte.x00).
  2:{ unfold alloc. cbn [app]. f_equal. nia. }
  destruct (up_loop_spec samples mult n (S (length samples)) 0 0 []
              (Z.to_nat mult)) as [_ Hloop];
    [unfold blength in *; lia|lia|lia|done|].
  rewrite Hloop; [done|lia|unfold blength in *; lia].
Qed.

Lemma upsampling_odd_length_throws_witness :
  resample (scale_exact 1) (enc16 [100; 300] ++ [Byte.x07]) 4000 8000
  = Throw RangeError.
Proof.
  apply (upsampling_odd_length_throws (scale_exact 1)
           (enc16 [100; 300] ++ [Byte.x07]) 4000 8000); reflexivity.
Defined.

(** ** Bytes in, bytes out *)

Lemma length_down_values (scale : Z -> Z -> Z) (b : buffer)
    (divider increment i : Z) (n : nat) :
  length (down_values scale b divider increment i n) = n.
Proof. revert i. induction n as [|n IH]; intros i; cbn; [done|]. by rewrite IH. Qed.

Lemma lookup_down_values (scale : Z -> Z -> Z) (b : buffer)
    (divider increment : Z) (n : nat) (i : Z) (j : nat) :
  (j < n)%nat ->
  down_values scale b divider increment i n !! j
  = Some (window_value scale b divider (i + Z.of_nat j * increment)).
Proof.
  revert i j. induction n as [|n IH]; intros i j Hj; [lia|].
  destruct j as [|j]; cbn [down_values lookup list_lookup].
  - f_equal. f_equal. lia.
  - rewrite IH by lia. f_equal. f_equal. lia.
Qed.

(** X3. Downsampling accounts for every byte: the output has one sample
    for each full window of the input, in order the clipped and scaled sum
    of the samples of that window; the carry is the bytes of the input
    behind the last full window, so that the bytes the windows took and
    the carry are the input; and an input shorter than one window is
    carried whole with nothing put out. *)
Theorem downsampling_accounts_for_every_byte (scale : Z -> Z -> Z)
    (samples : buffer) (inputRate outputRate : positive) :
  Z.pos outputRate < Z.pos inputRate ->
  Z.pos inputRate mod Z.pos outputRate = 0 ->
  let divider := Z.pos inputRate / Z.pos outputRate in
  ∃ output carry,
    resample scale samples inputRate outputRate = Value (output, Some carry)
    ∧ blength output = 2 * (blength samples / (divider * 2))
    ∧ blength carry = blength samples mod (divider * 2)
    ∧ blength output * divider + blength carry = blength samples
    ∧ (blength samples < divider * 2 -> output = [] ∧ carry = samples)
    ∧ carry = drop (Z.to_nat (blength output * divider)) samples
    ∧ take (Z.to_nat (blength output * divider)) samples ++ carry = samples
    ∧ output
      = enc16 (down_values scale samples divider (divider * 2) 0
                 (Z.to_nat (blength samples / (divider * 2))))
    ∧ ∀ k : nat,
        Z.of_nat k < blength samples / (divider * 2) ->
        readInt16LE output (2 * Z.of_nat k)
        = Some (clip (scale (wsum samples (Z.of_nat k * (divider * 2))
                               (Z.to_nat divider) 0) divider)).
Proof.
  intros Hlt Hmod divider.
  pose proof (divider_pos _ _ Hlt) as Hd. fold divider in Hd.
  set (n := Z.to_nat (blength samples / (divider * 2))).
  pose proof (windows_bounds (blength samples) (divider * 2)
                (blength_nonneg _) ltac:(lia)) as Hn.
  cbv zeta in Hn. fold n in Hn.
  assert (Hdiv : blength samples / (divider * 2) = Z.of_nat n).
  { unfold n. rewrite Z2Nat.id; [done|]. apply Z.div_pos; [apply blength_nonneg|lia]. }
  eexists _, _. split; [by apply resample_down|]. fold divider n.
  assert (Hout : blength (enc16 (down_values scale samples divider (divider * 2) 0 n))
                 = 2 * Z.of_nat n).
  { unfold blength. rewrite length_enc16, length_down_values. lia. }
  assert (Hcarry : blength (drop (Z.to_nat (Z.of_nat n * (divider * 2))) samples)
                   = blength samples - Z.of_nat n * (divider * 2)).
  { unfold blength in *. rewrite length_drop. lia. }
  assert (Htaken : blength (enc16 (down_values scale samples divider (divider * 2) 0 n))
                   * divider = Z.of_nat n * (divider * 2))
    by (rewrite Hout; lia).
  split; [by rewrite Hout, Hdiv|]. split; [|split; [|split; [|split; [|split; [|split]]]]].
  - rewrite Hcarry.
    pose proof (Z.div_mod (blength samples) (divider * 2) ltac:(lia)). lia.
  - rewrite Hout, Hcarry. lia.
  - intros Hshort. assert (n = 0%nat) as -> by nia. done.
  - by rewrite Htaken.
  - rewrite Htaken. apply take_drop.
  - done.
  - intros k Hk. rewrite Hdiv in Hk.
    rewrite (readInt16LE_enc16_lookup _ k
               (window_value scale samples divider (Z.of_nat k * (divider * 2)))).
    + done.
    + apply Forall_forall. intros v Hv.
      pose proof (down_values_in_range scale samples divider (divider * 2) 0 n) as Hr.
      rewrite Forall_forall in Hr. specialize (Hr v Hv). cbn in Hr. lia.
    + rewrite lookup_down_values by lia. done.
Qed.

Lemma downsampling_accounts_for_every_byte_witness :
  resample (scale_exact 1) (enc16 [100; 300; -100]) 16000 8000
  = Value (enc16 [200], Some (enc16 [-100])).
Proof.
  destruct (downsampling_accounts_for_every_byte (scale_exact 1)
              (enc16 [100; 300; -100]) 16000 8000 eq_refl eq_refl)
    as (output & carry & Hres & _ & _ & _ & _ & Hcarry & _ & Hout & _).
  rewrite Hres, Hcarry, Hout. vm_compute. reflexivity.
Defined.

Lemma run_events_acc (scale : Z -> Z -> Z) (evs : list event) (st : stream)
    (acc : list talk_data) :
  foldl (λ a ev, ((step scale a.1 ev).1, a.2 ++ (step scale a.1 ev).2))
    (st, acc) evs
  = ((run_events scale st evs).1, acc ++ (run_events scale st evs).2).
Proof.
  unfold run_events. revert st acc. induction evs as [|ev evs IH]; intros st acc.
  - cbn. by rewrite app_nil_r.
  - cbn [foldl fst snd]. rewrite IH.
    rewrite (IH _ ([] ++ _)). cbn [fst snd app]. by rewrite app_assoc.
Qed.

Lemma run_events_cons (scale : Z -> Z -> Z) (ev : event) (evs : list event)
    (st : stream) :
  run_events scale st (ev :: evs)
  = ((run_events scale (step scale st ev).1 evs).1,
     (step scale st ev).2 ++ (run_events scale (step scale st ev).1 evs).2).
Proof. unfold run_events at 1. cbn [foldl fst snd app]. apply run_events_acc. Qed.

Lemma run_events_reachable (scale : Z -> Z -> Z) (evs : list event) (st : stream)
    (frames : list talk_data) :
  reachable scale st frames ->
  Forall (λ ev, ∀ s, possible s ev) evs ->
  reachable scale (run_events scale st evs).1
    (frames ++ (run_events scale st evs).2).
Proof.
  revert st frames. induction evs as [|ev evs IH]; intros st frames Hreach Hevs.
  - cbn. by rewrite app_nil_r.
  - rewrite run_events_cons. cbn [fst snd]. rewrite app_assoc.
    apply Forall_cons in Hevs as [Hev Hevs].
    apply IH; [|done]. by apply reach_step.
Qed.

(** Two calls against one, the carry of the first call being stored. *)
Lemma audioDataInput_two_calls (scale : Z -> Z -> Z) (st : stream)
    (chunk1 chunk2 : buffer) :
  talkStreamSetup st = true -> foscamStream st = true ->
  8000 < Z.pos (outgoingSampleRate st) ->
  Z.pos (outgoingSampleRate st) mod 8000 = 0 ->
  let first := audioDataInput scale st chunk1 in
  let second := audioDataInput scale (after first) chunk2 in
  let both := audioDataInput scale st (chunk1 ++ chunk2) in
  talkStreamSetup (after first) = true ∧ foscamStream (after first) = true
  ∧ outgoingSampleRate (after first) = outgoingSampleRate st
  ∧ audioBuffer (after second) = audioBuffer (after both)
  ∧ frames_bytes (sent first ++ sent second) ++ buffered (after second)
    = frames_bytes (sent both) ++ buffered (after both).
Proof.
  intros Hactive Hsink Hlt Hmod first second both.
  destruct (resample_chunks scale (outgoingSampleRate st) 8000
              (resample_input st chunk1) chunk2 Hlt Hmod)
    as (out1 & carry & out2 & carry' & H1 & H2 & H12 & _ & _).
  destruct (audioDataInput_active scale st chunk1 out1 (Some carry) Hactive H1)
    as (Hc1 & _ & _ & Ha1 & Hs1 & Hr1 & _).
  pose proof (audioDataInput_bytes scale st chunk1 out1 (Some carry)
                Hactive Hsink H1) as Hb1.
  fold first in Hc1, Ha1, Hs1, Hr1, Hb1.
  assert (H2' : resample scale (resample_input (after first) chunk2)
                  (outgoingSampleRate (after first)) 8000
                = Value (out2, Some carry')).
  { unfold resample_input. rewrite Hc1, Hr1. exact H2. }
  destruct (audioDataInput_active scale (after first) chunk2 out2 (Some carry')
              Ha1 H2') as (Hc2 & _).
  pose proof (audioDataInput_bytes scale (after first) chunk2 out2 (Some carry')
                Ha1 ltac:(congruence) H2') as Hb2.
  fold second in Hc2, Hb2.
  assert (H12' : resample scale (resample_input st (chunk1 ++ chunk2))
                   (outgoingSampleRate st) 8000
                 = Value (concat out1 out2, Some carry')).
  { unfold resample_input, concat in *. rewrite app_assoc. exact H12. }
  destruct (audioDataInput_active scale st (chunk1 ++ chunk2)
              (concat out1 out2) (Some carry') Hactive H12') as (Hc12 & _).
  pose proof (audioDataInput_bytes scale st (chunk1 ++ chunk2)
                (concat out1 out2) (Some carry') Hactive Hsink H12') as Hb12.
  fold both in Hc12, Hb12.
  split; [done|]. split; [congruence|]. split; [done|]. split; [congruence|].
  rewrite Hb12. unfold frames_bytes in *. rewrite bind_app, <- app_assoc.
  rewrite Hb2, app_assoc, Hb1. unfold concat. by rewrite app_assoc.
Qed.

(** X4. However the audio is cut into chunks, feeding the chunks one call
    after the other leaves the same carry, and the same bytes in frames
    sent and output buffer, in the same order, as one call with all the
    chunks joined; every frame sent on the way has 960 bytes. *)
Theorem chunks_fed_one_by_one (scale : Z -> Z -> Z) (chunks : list buffer)
    (chunk : buffer) (st : stream) :
  talkStreamSetup st = true -> foscamStream st = true ->
  8000 < Z.pos (outgoingSampleRate st) ->
  Z.pos (outgoingSampleRate st) mod 8000 = 0 ->
  let fed := run_events scale st (AudioData <$> chunk :: chunks) in
  let once := audioDataInput scale st (mjoin (chunk :: chunks)) in
  audioBuffer fed.1 = audioBuffer (after once)
  ∧ frames_bytes fed.2 ++ buffered fed.1
    = frames_bytes (sent once) ++ buffered (after once)
  ∧ Forall (λ t, blength (frame t) = 960) fed.2.
Proof.
  revert chunk st. induction chunks as [|next chunks IH];
    intros chunk st Hactive Hsink Hlt Hmod fed once.
  - unfold fed, once. cbn [fmap list_fmap]. rewrite run_events_cons.
    cbn [mjoin list_join run_events foldl fst snd step]. rewrite !app_nil_r.
    split; [done|]. split; [done|]. apply audioDataInput_sent.
  - unfold fed, once. cbn [fmap list_fmap]. rewrite run_events_cons.
    cbn [step fst snd].
    destruct (audioDataInput_two_calls scale st chunk (mjoin (next :: chunks))
                Hactive Hsink Hlt Hmod) as (Ha1 & Hs1 & Hr1 & Hcarry & Hbytes).
    destruct (IH next (after (audioDataInput scale st chunk)) Ha1 Hs1
                ltac:(by rewrite Hr1) ltac:(by rewrite Hr1))
      as (IHcarry & IHbytes & IHframes).
    cbn [fmap list_fmap] in IHcarry, IHbytes, IHframes.
    change (mjoin (chunk :: next :: chunks))
      with (chunk ++ mjoin (next :: chunks)).
    split; [congruence|]. split.
    + rewrite <- Hbytes. unfold frames_bytes in *.
      rewrite !bind_app, <- !app_assoc. f_equal. exact IHbytes.
    + apply Forall_app. split; [apply audioDataInput_sent|done].
Qed.

Lemma chunks_fed_one_by_one_witness :
  let st := mkStream true true true true None None 16000 in
  let fed :=
    run_events (scale_exact 1) st
      (AudioData <$> [enc16 [100; 300; -100]; enc16 [100; 7]; enc16 [9]]) in
  let once :=
    audioDataInput (scale_exact 1) st
      (mjoin [enc16 [100; 300; -100]; enc16 [100; 7]; enc16 [9]]) in
  audioBuffer fed.1 = audioBuffer (after once)
  ∧ frames_bytes fed.2 ++ buffered fed.1
    = frames_bytes (sent once) ++ buffered (after once).
Proof.
  intros st fed once.
  destruct (chunks_fed_one_by_one (scale_exact 1) [enc16 [100; 7]; enc16 [9]]
              (enc16 [100; 300; -100]) st eq_refl eq_refl eq_refl eq_refl)
    as (H1 & H2 & _).
  split; [exact H1|exact H2].
Defined.

(** ** Streams that are not talking *)

Lemma step_speakerEnabled (scale : Z -> Z -> Z) (st : stream) (ev : event) :
  speakerEnabled (step scale st ev).1 = speakerEnabled st.
Proof.
  destruct ev as [rate|ok|request|samples]; cbn.
  - unfold prepareStream. by destruct (speakerEnabled st).
  - done.
  - destruct request; cbn; try done. by destruct (speakerEnabled st) eqn:E.
  - unfold audioDataInput. destruct (talkStreamSetup st); cbn; [|done].
    destruct (resample _ _ _ _) as [[output carry]| |]; cbn; try done.
    destruct (_ <? 960); cbn; [done|]. by destruct (foscamStream st).
Qed.

(** X5. A stream whose speaker is disabled never hands a frame to a talk
    stream, whatever is asked of it and whatever audio arrives, and it
    keeps neither carry nor output buffer. *)
Theorem speaker_disabled_never_sends (scale : Z -> Z -> Z) (st : stream)
    (frames : list talk_data) :
  reachable scale st frames ->
  speakerEnabled st = false ->
  frames = [] ∧ talkStreamSetup st = false ∧ foscamStream st = false
  ∧ audioBuffer st = None ∧ audioOutputBuffer st = None.
Proof.
  induction 1 as [enabled compression rate|st frames ev Hreach IH Hpossible];
    [by cbn|].
  intros Hoff. rewrite step_speakerEnabled in Hoff.
  destruct (IH Hoff) as (-> & Hidle & Hnull & Hcarry & Hout).
  destruct ev as [rate|ok|request|samples]; cbn.
  - unfold prepareStream. rewrite Hoff. by cbn.
  - cbn in Hpossible. congruence.
  - destruct request; cbn; try done. rewrite Hoff. done.
  - unfold audioDataInput. rewrite Hidle. by cbn.
Qed.

Lemma speaker_disabled_never_sends_witness :
  (run_events (scale_exact 1) (new_stream false true 16000)
     [PrepareStream 16000; StreamRequest (start 16); AudioData (alloc 3840)]).2
  = [].
Proof.
  assert (Hreach :
    reachable (scale_exact 1)
      (run_events (scale_exact 1) (new_stream false true 16000)
         [PrepareStream 16000; StreamRequest (start 16); AudioData (alloc 3840)]).1
      ([] ++ (run_events (scale_exact 1) (new_stream false true 16000)
         [PrepareStream 16000; StreamRequest (start 16); AudioData (alloc 3840)]).2)).
  { apply run_events_reachable; [apply reach_new|]. repeat constructor. }
  exact (proj1 (speaker_disabled_never_sends _ _ _ Hreach eq_refl)).
Defined.

(** X6. From the moment a stream is stopped, or from its creation, until
    the callback that says the talk stream has started, whatever else
    happens, audio that arrives is dropped: nothing is sent and nothing is
    kept in carry or output buffer. *)
Theorem nothing_kept_before_talk_stream_starts (scale : Z -> Z -> Z)
    (evs : list event) (st : stream) :
  talkStreamSetup st = false ->
  audioBuffer st = None -> audioOutputBuffer st = None ->
  forallb not_started evs = true ->
  ((run_events scale st evs).2 = []
   ∧ talkStreamSetup (run_events scale st evs).1 = false
   ∧ audioBuffer (run_events scale st evs).1 = None
   ∧ audioOutputBuffer (run_events scale st evs).1 = None)
  ∧ (∀ st0, speakerEnabled st0 = true ->
       talkStreamSetup (handleStreamRequest st0 stop) = false
       ∧ audioBuffer (handleStreamRequest st0 stop) = None
       ∧ audioOutputBuffer (handleStreamRequest st0 stop) = None).
Proof.
  intros Hidle Hcarry Hout Hevs. split.
  - revert st Hidle Hcarry Hout Hevs.
    induction evs as [|ev evs IH]; intros st Hidle Hcarry Hout Hevs; [done|].
    cbn in Hevs. apply andb_true_iff in Hevs as [Hev Hevs].
    rewrite run_events_cons. cbn [fst snd].
    assert ((step scale st ev).2 = []
            ∧ talkStreamSetup (step scale st ev).1 = false
            ∧ audioBuffer (step scale st ev).1 = None
            ∧ audioOutputBuffer (step scale st ev).1 = None)
      as (-> & Hidle' & Hcarry' & Hout').
    { destruct ev as [rate|[|]|request|samples]; cbn; try done.
      - unfold prepareStream. by destruct (speakerEnabled st).
      - destruct request; cbn; try done. by destruct (speakerEnabled st).
      - unfold audioDataInput. rewrite Hidle. by cbn. }
    by apply IH.
  - intros st0 Hon. cbn. by rewrite Hon.
Qed.

Lemma nothing_kept_before_talk_stream_starts_witness :
  (run_events (scale_exact 1)
     (handleStreamRequest (mkStream true true true true None (Some (alloc 100)) 16000)
        stop)
     [PrepareStream 16000; StreamRequest (start 16); AudioData (alloc 3840);
      TalkStreamStarted false; AudioData (alloc 3840)]).2
  = [].
Proof.
  apply (nothing_kept_before_talk_stream_starts (scale_exact 1)); reflexivity.
Defined.

(** * More properties of the control channel *)

Section MoreClientFacts.

Context {Authenticator : Type}.
Variable authenticate : string -> option Authenticator.
Variable auth_err : Authenticator -> option string.
Variable authorize : Authenticator -> string -> string -> string.

(** ** What [makeRequest] writes *)

Lemma makeRequest_written (st : client Authenticator) (opts : options) :
  ∃ req,
    written (makeRequest authorize st opts).1 = written st ++ [req]
    ∧ requests (makeRequest authorize st opts).1
      = <[cseq st := mkPending req (next_promise st)]> (requests st)
    ∧ cseq (makeRequest authorize st opts).1 = cseq st + 1
    ∧ method req = method opts ∧ uri req = uri opts
    ∧ header "CSeq" req = Some (HNum (cseq st))
    ∧ (∀ a, authenticator st = Some a ->
            header "Authorization" req
            = Some (HStr (authorize a (method opts) (uri opts))))
    ∧ (authenticator st = None ->
       header "Authorization" req = header "Authorization" opts)
    ∧ header "Session" req
      = match session st with
        | Some s =>
            if truthy_string s && negb (truthy truthy_hval (header "Session" opts))
            then Some (HStr s) else header "Session" opts
        | None => header "Session" opts
        end.
Proof.
  eexists. split; [reflexivity|]. split; [reflexivity|]. split; [reflexivity|].
  split; [reflexivity|]. split; [reflexivity|].
  unfold header. cbn [headers default from_option id].
  set (h0 := from_option id ∅ (headers opts)).
  set (h1 := <["CSeq" := HNum (cseq st)]> h0).
  set (h2 := match authenticator st with
             | Some a => <["Authorization" := HStr (authorize a (method opts) (uri opts))]> h1
             | None => h1
             end).
  assert (H2s : h2 !! "Session" = h0 !! "Session").
  { unfold h2, h1. destruct (authenticator st); by rewrite !lookup_insert_ne by done. }
  assert (H2c : h2 !! "CSeq" = Some (HNum (cseq st))).
  { unfold h2, h1. destruct (authenticator st);
      [rewrite lookup_insert_ne by done|]; apply lookup_insert_eq. }
  assert (Hs : ∀ key, key <> "Session" ->
    match session st with
    | Some s => if truthy_string s && negb (truthy truthy_hval (h2 !! "Session"))
                then <["Session" := HStr s]> h2 else h2
    | None => h2
    end !! key = h2 !! key).
  { intros key Hkey. repeat case_match; try done. by rewrite lookup_insert_ne. }
  split; [by rewrite Hs|]. split; [|split].
  - intros a Ha. rewrite Hs by done. unfold h2. rewrite Ha. apply lookup_insert_eq.
  - intros Ha. rewrite Hs by done. unfold h2, h1. rewrite Ha.
    by rewrite lookup_insert_ne.
  - rewrite H2s. destruct (session st) as [s|]; [|done].
    destruct (truthy_string s && negb (truthy truthy_hval (h0 !! "Session")));
      [apply lookup_insert_eq|done].
Qed.

(** ** Sequence numbers *)

Lemma numbered_delete (w : list options) (next : Z) (reqs : gmap Z pending) (n : Z) :
  numbered w next reqs -> numbered w next (delete n reqs).
Proof.
  intros (H1 & Hw & Hr). split; [done|]. split; [done|].
  intros k r [_ Hk]%lookup_delete_Some. by apply Hr.
Qed.

Lemma numbered_makeRequest (st : client Authenticator) (reqs : gmap Z pending)
    (opts : options) :
  numbered (written st) (cseq st) reqs ->
  requests st = reqs ->
  numbered (written (makeRequest authorize st opts).1)
    (cseq (makeRequest authorize st opts).1)
    (requests (makeRequest authorize st opts).1).
Proof.
  intros (H1 & Hw & Hr) <-.
  destruct (makeRequest_written st opts)
    as (req & -> & -> & -> & _ & _ & Hc & _).
  split; [lia|]. split.
  - rewrite fmap_app, Hw. cbn [fmap list_fmap]. rewrite Hc.
    replace (cseq st + 1 - 1) with ((cseq st - 1) + 1) by lia.
    rewrite seqZ_app by lia. rewrite fmap_app. f_equal.
    rewrite seqZ_cons, seqZ_nil by lia. cbn. do 3 f_equal. lia.
  - intros k r [[<- <-]|[Hne Hk]]%lookup_insert_Some.
    + split; [lia|done].
    + destruct (Hr _ _ Hk). split; [lia|done].
Qed.

Lemma numbered_done (st : client Authenticator) (n : Z) (request : pending)
    (resp : response) (data : buffer) :
  numbered (written st) (cseq st) (requests st) ->
  let st' := done authenticate auth_err authorize st n request resp data in
  numbered (written st') (cseq st') (requests st').
Proof.
  intros Hn. cbv zeta.
  pose proof (numbered_delete _ _ _ n Hn) as Hd.
  unfold done. repeat case_match; try exact Hd.
  apply (numbered_makeRequest
           (set_authenticator (set_requests st (delete n (requests st))) _)
           (delete n (requests st))); done.
Qed.

Lemma reject_all_written (err : error) (l : list (Z * pending))
    (st : client Authenticator) :
  written (foldl (reject_entry err) st l) = written st
  ∧ cseq (foldl (reject_entry err) st l) = cseq st
  ∧ session (foldl (reject_entry err) st l) = session st
  ∧ keepAliveInterval (foldl (reject_entry err) st l) = keepAliveInterval st
  ∧ timers (foldl (reject_entry err) st l) = timers st
  ∧ authenticator (foldl (reject_entry err) st l) = authenticator st
  ∧ sockets (foldl (reject_entry err) st l) = sockets st
  ∧ pendingReconnect (foldl (reject_entry err) st l) = pendingReconnect st.
Proof.
  revert st. induction l as [|entry l IH]; intros st; [done|].
  cbn [foldl]. destruct (IH (reject_entry err st entry))
    as (-> & -> & -> & -> & -> & -> & -> & ->). done.
Qed.

Lemma onError_fields (st : client Authenticator) (err : error) :
  written (onError st err) = written st
  ∧ cseq (onError st err) = cseq st
  ∧ session (onError st err) = session st
  ∧ keepAliveInterval (onError st err) = keepAliveInterval st
  ∧ timers (onError st err) = timers st
  ∧ authenticator (onError st err) = authenticator st.
Proof.
  unfold onError, reconnect.
  destruct (reject_all_written err (map_to_list (requests st)) st)
    as (Hw & Hc & Hs & Hk & Ht & Ha & _).
  by destruct (pendingReconnect _).
Qed.

Lemma numbered_step (st : client Authenticator) (ev : client_event) :
  numbered (written st) (cseq st) (requests st) ->
  let st' := client_step authenticate auth_err authorize st ev in
  numbered (written st') (cseq st') (requests st').
Proof.
  intros Hn. destruct ev; cbn [client_step].
  - by apply (numbered_makeRequest st (requests st)).
  - unfold teardown. cbn [fst]. cbv zeta.
    match goal with |- context [makeRequest _ _ ?o] =>
      pose proof (numbered_makeRequest st (requests st) o Hn eq_refl) as H end.
    exact H.
  - cbv zeta. unfold onResponse.
    destruct (parseInt_opt _) as [|n]; [done|].
    destruct (requests st !! n) as [request|]; [|done].
    assert (H1 : numbered (written (update_session st resp))
                   (cseq (update_session st resp))
                   (requests (update_session st resp))).
    { unfold update_session. by repeat case_match. }
    case_match; [done|]. by apply numbered_done.
  - by apply numbered_done.
  - cbv zeta. destruct (onError_fields st err) as (-> & -> & _).
    rewrite onError_requests. destruct Hn as (H1 & Hw & _).
    split; [done|]. split; [done|]. intros k r. by rewrite lookup_empty.
  - cbv zeta. destruct (onError_fields (set_pendingReconnect st false) err)
      as (-> & -> & _).
    rewrite onError_requests. destruct Hn as (H1 & Hw & _).
    split; [done|]. split; [done|]. intros k r. by rewrite lookup_empty.
  - done.
Qed.

Lemma reachable_numbered (st : client Authenticator) (waiting : list deferred) :
  client_reachable authenticate auth_err authorize st waiting ->
  numbered (written st) (cseq st) (requests st).
Proof.
  induction 1 as [|st waiting ev Hreach IH Hev].
  - split; [done|]. split; [done|]. intros k r. cbn. by rewrite lookup_empty.
  - by apply numbered_step.
Qed.

(** ** Session, timer and authenticator through [done] and the events *)

Lemma done_fields (st : client Authenticator) (n : Z) (request : pending)
    (resp : response) (data : buffer) :
  let st' := done authenticate auth_err authorize st n request resp data in
  session st' = session st
  ∧ keepAliveInterval st' = keepAliveInterval st
  ∧ timers st' = timers st
  ∧ sockets st' = sockets st
  ∧ pendingReconnect st' = pendingReconnect st.
Proof. cbv zeta. unfold done. by repeat case_match. Qed.

Lemma keepalive_newSession (st : client Authenticator) (s : string) :
  keepalive_consistent st -> keepalive_consistent (newSession st s).
Proof.
  unfold keepalive_consistent. cbn. intros H. exists (next_timer st).
  split; [done|]. destruct (session st) as [old|].
  - destruct H as (t & -> & ->). set_solver.
  - rewrite H. destruct (keepAliveInterval st); set_solver.
Qed.

Lemma keepalive_closeSession (st : client Authenticator) :
  keepalive_consistent st -> keepalive_consistent (closeSession st).
Proof.
  unfold keepalive_consistent. cbn. intros H. destruct (session st) as [old|].
  - destruct H as (t & -> & ->). set_solver.
  - rewrite H. destruct (keepAliveInterval st); set_solver.
Qed.

Lemma keepalive_same (st st' : client Authenticator) :
  session st' = session st -> keepAliveInterval st' = keepAliveInterval st ->
  timers st' = timers st ->
  keepalive_consistent st -> keepalive_consistent st'.
Proof. unfold keepalive_consistent. by intros -> -> ->. Qed.

Lemma keepalive_step (st : client Authenticator) (ev : client_event) :
  keepalive_consistent st ->
  keepalive_consistent (client_step authenticate auth_err authorize st ev).
Proof.
  intros Hk. destruct ev; cbn [client_step].
  - by apply (keepalive_same st).
  - unfold teardown. cbn [fst]. apply keepalive_closeSession.
    by apply (keepalive_same st).
  - unfold onResponse.
    destruct (parseInt_opt _) as [|n]; [done|].
    destruct (requests st !! n) as [request|]; [|done].
    assert (H1 : keepalive_consistent (update_session st resp)).
    { unfold update_session. repeat case_match; try done.
      by apply keepalive_newSession. }
    case_match; [done|]. cbn [fst].
    destruct (done_fields (update_session st resp) n request resp [])
      as (Hs & Hi & Ht & _).
    by apply (keepalive_same (update_session st resp)).
  - destruct (done_fields st (d_cseq d) (d_request d) (d_response d) data)
      as (Hs & Hi & Ht & _).
    by apply (keepalive_same st).
  - destruct (onError_fields st err) as (_ & _ & Hs & Hi & Ht & _).
    by apply (keepalive_same st).
  - destruct (onError_fields (set_pendingReconnect st false) err)
      as (_ & _ & Hs & Hi & Ht & _).
    by apply (keepalive_same st).
  - done.
Qed.

Lemma done_authorized (st : client Authenticator) (n : Z) (request : pending)
    (resp : response) (data : buffer) :
  is_Some (authenticator st) ->
  let st' := done authenticate auth_err authorize st n request resp data in
  is_Some (authenticator st')
  ∧ ∃ l, written st' = written st ++ l ∧ Forall authorized l.
Proof.
  intros Ha. cbv zeta. unfold done. repeat case_match.
  - split; [by eexists|]. exists []. by rewrite app_nil_r.
  - match goal with |- context [makeRequest _ ?s ?o] =>
      destruct (makeRequest_written s o)
        as (req & Hw & _ & _ & _ & _ & _ & Hauth & _) end.
    split; [by eexists|]. eexists [req]. split; [exact Hw|].
    repeat constructor. eexists. by apply Hauth.
  - split; [done|]. exists []. by rewrite app_nil_r.
  - split; [done|]. exists []. by rewrite app_nil_r.
  - split; [done|]. exists []. by rewrite app_nil_r.
Qed.

Lemma step_authorized (st : client Authenticator) (ev : client_event) :
  is_Some (authenticator st) ->
  let st' := client_step authenticate auth_err authorize st ev in
  is_Some (authenticator st')
  ∧ ∃ l, written st' = written st ++ l ∧ Forall authorized l.
Proof.
  intros Ha. cbv zeta.
  assert (Hnone : ∀ st' : client Authenticator,
    authenticator st' = authenticator st -> written st' = written st ->
    is_Some (authenticator st')
    ∧ ∃ l, written st' = written st ++ l ∧ Forall authorized l).
  { intros st' -> ->. split; [done|]. exists []. by rewrite app_nil_r. }
  assert (Hmake : ∀ opts,
    ∃ l, written (makeRequest authorize st opts).1 = written st ++ l
         ∧ Forall authorized l).
  { intros opts. destruct (makeRequest_written st opts)
      as (req & Hw & _ & _ & _ & _ & _ & Hauth & _).
    exists [req]. split; [done|]. repeat constructor.
    destruct Ha as [a Ha]. eexists. by apply Hauth. }
  destruct ev; cbn [client_step].
  - split; [done|]. apply Hmake.
  - unfold teardown. cbn [fst]. split; [done|]. apply Hmake.
  - unfold onResponse.
    destruct (parseInt_opt _) as [|n]; [by apply Hnone|].
    destruct (requests st !! n) as [request|]; [|by apply Hnone].
    assert (H1 : authenticator (update_session st resp) = authenticator st
                 ∧ written (update_session st resp) = written st).
    { unfold update_session. by repeat case_match. }
    destruct H1 as [H1a H1w].
    case_match; [by apply Hnone|]. cbn [fst].
    rewrite <- H1w. apply done_authorized. by rewrite H1a.
  - by apply done_authorized.
  - destruct (onError_fields st err) as (Hw & _ & _ & _ & _ & Hau).
    by apply Hnone.
  - destruct (onError_fields (set_pendingReconnect st false) err)
      as (Hw & _ & _ & _ & _ & Hau).
    by apply Hnone.
  - by apply Hnone.
Qed.

Lemma reachable_keepalive (st : client Authenticator) (waiting : list deferred) :
  client_reachable authenticate auth_err authorize st waiting ->
  keepalive_consistent st.
Proof.
  induction 1 as [|st waiting ev Hreach IH Hev]; [done|].
  by apply keepalive_step.
Qed.

(** ** Connection attempts *)

Lemma onError_attempts (st : client Authenticator) (err : error) :
  pendingReconnect (onError st err) = true
  ∧ sockets (onError st err) = (sockets st + attempts_left st)%nat.
Proof.
  unfold onError, reconnect, attempts_left.
  destruct (reject_all_written err (map_to_list (requests st)) st)
    as (_ & _ & _ & _ & _ & _ & Hs & Hp).
  rewrite <- Hp, <- Hs.
  destruct (pendingReconnect (foldl _ _ _)) eqn:E; cbn; (split; [done|lia]).
Qed.

Lemma step_attempts (st : client Authenticator) (ev : connection_event) :
  let st' := connection_step authenticate auth_err authorize st ev in
  (sockets st <= sockets st')%nat
  ∧ (sockets st' + attempts_left st'
     <= sockets st + attempts_left st + (if clears_pending ev then 1 else 0))%nat.
Proof.
  cbv zeta. destruct ev as [ev|]; cbn [connection_step clears_pending].
  2:{ unfold reconnect, attempts_left.
      destruct (pendingReconnect st) eqn:E; cbn; rewrite ?E; lia. }
  assert (Hsame : ∀ st' : client Authenticator,
    sockets st' = sockets st -> pendingReconnect st' = pendingReconnect st ->
    (sockets st <= sockets st')%nat
    ∧ (sockets st' + attempts_left st' <= sockets st + attempts_left st + 0)%nat).
  { intros st' Hs Hp. unfold attempts_left. rewrite Hs, Hp. lia. }
  destruct ev; cbn [client_step].
  - by apply Hsame.
  - by apply Hsame.
  - unfold onResponse.
    destruct (parseInt_opt _) as [|n]; [by apply Hsame|].
    destruct (requests st !! n) as [request|]; [|by apply Hsame].
    assert (H1 : sockets (update_session st resp) = sockets st
                 ∧ pendingReconnect (update_session st resp) = pendingReconnect st).
    { unfold update_session. by repeat case_match. }
    destruct H1 as [H1s H1p].
    case_match; [by apply Hsame|]. cbn [fst].
    destruct (done_fields (update_session st resp) n request resp [])
      as (_ & _ & _ & Hs & Hp).
    apply Hsame; congruence.
  - destruct (done_fields st (d_cseq d) (d_request d) (d_response d) data)
      as (_ & _ & _ & Hs & Hp).
    by apply Hsame.
  - destruct (onError_attempts st err) as [Hp Hs].
    assert (Hl : attempts_left (onError st err) = 0%nat)
      by (unfold attempts_left; by rewrite Hp).
    rewrite Hs, Hl. lia.
  - destruct (onError_attempts (set_pendingReconnect st false) err) as [Hp Hs].
    assert (Hl : attempts_left (onError (set_pendingReconnect st false) err)
                 = 0%nat)
      by (unfold attempts_left; by rewrite Hp).
    rewrite Hs, Hl. unfold attempts_left. cbn.
    destruct (pendingReconnect st); lia.
  - cbn. unfold attempts_left. cbn. destruct (pendingReconnect st); lia.
Qed.

End MoreClientFacts.

Section MoreClientClaims.

Context {Authenticator : Type}.
Variable authenticate : string -> option Authenticator.
Variable auth_err : Authenticator -> option string.
Variable authorize : Authenticator -> string -> string -> string.

(** X7. The requests a client has written carry the sequence numbers 1, 2,
    3, ... in the order they were written, no number twice, and
    [self.cseq] is the number the next request will carry; requests made
    by a call, a keepalive ping among them, retries after a challenge and
    TEARDOWN take their numbers from the same count. *)
Theorem sequence_numbers_in_order (st : client Authenticator)
    (waiting : list deferred) :
  client_reachable authenticate auth_err authorize st waiting ->
  header "CSeq" <$> written st
  = (λ n, Some (HNum n)) <$> seqZ 1 (Z.of_nat (length (written st)))
  ∧ cseq st = 1 + Z.of_nat (length (written st))
  ∧ (∀ i req, written st !! i = Some req ->
              header "CSeq" req = Some (HNum (1 + Z.of_nat i)))
  ∧ (∀ i j req req', written st !! i = Some req -> written st !! j = Some req' ->
                     header "CSeq" req = header "CSeq" req' -> i = j).
Proof.
  intros Hreach.
  destruct (reachable_numbered authenticate auth_err authorize st waiting Hreach)
    as (H1 & Hw & _).
  assert (Hlen : cseq st = 1 + Z.of_nat (length (written st))).
  { apply (f_equal length) in Hw. rewrite !length_fmap, length_seqZ in Hw. lia. }
  assert (Hat : ∀ i req, written st !! i = Some req ->
                         header "CSeq" req = Some (HNum (1 + Z.of_nat i))).
  { intros i req Hi.
    assert ((header "CSeq" <$> written st) !! i = Some (header "CSeq" req))
      as Hf by (by rewrite list_lookup_fmap, Hi).
    rewrite Hw, list_lookup_fmap in Hf.
    pose proof (lookup_lt_Some _ _ _ Hi).
    rewrite lookup_seqZ_lt in Hf by lia. cbn in Hf. congruence. }
  split; [|split; [done|split; [done|]]].
  - rewrite Hw. do 2 f_equal. lia.
  - intros i j req req' Hi Hj Heq.
    rewrite (Hat _ _ Hi), (Hat _ _ Hj) in Heq. injection Heq. lia.
Qed.

(** X8. Every entry of [self.requests] sits under a sequence number the
    client has issued, the one its request was written with; so a response
    whose CSeq header is missing, is no number, or is a number the client
    has not issued is dropped: the client stays as it is, session header
    and all, and no [done] is left waiting. *)
Theorem unissued_response_dropped (st : client Authenticator)
    (waiting : list deferred) (resp : response) :
  client_reachable authenticate auth_err authorize st waiting ->
  (∀ k request, requests st !! k = Some request ->
     1 <= k < cseq st ∧ header "CSeq" (p_options request) = Some (HNum k))
  ∧ (match parseInt_opt (rheaders resp !! "cseq") with
     | NaN => True
     | Num n => n < 1 ∨ cseq st <= n
     end ->
     onResponse authenticate auth_err authorize st resp = (st, None)).
Proof.
  intros Hreach.
  destruct (reachable_numbered authenticate auth_err authorize st waiting Hreach)
    as (_ & _ & Hr).
  split; [done|]. intros Hn. unfold onResponse.
  destruct (parseInt_opt _) as [|n]; [done|].
  destruct (requests st !! n) as [request|] eqn:E; [|done].
  destruct (Hr _ _ E). lia.
Qed.

(** X9. A response that comes after a transport failure, to a request the
    failure rejected, is dropped: [onError] left no entry to match it. *)
Theorem late_response_after_failure_dropped (st : client Authenticator)
    (err : error) (resp : response) :
  onResponse authenticate auth_err authorize (onError st err) resp
  = (onError st err, None)
  ∧ ∀ n request, is_pending st n request ->
      promises (onResponse authenticate auth_err authorize
                  (onError st err) resp).1 !! p_handle request
      = Some (Rejected err).
Proof.
  assert (H : onResponse authenticate auth_err authorize (onError st err) resp
              = (onError st err, None)).
  { unfold onResponse. rewrite onError_requests.
    destruct (parseInt_opt _); [done|]. by rewrite lookup_empty. }
  split; [done|]. intros n request [Hreq Hp]. rewrite H. cbn [fst].
  unfold onError. rewrite reconnect_promises.
  apply reject_all_pending with (k := n); [|done].
  by apply elem_of_map_to_list.
Qed.

(** X10. [done] looks at no status but 401 and 403: a response with any
    other status, a 403 to a request without Authorization header, and a
    401 without challenge to such a request, all fulfil the promise with
    the response and its body; nothing is written and the authenticator
    stays. *)
Theorem other_statuses_fulfil (st : client Authenticator) (n : Z)
    (request : pending) (resp : response) (data : buffer) :
  is_pending st n request ->
  (statusCode resp <> 401 ∧ statusCode resp <> 403)
  ∨ (truthy truthy_hval (header "Authorization" (p_options request)) = false
     ∧ (statusCode resp = 403
        ∨ truthy truthy_string (rheaders resp !! "www-authenticate") = false)) ->
  let st' := done authenticate auth_err authorize st n request resp data in
  promises st' !! p_handle request = Some (Fulfilled (mkResult resp data))
  ∧ written st' = written st
  ∧ requests st' = delete n (requests st)
  ∧ authenticator st' = authenticator st.
Proof.
  intros [Hreq Hp] Hcase st'.
  assert (st' = resolve (set_requests st (delete n (requests st)))
                  (p_handle request) (mkResult resp data)) as ->.
  { unfold st', done, header in *.
    destruct Hcase as [[H1 H3]|[Hplain [H3|Hno]]].
    - rewrite (proj2 (Z.eqb_neq _ _) H1), (proj2 (Z.eqb_neq _ _) H3). done.
    - rewrite Hplain, H3. done.
    - rewrite Hplain, Hno. cbn [negb]. by rewrite !andb_false_r. }
  cbn. split; [by apply settle_pending|done].
Qed.

(** X11. A 401 or 403 answer to a request that carried an Authorization
    header rejects the request with the error 'Authentication failed.';
    no retry is written, the authenticator stays, and the rejection stands
    whatever happens later. *)
Theorem rejected_credentials_not_retried (st : client Authenticator) (n : Z)
    (request : pending) (resp : response) (data : buffer) :
  allocated st ->
  is_pending st n request ->
  statusCode resp = 401 ∨ statusCode resp = 403 ->
  truthy truthy_hval (header "Authorization" (p_options request)) = true ->
  let st' := done authenticate auth_err authorize st n request resp data in
  promises st' !! p_handle request
  = Some (Rejected (AuthenticationError "Authentication failed."))
  ∧ written st' = written st
  ∧ requests st' = delete n (requests st)
  ∧ authenticator st' = authenticator st
  ∧ ∀ evs fuel,
      observe fuel
        (promises (client_run authenticate auth_err authorize st' evs))
        (p_handle request)
      = Rejected (AuthenticationError "Authentication failed.").
Proof.
  intros Halloc [Hreq Hp] Hstatus Hauth st'.
  assert (Hlater : later st st') by apply later_done, Halloc.
  assert (st' = reject (set_requests st (delete n (requests st)))
                  (p_handle request)
                  (AuthenticationError "Authentication failed.")) as Hst.
  { unfold st', done, header in *. rewrite Hauth.
    assert (((statusCode resp =? 401) || (statusCode resp =? 403)) = true)
      as -> by (destruct Hstatus as [-> | ->]; done).
    cbn [negb andb]. by rewrite andb_false_r. }
  assert (Hrej : promises st' !! p_handle request
                 = Some (Rejected (AuthenticationError "Authentication failed."))).
  { rewrite Hst. cbn. by apply settle_pending. }
  split; [done|]. split; [by rewrite Hst|]. split; [by rewrite Hst|].
  split; [by rewrite Hst|]. intros evs fuel.
  destruct (later_run authenticate auth_err authorize evs st')
    as (_ & _ & Hkeep); [apply Hlater|].
  destruct fuel; cbn; by rewrite (Hkeep _ _ Hrej).
Qed.

(** X12. Once the client has an authenticator it has one for good, and
    every request it writes from then on, whatever the call it comes from,
    carries an Authorization header. *)
Theorem authenticator_kept (evs : list client_event) (st : client Authenticator) :
  is_Some (authenticator st) ->
  let st' := client_run authenticate auth_err authorize st evs in
  is_Some (authenticator st')
  ∧ ∃ l, written st' = written st ++ l ∧ Forall authorized l.
Proof.
  revert st. induction evs as [|ev evs IH]; intros st Ha.
  - cbn. split; [done|]. exists []. by rewrite app_nil_r.
  - cbn [client_run foldl].
    destruct (step_authorized authenticate auth_err authorize st ev Ha)
      as (Ha1 & l1 & Hw1 & Hl1).
    destruct (IH _ Ha1) as (Ha2 & l2 & Hw2 & Hl2).
    split; [done|]. exists (l1 ++ l2). unfold client_run in Hw2.
    rewrite Hw2, Hw1, app_assoc. split; [done|]. by apply Forall_app.
Qed.

(** X13. In every state of a client one keepalive timer runs while there
    is a session, the one [self.keepAliveInterval] holds, and none runs
    while there is none: replacing a session stops the timer of the old
    one, and no timer is left behind by a teardown. *)
Theorem keepalive_timer_follows_session (st : client Authenticator)
    (waiting : list deferred) :
  client_reachable authenticate auth_err authorize st waiting ->
  (session st = None <-> timers st = ∅)
  ∧ (∀ s, session st = Some s ->
          ∃ t, keepAliveInterval st = Some t ∧ timers st = {[ t ]})
  ∧ (size (timers st) <= 1)%nat.
Proof.
  intros Hreach.
  pose proof (reachable_keepalive authenticate auth_err authorize st waiting
                Hreach) as Hk.
  unfold keepalive_consistent in Hk. destruct (session st) as [s|].
  - destruct Hk as (t & Hi & Ht). split; [|split].
    + split; [done|]. rewrite Ht. intros Hempty.
      assert (t ∈ (∅ : gset nat)) by (rewrite <- Hempty; set_solver).
      set_solver.
    + intros s' _. by exists t.
    + rewrite Ht, size_singleton. lia.
  - split; [done|]. split; [done|]. rewrite Hk, size_empty. lia.
Qed.

(** X14. [teardown()] writes one TEARDOWN request, with the session the
    client has at the call as its Session header, null when it has none.
    Afterwards the client has no session, no keepalive timer runs, and a
    request made without a Session header is written without one. *)
Theorem teardown_closes_session (st : client Authenticator)
    (waiting : list deferred) (sanitizedURI : string) :
  client_reachable authenticate auth_err authorize st waiting ->
  let st' := (teardown authorize st sanitizedURI).1 in
  (∃ req, written st' = written st ++ [req]
          ∧ method req = "TEARDOWN" ∧ uri req = sanitizedURI
          ∧ header "CSeq" req = Some (HNum (cseq st))
          ∧ header "Session" req
            = Some (match session st with Some s => HStr s | None => HNull end))
  ∧ session st' = None
  ∧ timers st' = ∅
  ∧ ∀ opts, header "Session" opts = None ->
      ∃ req, written (makeRequest authorize st' opts).1 = written st' ++ [req]
             ∧ header "Session" req = None.
Proof.
  intros Hreach st'.
  pose proof (reachable_keepalive authenticate auth_err authorize st waiting
                Hreach) as Hk.
  set (opts := mkOptions "TEARDOWN" sanitizedURI
                 (Some {[ "Session" := match session st with
                                       | Some s => HStr s
                                       | None => HNull
                                       end ]})).
  destruct (makeRequest_written authorize st opts)
    as (req & Hw & _ & _ & Hm & Hu & Hc & _ & _ & Hs).
  assert (Hst' : st' = closeSession (makeRequest authorize st opts).1) by done.
  split; [|split; [|split]].
  - exists req. rewrite Hst'. cbn [written closeSession].
    split; [exact Hw|]. split; [exact Hm|]. split; [exact Hu|].
    split; [exact Hc|]. rewrite Hs.
    assert (Hh : header "Session" opts
                 = Some (match session st with
                         | Some s => HStr s
                         | None => HNull
                         end))
      by (unfold header, opts; cbn [headers default from_option id];
          apply lookup_singleton_eq).
    rewrite Hh. destruct (session st) as [s|]; [|done].
    cbn. destruct (truthy_string s); cbn; done.
  - by rewrite Hst'.
  - assert (Hk' : keepalive_consistent st').
    { rewrite Hst'. apply keepalive_closeSession.
      by apply (keepalive_same st). }
    unfold keepalive_consistent in Hk'. by rewrite Hst' in Hk' |- *.
  - intros o Ho.
    destruct (makeRequest_written authorize st' o)
      as (req' & Hw' & _ & _ & _ & _ & _ & _ & _ & Hs').
    exists req'. split; [exact Hw'|]. rewrite Hs', Hst'. cbn [session closeSession].
    exact Ho.
Qed.

(** X15. [reconnect()] opens a socket exactly when
    [self.pendingReconnect] is null, and sets it.  The field is cleared by
    the connect callback and by the error handler of a socket, whichever
    socket it belongs to, and that handler calls [reconnect()] right after:
    so every socket error opens a socket, also while another attempt is in
    flight.  Over any run of calls and events, calls of [reconnect()] from
    [getSDP] among them, the sockets opened are at most the events that
    clear the field, and one more if it was null at the start; and while it
    is set, a run without such an event opens none, whatever decoder
    errors and calls of [reconnect()] it has. *)
Theorem sockets_follow_pendingReconnect (evs : list connection_event)
    (st : client Authenticator) :
  let st' := connection_run authenticate auth_err authorize st evs in
  (pendingReconnect st = true -> reconnect st = st)
  ∧ (pendingReconnect st = false ->
     sockets (reconnect st) = S (sockets st)
     ∧ pendingReconnect (reconnect st) = true)
  ∧ (∀ err,
       sockets (client_step authenticate auth_err authorize st
                  (On_socket_error err)) = S (sockets st)
       ∧ pendingReconnect (client_step authenticate auth_err authorize st
                             (On_socket_error err)) = true)
  ∧ (sockets st <= sockets st')%nat
  ∧ (sockets st' + attempts_left st'
     <= sockets st + attempts_left st + cleared evs)%nat
  ∧ (cleared evs = 0%nat -> pendingReconnect st = true ->
     sockets st' = sockets st ∧ pendingReconnect st' = true).
Proof.
  cbv zeta.
  assert (H : (sockets st
               <= sockets (connection_run authenticate auth_err authorize st evs))%nat
    ∧ (sockets (connection_run authenticate auth_err authorize st evs)
       + attempts_left (connection_run authenticate auth_err authorize st evs)
       <= sockets st + attempts_left st + cleared evs)%nat).
  { revert st. induction evs as [|ev evs IH]; intros st; [cbn; lia|].
    cbn [connection_run foldl].
    destruct (step_attempts authenticate auth_err authorize st ev) as [H1 H2].
    destruct (IH (connection_step authenticate auth_err authorize st ev)) as [H3 H4].
    unfold connection_run in H3, H4. unfold cleared in *. cbn [List.filter].
    destruct (clears_pending ev); cbn [length]; lia. }
  destruct H as [H1 H2].
  split; [|split; [|split; [|split; [done|split; [done|]]]]].
  - intros Hp. unfold reconnect. by rewrite Hp.
  - intros Hp. unfold reconnect. by rewrite Hp.
  - intros err. cbn [client_step].
    destruct (onError_attempts (set_pendingReconnect st false) err) as [Hp Hs].
    rewrite Hp, Hs. split; [|done]. unfold attempts_left. cbn. lia.
  - intros H0 Hp. rewrite H0 in H2. unfold attempts_left in H2 at 2.
    rewrite Hp in H2. split; [lia|].
    unfold attempts_left in H2.
    destruct (pendingReconnect (connection_run _ _ _ _ _)); [done|lia].
Qed.

End MoreClientClaims.

Lemma reachable_one_pending :
  client_reachable basic_authenticate basic_err basic_authorize one_pending [].
Proof.
  exact (client_reach_step _ basic_authenticate basic_err basic_authorize
           new_client []
           (Call_makeRequest (mkOptions "DESCRIBE" "rtsp://camera/videoMain" None))
           (client_reach_new _ _ _ _) I).
Qed.

Lemma reachable_two_pending :
  client_reachable basic_authenticate basic_err basic_authorize two_pending [].
Proof.
  exact (client_reach_step _ basic_authenticate basic_err basic_authorize
           one_pending []
           (Call_makeRequest (mkOptions "GET_PARAMETER" "rtsp://camera/videoMain" None))
           reachable_one_pending I).
Qed.

Lemma reachable_challenged :
  client_reachable basic_authenticate basic_err basic_authorize challenged [].
Proof.
  exact (client_reach_step _ basic_authenticate basic_err basic_authorize
           one_pending [] (On_response _) reachable_one_pending I).
Qed.

Lemma reachable_established :
  client_reachable basic_authenticate basic_err basic_authorize established [].
Proof.
  exact (client_reach_step _ basic_authenticate basic_err basic_authorize
           challenged [] (On_response _) reachable_challenged I).
Qed.

Lemma sequence_numbers_in_order_witness :
  header "CSeq" <$> written challenged = [Some (HNum 1); Some (HNum 2)]
  ∧ cseq challenged = 3.
Proof.
  destruct (sequence_numbers_in_order basic_authenticate basic_err
              basic_authorize challenged [] reachable_challenged)
    as (H & Hc & _).
  split; [exact H|exact Hc].
Defined.

Lemma unissued_response_dropped_witness :
  onResponse basic_authenticate basic_err basic_authorize challenged
    (mkResponse 200 {[ "cseq" := "7"; "session" := "ABCD" ]})
  = (challenged, None).
Proof.
  apply (proj2 (unissued_response_dropped basic_authenticate basic_err
                  basic_authorize challenged []
                  (mkResponse 200 {[ "cseq" := "7"; "session" := "ABCD" ]})
                  reachable_challenged)).
  right. vm_compute. intros H. discriminate H.
Defined.

Lemma other_statuses_fulfil_witness :
  let request :=
    mkPending (mkOptions "DESCRIBE" "rtsp://camera/videoMain"
                 (Some {[ "CSeq" := HNum 1 ]})) 0 in
  let resp := mkResponse 404 {[ "cseq" := "1" ]} in
  promises (done basic_authenticate basic_err basic_authorize one_pending 1
              request resp []) !! 0%nat
  = Some (Fulfilled (mkResult resp [])).
Proof.
  intros request resp.
  assert (Hpending : is_pending one_pending 1 request)
    by (split; vm_compute; reflexivity).
  assert (Hstatus : statusCode resp <> 401 ∧ statusCode resp <> 403)
    by (split; intros H; discriminate H).
  exact (proj1 (other_statuses_fulfil basic_authenticate basic_err
                  basic_authorize one_pending 1 request resp [] Hpending
                  (or_introl Hstatus))).
Defined.

Lemma rejected_credentials_not_retried_witness :
  let request :=
    mkPending (mkOptions "DESCRIBE" "rtsp://camera/videoMain"
                 (Some {[ "CSeq" := HNum 2;
                          "Authorization" := HStr "Basic YWRtaW46" ]})) 1 in
  let resp :=
    mkResponse 401
      {[ "cseq" := "2"; "www-authenticate" := "Basic realm=camera" ]} in
  let st' :=
    done basic_authenticate basic_err basic_authorize challenged 2 request
      resp [] in
  promises st' !! 1%nat
  = Some (Rejected (AuthenticationError "Authentication failed."))
  ∧ written st' = written challenged.
Proof.
  intros request resp st'.
  assert (Hreq : requests challenged !! 2 = Some request)
    by (vm_compute; reflexivity).
  destruct (reachable_pending basic_authenticate basic_err basic_authorize
              challenged [] 2 request reachable_challenged Hreq) as [Ha Hp].
  destruct (rejected_credentials_not_retried basic_authenticate basic_err
              basic_authorize challenged 2 request resp [] Ha Hp
              (or_introl eq_refl) eq_refl) as (H1 & H2 & _).
  split; [exact H1|exact H2].
Defined.

Lemma authenticator_kept_witness :
  let st' :=
    client_run basic_authenticate basic_err basic_authorize challenged
      [On_decoder_error (TransportFailure "ECONNRESET");
       Call_makeRequest (mkOptions "PLAY" "rtsp://camera/videoMain" None)] in
  is_Some (authenticator st')
  ∧ ∃ l, written st' = written challenged ++ l ∧ Forall authorized l.
Proof.
  apply (authenticator_kept basic_authenticate basic_err basic_authorize
           [On_decoder_error (TransportFailure "ECONNRESET");
            Call_makeRequest (mkOptions "PLAY" "rtsp://camera/videoMain" None)]
           challenged).
  vm_compute. eexists. reflexivity.
Defined.

Lemma keepalive_timer_follows_session_witness :
  session established = Some "ABCD"
  ∧ ∃ t, keepAliveInterval established = Some t ∧ timers established = {[ t ]}.
Proof.
  assert (Hs : session established = Some "ABCD") by (vm_compute; reflexivity).
  split; [exact Hs|].
  destruct (keepalive_timer_follows_session basic_authenticate basic_err
              basic_authorize established [] reachable_established)
    as (_ & H & _).
  exact (H _ Hs).
Defined.

Lemma teardown_closes_session_witness :
  let st' := (teardown basic_authorize established "rtsp://camera/videoMain").1 in
  (∃ req, written st' = written established ++ [req]
          ∧ method req = "TEARDOWN"
          ∧ header "Session" req = Some (HStr "ABCD"))
  ∧ session st' = None ∧ timers st' = ∅.
Proof.
  intros st'.
  destruct (teardown_closes_session basic_authenticate basic_err
              basic_authorize established [] "rtsp://camera/videoMain"
              reachable_established)
    as ((req & Hw & Hm & _ & _ & Hs) & Hn & Ht & _).
  split; [|split; [exact Hn|exact Ht]].
  exists req. split; [exact Hw|]. split; [exact Hm|exact Hs].
Defined.

(** ** Numbers that [parseInt] reads from a piece of a split string *)

Lemma split_pieces (sep : ascii) (s : string) :
  Forall (λ piece, contains sep piece = false) (split sep s).
Proof.
  induction s as [|c s IH]; cbn; [by repeat constructor|].
  destruct (Ascii.eqb c sep) eqn:E.
  - constructor; [done|exact IH].
  - destruct (split sep s) as [|first others].
    + repeat constructor. cbn. by rewrite E.
    + inversion IH; subst. constructor; [cbn; by rewrite E|done].
Qed.

Lemma digit_nonneg (radix : Z) (c : ascii) (d : Z) :
  digit radix c = Some d -> 0 <= d.
Proof.
  unfold digit. set (n := Z.of_nat (nat_of_ascii c)).
  destruct ((48 <=? n) && (n <=? 57)) eqn:E1.
  { apply andb_true_iff in E1 as [?%Z.leb_le ?%Z.leb_le].
    destruct (_ <? radix); intros [= <-]; lia. }
  destruct ((97 <=? n) && (n <=? 122)) eqn:E2.
  { apply andb_true_iff in E2 as [?%Z.leb_le ?%Z.leb_le].
    destruct (_ <? radix); intros [= <-]; lia. }
  destruct ((65 <=? n) && (n <=? 90)) eqn:E3; [|done].
  apply andb_true_iff in E3 as [?%Z.leb_le ?%Z.leb_le].
  destruct (_ <? radix); intros [= <-]; lia.
Qed.

Lemma digits_nonneg (radix : Z) (s : string) (acc : option Z) (n : Z) :
  0 <= radix -> (∀ a, acc = Some a -> 0 <= a) ->
  digits radix s acc = Some n -> 0 <= n.
Proof.
  intros Hr. revert acc. induction s as [|c s IH]; intros acc Hacc; cbn.
  - intros ->. by apply Hacc.
  - destruct (digit radix c) as [d|] eqn:E; [|intros ->; by apply Hacc].
    apply IH. intros a [= <-]. apply digit_nonneg in E.
    assert (0 <= default 0 acc) by (destruct acc; cbn; [by apply Hacc|lia]).
    nia.
Qed.

Lemma trim_start_contains (sep : ascii) (s : string) :
  contains sep s = false -> contains sep (trim_start s) = false.
Proof.
  induction s as [|c s IH]; [done|]. cbn.
  destruct (Ascii.eqb c sep) eqn:E; [done|]. cbn. intros H.
  destruct (is_white_space c); [by apply IH|]. cbn. by rewrite E.
Qed.

Lemma parseInt_nonneg (s : string) (n : Z) :
  contains "-" s = false -> parseInt s = Num n -> 0 <= n.
Proof.
  intros H%trim_start_contains. unfold parseInt.
  destruct (trim_start s) as [|c t]; [done|].
  revert H. repeat case_match; simplify_eq; try done;
    intros _ [= <-];
    match goal with
    | H : digits _ _ None = Some _ |- _ =>
        apply digits_nonneg in H; [lia|lia|done]
    end.
Qed.

(** ** The ports [setup] reads *)

Lemma parse_value_ports (acc : parsed) (value : string) :
  (∀ n, acc.1.2 = Some (Num n) -> 0 <= n) ->
  (∀ n, acc.2 = Some (Num n) -> 0 <= n) ->
  (∀ n, (parse_value acc value).1.2 = Some (Num n) -> 0 <= n)
  ∧ (∀ n, (parse_value acc value).2 = Some (Num n) -> 0 <= n).
Proof.
  destruct acc as [[src rtp] rtcp]. cbn [fst snd]. intros Hrtp Hrtcp.
  unfold parse_value.
  destruct (split_limit "=" 2 value) as [|key [|val [|]]]; try done.
  destruct (String.eqb key "server_port"); [|by destruct (String.eqb key "source")].
  unfold split_limit. pose proof (split_pieces "-" val) as Hpieces.
  destruct (split "-" val) as [|p0 [|p1 rest]]; cbn.
  - done.
  - apply Forall_cons in Hpieces as [H0 _].
    split; intros n [= Hn]; by apply (parseInt_nonneg p0).
  - apply Forall_cons in Hpieces as [H0 [H1 _]%Forall_cons].
    split; intros n [= Hn]; [by apply (parseInt_nonneg p0)|by apply (parseInt_nonneg p1)].
Qed.

Lemma parse_values_ports (values : list string) (acc : parsed) :
  (∀ n, acc.1.2 = Some (Num n) -> 0 <= n) ->
  (∀ n, acc.2 = Some (Num n) -> 0 <= n) ->
  (∀ n, (foldl parse_value acc values).1.2 = Some (Num n) -> 0 <= n)
  ∧ (∀ n, (foldl parse_value acc values).2 = Some (Num n) -> 0 <= n).
Proof.
  revert acc. induction values as [|value values IH]; intros acc H1 H2; [done|].
  cbn [foldl]. destruct (parse_value_ports acc value H1 H2). by apply IH.
Qed.

Section MoreTransportClaims.

Variable isV4Format : string -> bool.
Variable isV6Format : string -> bool.
Variable dns_resolve : string -> dns_answer.

(** X16. Whenever the promise [setup] returns is fulfilled, the request
    was fulfilled with a response whose Transport header gave a source
    that is not empty and two ports, and what it is fulfilled with has
    those ports, both greater than zero, and as source the one of the
    header when that is a literal address, otherwise the first address the
    resolver found for it. *)
Theorem setup_fulfils_with_usable_transport (request : pstate)
    (t : transport_result) :
  setup_settles isV4Format isV6Format dns_resolve request = Fulfils t ->
  ∃ resp data transport host,
    request = Fulfilled (mkResult resp data)
    ∧ rheaders resp !! "transport" = Some transport
    ∧ parse_transport transport
      = (Some host, Some (Num (rtpPort t)), Some (Num (rtcpPort t)))
    ∧ host <> "" ∧ 0 < rtpPort t ∧ 0 < rtcpPort t
    ∧ if isV4Format host || isV6Format host then source t = host
      else ∃ others, dns_resolve host = DnsAddresses (source t :: others).
Proof.
  destruct request as [| [resp data] | |]; cbn [setup_settles]; try done.
  unfold setup_then. cbn [res_response].
  destruct (rheaders resp !! "transport") as [transport|] eqn:Hheader; [|done].
  destruct (negb (truthy_string transport)); [done|].
  destruct (parse_values_ports (split ";" transport) (None, None, None))
    as [Hrtp Hrtcp]; [done..|].
  fold (parse_transport transport) in Hrtp, Hrtcp.
  destruct (parse_transport transport) as [[src rtp] rtcp] eqn:Hparsed.
  cbn [fst snd] in Hrtp, Hrtcp.
  destruct (truthy truthy_string src && truthy truthy_number rtp
            && truthy truthy_number rtcp) eqn:Htruthy; [|done].
  apply andb_true_iff in Htruthy as [[Hs Hp]%andb_true_iff Hc].
  destruct src as [host|]; [|done].
  destruct rtp as [[|rtp]|]; try done. destruct rtcp as [[|rtcp]|]; try done.
  cbn in Hs, Hp, Hc.
  assert (host <> "") by (intros ->; done).
  assert (0 < rtp) by (specialize (Hrtp rtp eq_refl); destruct (rtp =? 0) eqn:E; [done|]; apply Z.eqb_neq in E; lia).
  assert (0 < rtcp) by (specialize (Hrtcp rtcp eq_refl); destruct (rtcp =? 0) eqn:E; [done|]; apply Z.eqb_neq in E; lia).
  destruct (isV4Format host || isV6Format host) eqn:Hliteral.
  - intros [= <-]. exists resp, data, transport, host. cbn. by rewrite Hliteral.
  - unfold resolved. destruct (dns_resolve host) as [err|[|address others]] eqn:Hdns;
      try done.
    intros [= <-]. exists resp, data, transport, host. cbn. rewrite Hliteral.
    repeat split; try done. by exists others.
Qed.

End MoreTransportClaims.

Lemma setup_fulfils_with_usable_transport_witness :
  ∃ resp data transport host,
    Fulfilled
      (mkResult
         (mkResponse 200
            {[ "transport" := "RTP/AVP;unicast;server_port=6970-6971;source=192.0.2.5" ]})
         [])
    = Fulfilled (mkResult resp data)
    ∧ rheaders resp !! "transport" = Some transport
    ∧ parse_transport transport = (Some host, Some (Num 6970), Some (Num 6971))
    ∧ host <> "" ∧ 0 < 6970 ∧ 0 < 6971
    ∧ if dotted_quad host || no_format host then "192.0.2.5" = host
      else ∃ others, dns_not_found host = DnsAddresses ("192.0.2.5" :: others).
Proof.
  apply (setup_fulfils_with_usable_transport dotted_quad no_format dns_not_found
           (Fulfilled
              (mkResult
                 (mkResponse 200
                    {[ "transport" := "RTP/AVP;unicast;server_port=6970-6971;source=192.0.2.5" ]})
                 []))
           (mkTransport "192.0.2.5" 6970 6971)).
  vm_compute. reflexivity.
Defined.

(** * The video parameters given to the camera *)

Lemma closestBitRate_loop (bitRate : Z) (list : list Z) :
  match foldl (closer bitRate) (None, None) list with
  | (None, None) => list = []
  | (Some closest, Some closestDiff) =>
      closestDiff = Z.abs (bitRate - closest)
      ∧ ∃ before after,
          list = before ++ closest :: after
          ∧ Forall (λ rate, Z.abs (bitRate - closest) < Z.abs (bitRate - rate)) before
          ∧ Forall (λ rate, Z.abs (bitRate - closest) <= Z.abs (bitRate - rate)) after
  | _ => False
  end.
Proof.
  induction list as [|rate list IH] using rev_ind; [done|].
  rewrite foldl_app. cbn [foldl].
  destruct (foldl (closer bitRate) (None, None) list) as [[closest|] [closestDiff|]];
    try done.
  - destruct IH as (-> & before & after & -> & Hbefore & Hafter).
    unfold closer. destruct (_ >? _) eqn:E.
    + split; [done|]. exists (before ++ closest :: after), [].
      split; [done|]. split; [|constructor].
      apply Z.gtb_lt in E.
      apply Forall_app. split; [|constructor].
      * eapply Forall_impl; [exact Hbefore|]. cbn. lia.
      * lia.
      * eapply Forall_impl; [exact Hafter|]. cbn. lia.
    + split; [done|]. exists before, (after ++ [rate]).
      split; [by rewrite <- app_assoc|]. split; [done|].
      apply Forall_app. split; [done|]. repeat constructor.
      destruct (Z.gtb_spec (Z.abs (bitRate - closest)) (Z.abs (bitRate - rate)));
        [done|lia].
  - subst. cbn. split; [done|]. exists [], []. by repeat constructor.
Qed.

Lemma closestBitRate_nearest (list : list Z) (wanted : Z) :
  list <> [] -> ∃ rate, closestBitRate list wanted = Some rate
                        ∧ nearest list wanted rate.
Proof.
  intros Hlist. unfold closestBitRate.
  pose proof (closestBitRate_loop wanted list) as H.
  destruct (foldl (closer wanted) (None, None) list) as [[closest|] [closestDiff|]];
    try done.
  destruct H as (_ & before & after & -> & Hbefore & Hafter).
  exists closest. split; [done|]. split; [set_solver|].
  intros other Hother. rewrite Forall_forall in Hbefore, Hafter.
  apply elem_of_app in Hother as [Hother|Hother].
  - specialize (Hbefore _ Hother). cbn in Hbefore. lia.
  - apply elem_of_cons in Hother as [->|Hother]; [lia|]. by apply Hafter.
Qed.

(** X17. [closestBitRate] returns null for an empty list only; for any
    other list it returns a rate of the list that no rate of the list is
    closer to the wanted one than, and among equally close rates the one
    that comes first in the list. *)
Theorem closestBitRate_first_nearest (list : list Z) (wanted : Z) :
  (closestBitRate list wanted = None <-> list = [])
  ∧ ∀ closest, closestBitRate list wanted = Some closest ->
      nearest list wanted closest
      ∧ ∃ before after,
          list = before ++ closest :: after
          ∧ Forall (λ rate, Z.abs (wanted - closest) < Z.abs (wanted - rate)) before.
Proof.
  destruct list as [|rate list]; [done|].
  destruct (closestBitRate_nearest (rate :: list) wanted) as (closest & Hc & Hn);
    [done|].
  rewrite Hc. split; [done|]. intros ? [= <-]. split; [exact Hn|].
  revert Hc. unfold closestBitRate.
  pose proof (closestBitRate_loop wanted (rate :: list)) as H.
  destruct (foldl (closer wanted) (None, None) (rate :: list))
    as [[c|] [closestDiff|]]; try done.
  destruct H as (_ & before & after & Hl & Hbefore & _). cbn [fst].
  intros [= ->]. by exists before, after.
Qed.

Lemma heightToFoscamResolution_cases (height code : Z) :
  heightToFoscamResolution height = Some code ->
  (height, code) ∈ [(960, 6); (720, 0); (480, 1); (360, 3); (240, 2); (180, 4)].
Proof.
  unfold heightToFoscamResolution.
  repeat match goal with
         | |- context [height =? ?k] =>
             destruct (Z.eqb_spec height k) as [->|?]; [intros [= <-]; set_solver|]
         end.
  done.
Qed.

(** X18. For every resolution the accessory advertises, for the main
    stream and for the sub stream, and whatever the bit rate asked for, the
    parameters given to the camera are complete: the resolution is one the
    camera has a code for, and the bit rate is one of the supported ones,
    none of which is closer to the one asked for; frame rate and GOP are
    the frame rate asked for.  Two heights never share a code, and a height
    that gets no code leaves the resolution undefined. *)
Theorem video_parameters_complete (self_streamType wanted : Z) :
  Forall (λ '(width, height, fps),
            complete mainSupportedBitRates wanted fps
              (setMainOptions self_streamType width height fps wanted))
    mainResolutions
  ∧ Forall (λ '(width, height, fps),
              complete subSupportedBitRates wanted fps
                (setSubOptions self_streamType width height fps wanted))
      subResolutions
  ∧ (∀ height height' code,
       heightToFoscamResolution height = Some code ->
       heightToFoscamResolution height' = Some code -> height = height')
  ∧ (∀ width height fps,
       height ∉ [960; 720; 480; 360; 240; 180] ->
       resolution (setMainOptions self_streamType width height fps wanted) = None
       ∧ resolution (setSubOptions self_streamType width height fps wanted) = None).
Proof.
  destruct (closestBitRate_nearest mainSupportedBitRates wanted) as [main Hmain];
    [done|].
  destruct (closestBitRate_nearest subSupportedBitRates wanted) as [sub Hsub];
    [done|].
  split; [|split; [|split]].
  - unfold mainResolutions. repeat constructor; cbn; eauto.
  - unfold subResolutions. repeat constructor; cbn; eauto.
  - intros height height' code H1%heightToFoscamResolution_cases
      H2%heightToFoscamResolution_cases.
    set_unfold. destruct H1 as [H1|[H1|[H1|[H1|[H1|[H1|[]]]]]]];
      destruct H2 as [H2|[H2|[H2|[H2|[H2|[H2|[]]]]]]]; simplify_eq; done.
  - intros width height fps Hheight. cbn.
    assert (heightToFoscamResolution height = None) as ->; [|done].
    unfold heightToFoscamResolution.
    repeat match goal with
           | |- context [height =? ?k] =>
               destruct (Z.eqb_spec height k) as [->|?]; [set_solver|]
           end.
    done.
Qed.

(** * The schedule of the motion detector *)

Lemma ToInt32_mod (a : Z) : ToInt32 a mod 2 ^ 32 = a mod 2 ^ 32.
Proof.
  unfold ToInt32. destruct (_ <? _).
  - apply Z.mod_mod. lia.
  - replace (a mod 2 ^ 32 - 2 ^ 32) with (a mod 2 ^ 32 + (-1) * 2 ^ 32) by lia.
    rewrite Z_mod_plus_full. apply Z.mod_mod. lia.
Qed.

Lemma ToInt32_testbit (a k : Z) :
  0 <= k < 32 -> Z.testbit (ToInt32 a) k = Z.testbit a k.
Proof.
  intros Hk. rewrite <- (Z.mod_pow2_bits_low (ToInt32 a) 32 k) by lia.
  rewrite ToInt32_mod. apply Z.mod_pow2_bits_low. lia.
Qed.

Lemma ToInt32_range (a : Z) : - 2 ^ 31 <= ToInt32 a < 2 ^ 31.
Proof.
  unfold ToInt32. pose proof (Z.mod_pos_bound a (2 ^ 32) ltac:(lia)).
  destruct (Z.ltb_spec (a mod 2 ^ 32) (2 ^ 31)); lia.
Qed.

Lemma ToInt32_negative (a : Z) : ToInt32 a < 0 <-> Z.testbit a 31 = true.
Proof.
  rewrite <- (ToInt32_testbit a 31) by lia.
  pose proof (ToInt32_range a). rewrite Z.testbit_true by lia.
  split.
  - intros Hneg.
    replace (ToInt32 a) with ((ToInt32 a + 2 ^ 31) + (-1) * 2 ^ 31) by lia.
    rewrite Z.div_add by lia. rewrite Z.div_small by lia. done.
  - intros Hbit. destruct (Z_lt_ge_dec (ToInt32 a) 0) as [|Hpos]; [done|].
    rewrite Z.div_small in Hbit by lia. done.
Qed.

Lemma land_pow2 (x k : Z) :
  0 <= k -> (Z.land x (2 ^ k) =? 0) = negb (Z.testbit x k).
Proof.
  intros Hk. destruct (Z.testbit x k) eqn:E; cbn.
  - apply Z.eqb_neq. intros H0.
    assert (Z.testbit (Z.land x (2 ^ k)) k = true)
      by (by rewrite Z.land_spec, E, Z.pow2_bits_true).
    rewrite H0, Z.bits_0 in H. done.
  - apply Z.eqb_eq. apply Z.bits_inj'. intros i Hi.
    rewrite Z.land_spec, Z.bits_0, Z.pow2_bits_eqb by lia.
    destruct (Z.eqb_spec k i) as [->|]; [by rewrite E|by rewrite andb_false_r].
Qed.

Lemma land_min_int (x : Z) :
  - 2 ^ 31 <= x < 2 ^ 31 -> (Z.land x (- 2 ^ 31) =? 0) = negb (x <? 0).
Proof.
  intros Hx. destruct (Z.ltb_spec x 0) as [Hneg|Hpos]; cbn.
  - apply Z.eqb_neq.
    assert (Z.land x (- 2 ^ 31) < 0) by (apply Z.land_neg; lia). lia.
  - apply Z.eqb_eq. apply Z.bits_inj'. intros i Hi.
    rewrite Z.land_spec, Z.bits_0.
    destruct (Z_lt_ge_dec i 31) as [Hlow|Hhigh].
    + replace (- 2 ^ 31) with ((-1) * 2 ^ 31) by lia.
      rewrite Z.mul_pow2_bits_low by lia. apply andb_false_r.
    + assert (Z.testbit x i = false) as ->; [|done].
      apply Z.testbit_false; [lia|]. rewrite Z.div_small; [done|].
      split; [lia|]. assert (2 ^ 31 <= 2 ^ i) by (apply Z.pow_le_mono_r; lia). lia.
Qed.

(** What [active & (1 << bit)] tests. *)
Lemma band_shl_testbit (active bit : Z) :
  negb (band active (shl 1 bit) =? 0) = Z.testbit active (bit mod 32).
Proof.
  pose proof (Z.mod_pos_bound bit 32 ltac:(lia)) as Hk.
  unfold band, shl. set (k := bit mod 32) in *.
  change (ToInt32 1) with 1. rewrite Z.shiftl_1_l.
  destruct (Z.eq_dec k 31) as [->|Hk31].
  - change (ToInt32 (ToInt32 (2 ^ 31))) with (- 2 ^ 31).
    rewrite land_min_int by apply ToInt32_range.
    rewrite negb_involutive.
    destruct (Z.ltb_spec (ToInt32 active) 0) as [H|H].
    + symmetry. by apply ToInt32_negative.
    + destruct (Z.testbit active 31) eqn:E; [|done].
      apply ToInt32_negative in E. lia.
  - assert (Hsmall : ToInt32 (2 ^ k) = 2 ^ k).
    { unfold ToInt32.
      assert (2 ^ k <= 2 ^ 30) by (apply Z.pow_le_mono_r; lia).
      assert (0 < 2 ^ k) by (apply Z.pow_pos_nonneg; lia).
      rewrite Z.mod_small by lia.
      destruct (Z.ltb_spec (2 ^ k) (2 ^ 31)); lia. }
    rewrite !Hsmall, land_pow2 by lia. rewrite negb_involutive.
    apply ToInt32_testbit. lia.
Qed.

Lemma slot_range (d : date) : valid_date d -> 0 <= slot d <= 47.
Proof.
  intros (_ & Hhours & Hminutes). unfold slot.
  assert (0 <= getMinutes d / 30) by (apply Z.div_pos; lia).
  assert (getMinutes d / 30 < 2) by (apply Z.div_lt_upper_bound; lia).
  lia.
Qed.

Lemma looked_at_slot (d : date) : valid_date d -> slot d mod 32 = looked_at d.
Proof.
  intros Hvalid. pose proof (slot_range d Hvalid) as Hslot.
  destruct Hvalid as (_ & Hhours & Hminutes). unfold looked_at.
  assert (0 <= getMinutes d / 30) by (apply Z.div_pos; lia).
  assert (getMinutes d / 30 < 2) by (apply Z.div_lt_upper_bound; lia).
  unfold slot in *. destruct (Z.ltb_spec (getHours d) 16).
  - apply Z.mod_small. lia.
  - symmetry. apply (Z.mod_unique_pos _ 32 1); lia.
Qed.

Lemma weekday_range (d : date) : 0 <= weekday d < 7.
Proof. unfold weekday. apply Z.mod_pos_bound. lia. Qed.

Lemma isDuringMotionActiveTime_testbit (activeDays : list Z) (d : date) :
  valid_date d ->
  isDuringMotionActiveTime activeDays d
  = Z.testbit (default 0 (activeDays !! Z.to_nat (weekday d))) (slot d mod 32).
Proof.
  intros (Hday & Hhours & Hminutes).
  unfold isDuringMotionActiveTime. fold (slot d).
  rewrite Z.rem_mod_nonneg by lia.
  replace (7 + (getDay d - 1)) with (getDay d + 6) by lia. fold (weekday d).
  pose proof (weekday_range d) as Hw.
  unfold element. rewrite (proj2 (Z.ltb_ge _ _)) by lia.
  assert (match activeDays !! Z.to_nat (weekday d) with
          | Some a => if a =? 0 then 0 else a
          | None => 0
          end = default 0 (activeDays !! Z.to_nat (weekday d))) as ->.
  { destruct (activeDays !! _) as [a|]; [|done]. cbn.
    by destruct (Z.eqb_spec a 0). }
  apply band_shl_testbit.
Qed.

(** X19. For a time of day, [_isDuringMotionActiveTime] takes the entry of
    [self._activeDays] for the day of the week counted from Monday, 0 when
    there is none, and tests the bit of that entry at the half hour of the
    day taken modulo 32: [1 << bit] wraps.  So from 16:00 on, what is
    tested is the bit of the half hour sixteen hours earlier, and bits 32
    to 47 of the entry are never looked at. *)
Theorem schedule_check_wraps_at_bit_32 (activeDays : list Z) (d : date) :
  valid_date d ->
  let active := default 0 (activeDays !! Z.to_nat (weekday d)) in
  0 <= slot d <= 47
  ∧ isDuringMotionActiveTime activeDays d = Z.testbit active (slot d mod 32)
  ∧ (getHours d < 16 ->
     isDuringMotionActiveTime activeDays d = Z.testbit active (slot d))
  ∧ (16 <= getHours d ->
     isDuringMotionActiveTime activeDays d = Z.testbit active (slot d - 32)).
Proof.
  intros Hvalid active.
  pose proof (isDuringMotionActiveTime_testbit activeDays d Hvalid) as Hcheck.
  pose proof (looked_at_slot d Hvalid) as Hlooked. unfold looked_at in Hlooked.
  fold active in Hcheck.
  split; [by apply slot_range|]. split; [done|]. split; intros Hhours.
  - rewrite Hcheck, Hlooked. by rewrite (proj2 (Z.ltb_lt _ _)) by lia.
  - rewrite Hcheck, Hlooked. by rewrite (proj2 (Z.ltb_ge _ _)) by lia.
Qed.

Lemma schedule_check_wraps_at_bit_32_witness :
  isDuringMotionActiveTime [0; 0; 2 ^ 47; 0; 0; 0; 0] (mkDate 3 23 45) = false
  ∧ isDuringMotionActiveTime [0; 0; 2 ^ 15; 0; 0; 0; 0] (mkDate 3 23 45) = true.
Proof.
  assert (Hvalid : valid_date (mkDate 3 23 45)) by (vm_compute; intuition discriminate).
  split.
  - exact (proj1 (proj2 (schedule_check_wraps_at_bit_32
                           [0; 0; 2 ^ 47; 0; 0; 0; 0] (mkDate 3 23 45) Hvalid))).
  - exact (proj1 (proj2 (schedule_check_wraps_at_bit_32
                           [0; 0; 2 ^ 15; 0; 0; 0; 0] (mkDate 3 23 45) Hvalid))).
Defined.

(** * The media of the description *)

Lemma rtp_codec_for_spec (payload : Z) (rtp : list rtpmap) :
  match rtp_codec_for payload rtp with
  | Some codec =>
      codec <> ""
      ∧ ∃ before r after,
          rtp = before ++ r :: after ∧ no_codec_for payload before
          ∧ rtp_payload r = payload ∧ rtp_codec r = codec
  | None => no_codec_for payload rtp
  end.
Proof.
  induction rtp as [|r rest IH]; cbn; [constructor|].
  destruct (Z.eqb_spec (rtp_payload r) payload) as [Hp|Hp]; cbn.
  - destruct (rtp_codec r) as [|c codec] eqn:Hc; cbn.
    + destruct (rtp_codec_for payload rest) as [codec'|].
      * destruct IH as (Hne & before & r' & after & -> & Hb & Hr & Hc').
        split; [done|]. exists (r :: before), r', after.
        split; [done|]. split; [|done]. constructor; [by right|done].
      * constructor; [by right|done].
    + split; [done|]. exists [], r, rest. rewrite Hc.
      split; [done|]. split; [constructor|done].
  - destruct (rtp_codec_for payload rest) as [codec'|].
    + destruct IH as (Hne & before & r' & after & -> & Hb & Hr & Hc').
      split; [done|]. exists (r :: before), r', after.
      split; [done|]. split; [|done]. constructor; [by left|done].
    + constructor; [by left|done].
Qed.

Section DescribeClaims.

Variable url_resolve : string -> string -> string.

Lemma record_medium_fst (sanitizedURI : string)
    (self : option descriptor * option descriptor) (m : medium) :
  (record_medium url_resolve sanitizedURI self m).1
  = match self.1 with
    | Some d => Some d
    | None =>
        if String.eqb (m_type m) "video"
        then Some (describe url_resolve sanitizedURI m) else None
    end
  ∧ (record_medium url_resolve sanitizedURI self m).2
    = match self.2 with
      | Some d => Some d
      | None =>
          if String.eqb (m_type m) "audio"
          then Some (describe url_resolve sanitizedURI m) else None
      end.
Proof.
  destruct self as [[v|] [a|]]; cbn; rewrite ?andb_false_r, ?andb_true_r; done.
Qed.

(** X20. After the loop of [getSDP], [self.video] is the descriptor of the
    first medium of type video and [self.audio] the one of the first
    medium of type audio, undefined when the description has no such
    medium; a descriptor the client already has is never replaced, so a
    second description, as after a reconnect, changes neither. *)
Theorem first_medium_of_each_type_described (sanitizedURI : string)
    (media : list medium) (video audio : option descriptor) :
  let self := record_media url_resolve sanitizedURI (video, audio) media in
  self.1 = match video with
           | Some d => Some d
           | None => describe url_resolve sanitizedURI <$> first_of_type "video" media
           end
  ∧ self.2 = match audio with
             | Some d => Some d
             | None => describe url_resolve sanitizedURI <$> first_of_type "audio" media
             end
  ∧ ∀ again,
      let self' := record_media url_resolve sanitizedURI self again in
      (is_Some self.1 -> self'.1 = self.1) ∧ (is_Some self.2 -> self'.2 = self.2).
Proof.
  assert (H : ∀ media video audio,
    (record_media url_resolve sanitizedURI (video, audio) media).1
    = match video with
      | Some d => Some d
      | None => describe url_resolve sanitizedURI <$> first_of_type "video" media
      end
    ∧ (record_media url_resolve sanitizedURI (video, audio) media).2
      = match audio with
        | Some d => Some d
        | None => describe url_resolve sanitizedURI <$> first_of_type "audio" media
        end).
  { clear. intros media. induction media as [|m media IH]; intros video audio.
    - cbn. by destruct video, audio.
    - unfold record_media. cbn [foldl].
      destruct (record_medium_fst sanitizedURI (video, audio) m) as [Hv Ha].
      destruct (record_medium url_resolve sanitizedURI (video, audio) m)
        as [v a] eqn:E.
      cbn [fst snd] in Hv, Ha. destruct (IH v a) as [IHv IHa].
      unfold record_media in IHv, IHa. rewrite IHv, IHa, Hv, Ha.
      unfold first_of_type. rewrite !filter_cons. split.
      + destruct video; [done|].
        destruct (String.eqb_spec (m_type m) "video") as [Ht|Ht].
        * by rewrite decide_True.
        * by rewrite decide_False.
      + destruct audio; [done|].
        destruct (String.eqb_spec (m_type m) "audio") as [Ht|Ht].
        * by rewrite decide_True.
        * by rewrite decide_False. }
  cbv zeta. destruct (H media video audio) as [Hv Ha].
  split; [done|]. split; [done|]. intros again.
  destruct (record_media url_resolve sanitizedURI (video, audio) media) as [v a].
  destruct (H again v a) as [Hv' Ha']. cbn [fst snd] in *.
  split; intros [d ->]; done.
Qed.

(** X21. The payload of a descriptor is the number its medium's payloads
    begin with.  Below 96 the codec is PCMU for 0, PCMA for 8 and UNKNOWN
    for every other payload, as it is when there is no number; from 96 on
    it is the codec of the first rtpmap entry for the payload that names
    one, and undefined when no entry does.  The uri is the one of the
    client when the medium has no control attribute. *)
Theorem descriptor_of_medium (sanitizedURI : string) (m : medium) :
  let d := describe url_resolve sanitizedURI m in
  d_payload d = parseInt (before_first " " (m_payloads m))
  ∧ match d_payload d with
    | Num p =>
        if 96 <=? p then
          match d_codec d with
          | Some codec =>
              codec <> ""
              ∧ ∃ before r after,
                  m_rtp m = before ++ r :: after ∧ no_codec_for p before
                  ∧ rtp_payload r = p ∧ rtp_codec r = codec
          | None => no_codec_for p (m_rtp m)
          end
        else
          d_codec d
          = Some (if p =? 0 then "PCMU" else if p =? 8 then "PCMA" else "UNKNOWN")
    | NaN => d_codec d = Some "UNKNOWN"
    end
  ∧ (m_control m = None ∨ m_control m = Some "" -> d_uri d = sanitizedURI)
  ∧ (∀ control, m_control m = Some control -> control <> "" ->
       d_uri d = url_resolve (sanitizedURI +:+ "/") control).
Proof.
  cbv zeta. unfold describe. cbn [d_payload d_codec d_uri].
  assert (Hpayload : parseInt_opt (split " " (m_payloads m) !! 0%nat)
                     = parseInt (before_first " " (m_payloads m))).
  { rewrite <- head_lookup, head_split. done. }
  rewrite Hpayload. split; [done|]. split; [|split].
  - destruct (parseInt _) as [|p]; [done|].
    destruct (96 <=? p) eqn:E; [apply rtp_codec_for_spec|].
    apply Z.leb_gt in E. f_equal. unfold codecForPayload.
    destruct (Z.eqb_spec p 0) as [->|]; [done|].
    destruct (Z.eqb_spec p 8) as [->|]; [done|].
    destruct p as [|p|p]; try done.
    do 4 (try destruct p as [p|p|]; try done).
  - by intros [-> | ->].
  - intros control -> Hcontrol. cbn.
    assert (truthy_string control = true) as ->; [|done].
    by destruct control.
Qed.

End DescribeClaims.

(** * The credentials of the client *)

Lemma before_first_all (sep : ascii) (s : string) :
  contains sep s = false -> before_first sep s = s.
Proof.
  induction s as [|c s IH]; [done|]. cbn.
  destruct (Ascii.eqb c sep); [done|]. cbn. intros H. by rewrite IH.
Qed.

Lemma split_whole (sep : ascii) (s : string) :
  contains sep s = false -> split sep s = [s].
Proof.
  induction s as [|c s IH]; [done|]. cbn.
  destruct (Ascii.eqb c sep); [done|]. cbn. intros H. by rewrite IH.
Qed.

Lemma split_at_first (sep : ascii) (before after : string) :
  contains sep before = false ->
  split sep (before +:+ String sep after) = before :: split sep after.
Proof.
  induction before as [|c before IH].
  - intros _. change ("" +:+ String sep after) with (String sep after).
    cbn [split]. by rewrite Ascii.eqb_refl.
  - change (String c before +:+ String sep after)
      with (String c (before +:+ String sep after)).
    cbn [split contains]. destruct (Ascii.eqb c sep); [done|]. cbn [orb].
    intros H. by rewrite IH.
Qed.

(** X22. The constructor throws on a URL without user information.
    Otherwise the user name is what stands before the first colon of the
    user information, and the password what stands between the first colon
    and the second one: it is undefined when there is no colon, and a
    password with a colon in it is cut at that colon. *)
Theorem credentials_cut_at_colons :
  credentials None = Throw TypeError
  ∧ (∀ auth, contains ":" auth = false ->
       credentials (Some auth) = Value (auth, None))
  ∧ (∀ user pass, contains ":" user = false ->
       credentials (Some (user +:+ String ":" pass))
       = Value (user, Some (before_first ":" pass))
       ∧ (contains ":" pass = false ->
          credentials (Some (user +:+ String ":" pass)) = Value (user, Some pass))
       ∧ (contains ":" pass = true ->
          credentials (Some (user +:+ String ":" pass)) <> Value (user, Some pass))).
Proof.
  split; [done|]. split.
  - intros auth H. unfold credentials, split_limit. by rewrite split_whole.
  - intros user pass Huser.
    assert (H : credentials (Some (user +:+ String ":" pass))
                = Value (user, Some (before_first ":" pass))).
    { unfold credentials, split_limit. rewrite split_at_first by done.
      pose proof (head_split ":" pass) as Hhead.
      destruct (split ":" pass) as [|first others]; [done|].
      cbn in *. congruence. }
    split; [done|]. split.
    + intros Hpass. by rewrite H, before_first_all.
    + intros Hpass. rewrite H. intros [= Heq].
      assert (contains ":" (before_first ":" pass) = false) as Hcut.
      { clear. induction pass as [|c pass IH]; [done|]. cbn.
        destruct (Ascii.eqb c ":") eqn:E; [done|]. cbn. by rewrite E. }
      congruence.
Qed.

(** * The areas of the motion detector *)

Lemma lor_small (a b n : Z) :
  0 <= n -> 0 <= a < 2 ^ n -> 0 <= b < 2 ^ n -> 0 <= Z.lor a b < 2 ^ n.
Proof.
  intros Hn Ha Hb. split; [apply Z.lor_nonneg; lia|].
  destruct (Z.eq_dec a 0) as [->|Ha0]; [rewrite Z.lor_0_l; lia|].
  destruct (Z.eq_dec b 0) as [->|Hb0]; [rewrite Z.lor_0_r; lia|].
  assert (0 <= Z.lor a b) by (apply Z.lor_nonneg; lia).
  assert (Z.lor a b <> 0) by (intros [-> _]%Z.lor_eq_0_iff; done).
  apply Z.log2_lt_pow2; [lia|]. rewrite Z.log2_lor by lia.
  apply Z.max_lub_lt; apply Z.log2_lt_pow2; lia.
Qed.

Lemma ToInt32_small (a : Z) : 0 <= a < 2 ^ 31 -> ToInt32 a = a.
Proof.
  intros Ha. unfold ToInt32. rewrite Z.mod_small by lia.
  destruct (Z.ltb_spec a (2 ^ 31)); lia.
Qed.

Lemma shl_1_small (x : Z) : 0 <= x <= 9 -> shl 1 x = 2 ^ x.
Proof.
  intros Hx. unfold shl. rewrite Z.mod_small by lia.
  change (ToInt32 1) with 1. rewrite Z.shiftl_1_l.
  apply ToInt32_small.
  assert (2 ^ x <= 2 ^ 9) by (apply Z.pow_le_mono_r; lia).
  assert (0 < 2 ^ x) by (apply Z.pow_pos_nonneg; lia). lia.
Qed.

Lemma mark_spec (rows : list Z) (y x : Z) :
  ten_by_ten rows -> 0 <= y <= 9 -> 0 <= x <= 9 ->
  ten_by_ten (mark rows y x)
  ∧ ∀ y' x', 0 <= x' ->
      marked (mark rows y x) y' x'
      <-> marked rows y' x' ∨ (Z.of_nat y' = y ∧ x' = x).
Proof.
  intros [Hlen Hrows] Hy Hx.
  assert (Hlt : (Z.to_nat y < length rows)%nat) by lia.
  destruct (lookup_lt_is_Some_2 rows _ Hlt) as [row Hrow].
  assert (Hbound : 0 <= row < 2 ^ 10)
    by (rewrite Forall_forall in Hrows; eapply Hrows, list_elem_of_lookup_2, Hrow).
  assert (Hpow : 0 <= 2 ^ x < 2 ^ 10).
  { split; [apply Z.pow_nonneg; lia|]. apply Z.pow_lt_mono_r; lia. }
  pose proof (lor_small row (2 ^ x) 10 ltac:(lia) Hbound Hpow) as Hlor.
  assert (Hnew : ToUint32 (bor (default 0 (element rows y)) (shl 1 x))
                 = Z.lor row (2 ^ x)).
  { unfold element. rewrite (proj2 (Z.ltb_ge _ _)) by lia. rewrite Hrow. cbn.
    rewrite shl_1_small by lia. unfold bor, ToUint32.
    rewrite !ToInt32_small by lia. apply Z.mod_small. lia. }
  unfold mark. rewrite Hnew. split.
  - split; [by rewrite length_insert|]. by apply Forall_insert.
  - intros y' x' Hx'. unfold marked.
    destruct (decide (Z.to_nat y = y')) as [<-|Hne].
    + rewrite list_lookup_insert_eq by done. split.
      * intros (r & [= <-] & Hbit). rewrite Z.lor_spec, Z.pow2_bits_eqb in Hbit by lia.
        apply orb_true_iff in Hbit as [Hbit|Hbit]; [left; by exists row|].
        right. apply Z.eqb_eq in Hbit. lia.
      * intros [(r & Hr & Hbit)|[_ ->]]; eexists; (split; [done|]);
          rewrite Z.lor_spec, Z.pow2_bits_eqb by lia.
        -- rewrite Hrow in Hr. injection Hr as <-. by rewrite Hbit.
        -- by rewrite Z.eqb_refl, orb_true_r.
    + rewrite list_lookup_insert_ne by done. split; [by left|].
      intros [H|[H _]]; [done|lia].
Qed.

Lemma mark_row_spec (xs : list Z) (rows : list Z) (y : Z) :
  ten_by_ten rows -> 0 <= y <= 9 -> Forall (λ x, 0 <= x <= 9) xs ->
  ten_by_ten (foldl (λ rows x, mark rows y x) rows xs)
  ∧ ∀ y' x', 0 <= x' ->
      marked (foldl (λ rows x, mark rows y x) rows xs) y' x'
      <-> marked rows y' x' ∨ (Z.of_nat y' = y ∧ x' ∈ xs).
Proof.
  intros Hrows Hy. revert rows Hrows.
  induction xs as [|x xs IH]; intros rows Hrows Hxs; cbn [foldl].
  - split; [done|]. intros y' x' _. set_solver.
  - apply Forall_cons in Hxs as [Hx Hxs].
    destruct (mark_spec rows y x Hrows Hy Hx) as [Hrows' Hmarked].
    destruct (IH _ Hrows' Hxs) as [Hrows'' Hmarked'].
    split; [done|]. intros y' x' Hx'.
    rewrite Hmarked', Hmarked by done. set_solver.
Qed.

Lemma mark_rows_spec (ys xs : list Z) (rows : list Z) :
  ten_by_ten rows -> Forall (λ y, 0 <= y <= 9) ys ->
  Forall (λ x, 0 <= x <= 9) xs ->
  ten_by_ten (foldl (λ rows y, foldl (λ rows x, mark rows y x) rows xs) rows ys)
  ∧ ∀ y' x', 0 <= x' ->
      marked (foldl (λ rows y, foldl (λ rows x, mark rows y x) rows xs) rows ys)
        y' x'
      <-> marked rows y' x' ∨ (Z.of_nat y' ∈ ys ∧ x' ∈ xs).
Proof.
  intros Hrows Hys Hxs. revert rows Hrows.
  induction ys as [|y ys IH]; intros rows Hrows; cbn [foldl].
  - split; [done|]. intros y' x' _. set_solver.
  - apply Forall_cons in Hys as [Hy Hys].
    destruct (mark_row_spec xs rows y Hrows Hy Hxs) as [Hrows' Hmarked].
    destruct (IH Hys _ Hrows') as [Hrows'' Hmarked'].
    split; [done|]. intros y' x' Hx'.
    rewrite Hmarked', Hmarked by done. set_solver.
Qed.

Lemma mark_area_spec (rows : list Z) (a : area) :
  ten_by_ten rows ->
  (in_bounds a
   ∧ ∃ rows', mark_area rows a = inr rows' ∧ ten_by_ten rows'
        ∧ ∀ y x, 0 <= x ->
            marked rows' y x <-> marked rows y x ∨ covers a x (Z.of_nat y))
  ∨ (¬ in_bounds a ∧ mark_area rows a = inl (CoordinatesOutOfBounds a.1)).
Proof.
  intros Hrows. destruct a as [[x0 y0] [x1 y1]].
  unfold mark_area, in_bounds, covers. cbn [fst snd].
  destruct ((x0 <? 0) || (x0 >? 9) || (y0 <? 0) || (y0 >? 9)) eqn:E1.
  { right. split; [|done]. rewrite !orb_true_iff in E1.
    rewrite !Z.ltb_lt, !Z.gtb_lt in E1. lia. }
  destruct ((x0 >? x1) || (x1 >? 9) || (y0 >? y1) || (y1 >? 9)) eqn:E2.
  { right. split; [|done]. rewrite !orb_true_iff in E2.
    rewrite !Z.gtb_lt in E2. lia. }
  left. rewrite !orb_false_iff in E1, E2.
  rewrite !Z.ltb_ge in E1. rewrite !Z.gtb_ltb, !Z.ltb_ge in E1, E2.
  split; [lia|]. eexists. split; [reflexivity|].
  destruct (mark_rows_spec (seqZ y0 (y1 - y0 + 1)) (seqZ x0 (x1 - x0 + 1)) rows)
    as [Hrows' Hmarked]; [done|..].
  - apply Forall_forall. intros y Hy%elem_of_seqZ. lia.
  - apply Forall_forall. intros x Hx%elem_of_seqZ. lia.
  - split; [done|]. intros y x Hx. rewrite Hmarked by done.
    rewrite !elem_of_seqZ. intuition lia.
Qed.

(** X23. When every area of the configuration lies in the grid of ten by
    ten cells, top left before bottom right, [activeAreas] has ten rows,
    each below [2 ^ 10], and bit [x] of row [y] is set exactly when some
    area covers the cell at [x], [y].  Otherwise the configuration is
    refused: the first area that does not lie in the grid makes the
    function throw, with the top left cell of that area.  Without areas
    in the configuration all hundred cells are set. *)
Theorem areas_bitmap (areas : list area) :
  match activeAreas_of (Some areas) with
  | inr rows =>
      Forall in_bounds areas ∧ ten_by_ten rows
      ∧ ∀ y x, 0 <= x ->
          marked rows y x <-> ∃ a, a ∈ areas ∧ covers a x (Z.of_nat y)
  | inl err =>
      ∃ before a after,
        areas = before ++ a :: after ∧ Forall in_bounds before
        ∧ ¬ in_bounds a ∧ err = CoordinatesOutOfBounds a.1
  end
  ∧ ∃ rows,
      activeAreas_of None = inr rows ∧ ten_by_ten rows
      ∧ ∀ y x, 0 <= x -> marked rows y x <-> (y < 10)%nat ∧ x < 10.
Proof.
  split; [|exists (replicate 10 (Z.ones 10)); split; [done|split]].
  3:{ intros y x Hx. unfold marked. split.
      - intros (row & [-> Hy]%lookup_replicate & Hbit).
        apply Z.ones_spec_iff in Hbit; [lia|done].
      - intros [Hy Hx10]. exists (Z.ones 10).
        split; [by apply lookup_replicate|]. apply Z.ones_spec_low. lia. }
  2:{ split; [by rewrite length_replicate|].
      apply Forall_forall. intros row [-> _]%elem_of_replicate. done. }
  cbn [activeAreas_of].
  unfold mark_areas. induction areas as [|a areas IH] using rev_ind.
  - cbn [foldl]. split; [constructor|]. split.
    + split; [by rewrite length_replicate|].
      apply Forall_forall. intros row [-> _]%elem_of_replicate. lia.
    + intros y x Hx. split; [|set_solver].
      intros (row & Hrow & Hbit). apply lookup_replicate in Hrow as [-> _].
      by rewrite Z.bits_0 in Hbit.
  - rewrite foldl_app. cbn [foldl].
    destruct (foldl _ _ areas) as [err|rows].
    + destruct IH as (before & a' & after & -> & Hbefore & Ha' & ->).
      exists before, a', (after ++ [a]). by rewrite <- app_assoc.
    + destruct IH as (Hareas & Hrows & Hmarked).
      destruct (mark_area_spec rows a Hrows)
        as [(Ha & rows' & -> & Hrows' & Hmarked')|[Ha ->]].
      * split; [apply Forall_app; split; [done|]; by constructor|].
        split; [done|].
        intros y x Hx. rewrite Hmarked', Hmarked by done. set_solver.
      * exists areas, a, []. done.
Qed.

(** * The days of the motion detector *)

Lemma shl_1_low (x : Z) : 0 <= x <= 30 -> shl 1 x = 2 ^ x.
Proof.
  intros Hx. unfold shl. rewrite Z.mod_small by lia.
  change (ToInt32 1) with 1. rewrite Z.shiftl_1_l.
  apply ToInt32_small.
  assert (2 ^ x <= 2 ^ 30) by (apply Z.pow_le_mono_r; lia).
  assert (0 < 2 ^ x) by (apply Z.pow_pos_nonneg; lia). lia.
Qed.

Lemma ToUint32_shl_1 (x : Z) : 0 <= x <= 31 -> ToUint32 (shl 1 x) = 2 ^ x.
Proof.
  intros Hx. destruct (Z.eq_dec x 31) as [->|]; [done|].
  rewrite shl_1_low by lia. unfold ToUint32. apply Z.mod_small.
  assert (2 ^ x <= 2 ^ 30) by (apply Z.pow_le_mono_r; lia).
  assert (0 < 2 ^ x) by (apply Z.pow_pos_nonneg; lia). lia.
Qed.

Lemma add_bit_slot (bits k : Z) :
  0 <= k <= 47 -> add_bit bits (k * 30) = bits + 2 ^ k.
Proof.
  intros Hk. unfold add_bit.
  destruct (Z.geb_spec (k * 30) (32 * 30)) as [Hhigh|Hlow].
  - replace (k * 30 - 32 * 30) with ((k - 32) * 30) by lia.
    rewrite Z.quot_mul by lia. rewrite ToUint32_shl_1 by lia.
    rewrite <- Z.pow_add_r by lia. do 2 f_equal. lia.
  - rewrite Z.quot_mul by lia. by rewrite ToUint32_shl_1 by lia.
Qed.

Lemma loop_sum (n : nat) (s bits : Z) :
  0 <= s -> s + Z.of_nat n <= 48 ->
  foldl add_bit bits ((λ k, s * 30 + k * 30) <$> seqZ 0 (Z.of_nat n))
  = bits + (2 ^ (s + Z.of_nat n) - 2 ^ s).
Proof.
  intros Hs. induction n as [|n IH]; intros Hn.
  - change (Z.of_nat 0) with 0. rewrite Z.add_0_r, Z.sub_diag, Z.add_0_r. done.
  - rewrite Nat2Z.inj_succ, <- Z.add_1_r, seqZ_app by lia.
    rewrite fmap_app, foldl_app, IH by lia.
    rewrite (seqZ_cons _ 1), seqZ_nil by lia. cbn.
    replace (s * 30 + (0 + Z.of_nat n) * 30) with ((s + Z.of_nat n) * 30) by lia.
    rewrite add_bit_slot by lia.
    replace (s + (Z.of_nat n + 1)) with (Z.succ (s + Z.of_nat n)) by lia.
    rewrite Z.pow_succ_r by lia. lia.
Qed.

Lemma time_bit_reads (specifier : string) (slot : Z) :
  reads specifier slot ->
  length (split ":" specifier) = 2%nat
  ∧ time_bit (split ":" specifier) = Thirtieths (slot * 30).
Proof.
  intros (hours & minutes & h & m & -> & Hh & Hm & Hhalf & ->).
  split; [done|]. unfold time_bit. cbn. rewrite Hh, Hm. f_equal.
  destruct Hhalf as [-> | ->];
    [change (0 / 30) with 0|change (30 / 30) with 1]; lia.
Qed.

Lemma add_interval_span (bits : Z) (iv : interval) (s e : Z) :
  reads iv.1 s -> reads iv.2 e -> 0 <= s -> s < e -> e <= 48 ->
  add_interval bits iv = inr (bits + (2 ^ e - 2 ^ s)).
Proof.
  intros [Hls Hs]%time_bit_reads [Hle He]%time_bit_reads H0 Hse H48.
  unfold add_interval. rewrite Hls, Hle, Hs, He. cbn [Nat.eqb negb].
  unfold out_of_range, same_bit.
  rewrite (proj2 (Z.ltb_ge _ _)), (proj2 (Z.ltb_ge _ _)) by lia.
  rewrite !Z.gtb_ltb. rewrite (proj2 (Z.ltb_ge _ _)), (proj2 (Z.ltb_ge _ _)) by lia.
  rewrite (proj2 (Z.eqb_neq _ _)) by lia. cbn [orb]. f_equal.
  unfold loop_values.
  replace ((e * 30 - s * 30 + 29) / 30) with (Z.of_nat (Z.to_nat (e - s))).
  - rewrite loop_sum by lia. do 3 f_equal. lia.
  - rewrite Z2Nat.id by lia. apply (Z.div_unique _ _ _ 29); lia.
Qed.

Lemma span_bits (s e k : Z) :
  0 <= s -> s <= e -> 0 <= k ->
  Z.testbit (2 ^ e - 2 ^ s) k = (s <=? k) && (k <? e).
Proof.
  intros Hs He Hk.
  assert (2 ^ e - 2 ^ s = Z.shiftl (Z.ones (e - s)) s) as ->.
  { rewrite Z.ones_equiv, Z.shiftl_mul_pow2 by lia.
    replace e with ((e - s) + s) at 1 by lia. rewrite Z.pow_add_r by lia. lia. }
  rewrite Z.shiftl_spec by lia. rewrite Z.testbit_ones by lia.
  destruct (Z.leb_spec 0 (k - s)), (Z.ltb_spec (k - s) (e - s)),
    (Z.leb_spec s k), (Z.ltb_spec k e); first [done|exfalso; lia].
Qed.

Lemma span_nonneg (s e : Z) : 0 <= s -> s <= e -> 0 <= 2 ^ e - 2 ^ s.
Proof. intros Hs He. assert (2 ^ s <= 2 ^ e) by (apply Z.pow_le_mono_r; lia). lia. Qed.

Lemma add_apart (a b : Z) :
  (∀ k, 0 <= k -> Z.testbit a k = true -> Z.testbit b k = false) ->
  0 <= a -> 0 <= b -> a + b = Z.lor a b.
Proof.
  intros Hbits Ha Hb. pose proof (Z.add_lor_land a b) as Hsum.
  assert (Z.land a b = 0) as Hland; [|lia].
  apply Z.bits_inj'. intros k Hk. rewrite Z.land_spec, Z.bits_0.
  destruct (Z.testbit a k) eqn:E; [|done]. by rewrite (Hbits k Hk E).
Qed.

Lemma below_pow2 (b n : Z) :
  0 <= b -> 0 <= n -> (∀ k, n <= k -> Z.testbit b k = false) -> b < 2 ^ n.
Proof.
  intros Hb Hn Hbits. destruct (Z_lt_ge_dec b (2 ^ n)) as [|Hge]; [done|].
  assert (0 < 2 ^ n) by (apply Z.pow_pos_nonneg; lia).
  assert (0 < b) as Hpos by lia.
  assert (n <= Z.log2 b) as Hlog by (apply Z.log2_le_pow2; lia).
  pose proof (Z.bit_log2 b Hpos) as Hbit.
  rewrite (Hbits _ Hlog) in Hbit. done.
Qed.

Lemma apart_two (a b : Z * Z) : a.2 <= b.1 ∨ b.2 <= a.1 -> apart [a; b].
Proof.
  intros H l1 a' l2 b' l3 Heq.
  destruct l1 as [|? [|? l1]]; simplify_eq/=.
  - destruct l2 as [|? l2]; simplify_eq/=; [done|].
    by destruct l2.
  - by destruct l2.
  - by destruct l1.
Qed.

Lemma scheduled_app (done rest : list (Z * Z)) (k : Z) :
  scheduled (done ++ rest) k <-> scheduled done k ∨ scheduled rest k.
Proof. unfold scheduled. set_solver. Qed.

Lemma scheduled_one (span : Z * Z) (k : Z) :
  scheduled [span] k <-> span.1 <= k ∧ k < span.2.
Proof. unfold scheduled. set_solver. Qed.

(** The loop over the intervals of a day, from any point on. *)
Lemma day_bits (intervals : list interval) (spans : list (Z * Z)) :
  read_as intervals spans ->
  ∀ (done : list (Z * Z)) (bits0 : Z),
    apart (done ++ spans) -> 0 <= bits0 ->
    (∀ k, 0 <= k -> Z.testbit bits0 k = true <-> scheduled done k) ->
    ∃ bits,
      foldl (λ acc iv,
               match acc with
               | inr bits => add_interval bits iv
               | inl e => inl e
               end) (inr bits0) intervals
      = inr bits
      ∧ 0 <= bits
      ∧ ∀ k, 0 <= k -> Z.testbit bits k = true <-> scheduled (done ++ spans) k.
Proof.
  induction 1 as [|iv [s e] intervals spans (Hs & He & H0 & Hse & H48) Hrest IH];
    intros done bits0 Hapart Hbits0 Hdone.
  - exists bits0. rewrite app_nil_r. done.
  - cbn [fst snd] in *. cbn [foldl].
    rewrite (add_interval_span bits0 iv s e) by done.
    pose proof (span_nonneg s e H0 ltac:(lia)) as Hspan.
    assert (Hsum : bits0 + (2 ^ e - 2 ^ s) = Z.lor bits0 (2 ^ e - 2 ^ s)).
    { apply add_apart; [|done..]. intros k Hk Hbit.
      apply Hdone in Hbit as ([s' e'] & Hin & Hs' & He'); [|done].
      cbn [fst snd] in *.
      apply list_elem_of_split in Hin as (l1 & l2 & ->).
      specialize (Hapart l1 (s', e') l2 (s, e) spans).
      rewrite <- app_assoc in Hapart. specialize (Hapart eq_refl).
      cbn [fst snd] in Hapart. rewrite span_bits by lia.
      destruct (Z.leb_spec s k), (Z.ltb_spec k e); try done. lia. }
    destruct (IH (done ++ [(s, e)]) (bits0 + (2 ^ e - 2 ^ s)))
      as (bits & Hfold & Hbits & Hk).
    + by rewrite <- app_assoc.
    + lia.
    + intros k Hk. rewrite Hsum, Z.lor_spec, span_bits by lia.
      rewrite scheduled_app, scheduled_one. cbn [fst snd].
      rewrite orb_true_iff, andb_true_iff, Z.leb_le, Z.ltb_lt.
      by rewrite (Hdone k Hk).
    + exists bits. split; [done|]. split; [done|].
      intros k Hk'. rewrite (Hk k Hk'). by rewrite <- app_assoc.
Qed.

Lemma day_spec (day : option (list interval)) (spans : list (Z * Z)) :
  day_read_as day spans ->
  ∃ bits,
    generateBitMapForDay day = inr bits
    ∧ ∀ k, 0 <= k -> Z.testbit bits k = true <-> scheduled spans k.
Proof.
  destruct day as [intervals|]; cbn.
  - intros [Hread Hapart].
    destruct (day_bits intervals spans Hread [] 0) as (bits & Hfold & Hbits & Hk).
    + done.
    + done.
    + intros k Hk. rewrite Z.bits_0. split; [done|]. unfold scheduled. set_solver.
    + by exists bits.
  - intros ->. exists 0. split; [done|]. intros k Hk. rewrite Z.bits_0.
    split; [done|]. unfold scheduled. set_solver.
Qed.

(** X24. When the intervals of a day are whole and half hours within the
    day, each with its start before its stop, and no two of them share a
    half hour, the bitmap of the day has bit [k] set exactly for the half
    hours [k] that lie in one of the intervals, and is below [2 ^ 48]. *)
Theorem day_bitmap (intervals : list interval) (spans : list (Z * Z)) :
  read_as intervals spans -> apart spans ->
  ∃ bits,
    generateBitMapForDay (Some intervals) = inr bits
    ∧ 0 <= bits < 2 ^ 48
    ∧ ∀ k, 0 <= k -> Z.testbit bits k = true <-> scheduled spans k.
Proof.
  intros Hread Hapart.
  destruct (day_bits intervals spans Hread [] 0) as (bits & Hfold & Hbits & Hk).
  - done.
  - done.
  - intros k Hk. rewrite Z.bits_0. split; [done|]. unfold scheduled. set_solver.
  - exists bits. split; [done|]. split; [|done]. split; [done|].
    apply below_pow2; [done..|]. intros k Hk'.
    destruct (Z.testbit bits k) eqn:E; [|done].
    apply Hk in E as ([s e] & Hin & Hs & He); [|lia]. cbn [fst snd] in *.
    apply list_elem_of_lookup_1 in Hin as [i Hi].
    destruct (Forall2_lookup_r _ _ _ _ _ Hread Hi) as (iv & _ & _ & _ & _ & _ & H48).
    cbn [fst snd] in H48. lia.
Qed.

Lemma day_bitmap_witness :
  ∃ bits,
    generateBitMapForDay (Some [("08:00", "12:30"); ("20:00", "24:00")])
    = inr bits
    ∧ 0 <= bits < 2 ^ 48
    ∧ ∀ k, 0 <= k ->
        Z.testbit bits k = true <-> scheduled [(16, 25); (40, 48)] k.
Proof.
  apply (day_bitmap [("08:00", "12:30"); ("20:00", "24:00")]
           [(16, 25); (40, 48)]).
  - repeat constructor; cbn [fst snd]; first [read_time|lia].
  - apply apart_two. cbn. lia.
Defined.

(** X25. Intervals are added, not merged: for two intervals of a day that
    share a half hour, the bitmap of the day is the sum of the bitmaps of
    the two, and that is not the bitmap of the half hours that lie in one
    of them. *)
Theorem overlapping_intervals_add_up (iv1 iv2 : interval) (s1 e1 s2 e2 : Z) :
  read_as [iv1; iv2] [(s1, e1); (s2, e2)] ->
  s2 < e1 -> s1 < e2 ->
  let bits := (2 ^ e1 - 2 ^ s1) + (2 ^ e2 - 2 ^ s2) in
  generateBitMapForDay (Some [iv1; iv2]) = inr bits
  ∧ ¬ (∀ k, 0 <= k ->
         Z.testbit bits k = true <-> scheduled [(s1, e1); (s2, e2)] k).
Proof.
  intros Hread H21 H12 bits.
  apply Forall2_cons in Hread as [(Hs1 & He1 & H01 & Hse1 & H481) Hread].
  apply Forall2_cons in Hread as [(Hs2 & He2 & H02 & Hse2 & H482) _].
  cbn [fst snd] in *. split.
  - cbn [generateBitMapForDay foldl].
    rewrite (add_interval_span 0 iv1 s1 e1) by done.
    rewrite (add_interval_span _ iv2 s2 e2) by done. done.
  - intros Hunion.
    pose proof (span_nonneg s1 e1 H01 ltac:(lia)) as Hn1.
    pose proof (span_nonneg s2 e2 H02 ltac:(lia)) as Hn2.
    assert (Hlor : bits = Z.lor (2 ^ e1 - 2 ^ s1) (2 ^ e2 - 2 ^ s2)).
    { apply Z.bits_inj'. intros k Hk. specialize (Hunion k Hk).
      rewrite Z.lor_spec, !span_bits by lia.
      destruct (Z.testbit bits k) eqn:E.
      - destruct (proj1 Hunion eq_refl) as ([s e] & Hin & Hs & He).
        cbn [fst snd] in *. set_unfold.
        destruct Hin as [[= -> ->]|[[= -> ->]|[]]].
        + by rewrite (proj2 (Z.leb_le _ _)), (proj2 (Z.ltb_lt _ _)) by lia.
        + rewrite (proj2 (Z.leb_le s2 k)), (proj2 (Z.ltb_lt k e2)) by lia.
          by rewrite orb_true_r.
      - symmetry. apply not_true_is_false. intros Hbit.
        assert (false = true) as Hset; [|done].
        apply Hunion. apply orb_true_iff in Hbit as [Hbit|Hbit];
          apply andb_true_iff in Hbit as [?%Z.leb_le ?%Z.ltb_lt].
        + exists (s1, e1). set_solver.
        + exists (s2, e2). set_solver. }
    pose proof (Z.add_lor_land (2 ^ e1 - 2 ^ s1) (2 ^ e2 - 2 ^ s2)) as Hsum.
    assert (Hland : Z.land (2 ^ e1 - 2 ^ s1) (2 ^ e2 - 2 ^ s2) = 0)
      by (unfold bits in Hlor; lia).
    assert (Hbit : Z.testbit (Z.land (2 ^ e1 - 2 ^ s1) (2 ^ e2 - 2 ^ s2))
                     (Z.max s1 s2) = true).
    { rewrite Z.land_spec, !span_bits by lia.
      rewrite !(proj2 (Z.leb_le _ _)), !(proj2 (Z.ltb_lt _ _)) by lia. done. }
    rewrite Hland, Z.bits_0 in Hbit. done.
Qed.

Lemma overlapping_intervals_add_up_witness :
  generateBitMapForDay (Some [("00:00", "01:00"); ("00:30", "01:30")]) = inr 9
  ∧ Z.testbit 9 1 = false ∧ Z.testbit 9 3 = true.
Proof.
  split; [|done].
  refine (proj1 (overlapping_intervals_add_up ("00:00", "01:00")
                   ("00:30", "01:30") 0 2 1 3 _ _ _)); [|lia..].
  repeat constructor; cbn [fst snd]; first [read_time|lia].
Defined.

(** X26. When the schedule of the configuration reads as spans of half
    hours, no two spans of a day sharing a half hour, the configuration is
    taken and leaves seven bitmaps; the check of a time against them then
    answers for the half hour it looks at: before 16:00 whether the time
    lies in an interval of its day, from 16:00 on whether the time sixteen
    hours earlier does. *)
Theorem schedule_checked_sixteen_hours_earlier (s : schedule)
    (week : list (list (Z * Z))) :
  week_read_as s week ->
  ∃ activeDays,
    activeDays_of (Some s) = inr activeDays
    ∧ length activeDays = 7%nat
    ∧ ∀ d, valid_date d ->
        isDuringMotionActiveTime activeDays d = true
        <-> ∃ spans, week !! Z.to_nat (weekday d) = Some spans
                     ∧ scheduled spans (looked_at d).
Proof.
  unfold week_read_as, days_of. cbn [fmap list_fmap snd]. intros H.
  apply Forall2_cons_inv_l in H as (w0 & week0 & [b0 [Hg0 Hb0]]%day_spec & H & ->).
  apply Forall2_cons_inv_l in H as (w1 & week1 & [b1 [Hg1 Hb1]]%day_spec & H & ->).
  apply Forall2_cons_inv_l in H as (w2 & week2 & [b2 [Hg2 Hb2]]%day_spec & H & ->).
  apply Forall2_cons_inv_l in H as (w3 & week3 & [b3 [Hg3 Hb3]]%day_spec & H & ->).
  apply Forall2_cons_inv_l in H as (w4 & week4 & [b4 [Hg4 Hb4]]%day_spec & H & ->).
  apply Forall2_cons_inv_l in H as (w5 & week5 & [b5 [Hg5 Hb5]]%day_spec & H & ->).
  apply Forall2_cons_inv_l in H as (w6 & week6 & [b6 [Hg6 Hb6]]%day_spec & H & ->).
  apply Forall2_nil_inv_l in H as ->.
  exists [b0; b1; b2; b3; b4; b5; b6]. split; [|split; [done|]].
  - unfold activeDays_of, days_of. cbn [foldl fst snd].
    rewrite Hg0. cbn [foldl fst snd]. rewrite Hg1. rewrite Hg2. rewrite Hg3.
    rewrite Hg4. rewrite Hg5. rewrite Hg6. done.
  - intros d Hvalid.
    rewrite isDuringMotionActiveTime_testbit, looked_at_slot by done.
    assert (0 <= looked_at d) as Hlooked.
    { rewrite <- looked_at_slot by done. apply Z.mod_pos_bound. lia. }
    pose proof (weekday_range d) as Hw.
    destruct (Z.to_nat (weekday d)) as [|[|[|[|[|[|[|n]]]]]]] eqn:E; [..|lia];
      cbn [lookup list_lookup default from_option id];
      match goal with
      | Hb : ∀ k, 0 <= k -> Z.testbit ?b k = true <-> scheduled ?w k
        |- Z.testbit ?b _ = true <-> _ =>
          rewrite (Hb _ Hlooked); split;
          [intros Hs; by exists w|by intros (spans & [= <-] & Hs)]
      end.
Qed.

Lemma schedule_checked_sixteen_hours_earlier_witness :
  ∃ activeDays,
    activeDays_of
      (Some (mkSchedule (Some [("08:00", "12:30"); ("20:00", "24:00")])
               None None None None None None))
    = inr activeDays
    ∧ isDuringMotionActiveTime activeDays (mkDate 1 9 15) = true
    ∧ isDuringMotionActiveTime activeDays (mkDate 1 20 30) = false.
Proof.
  destruct (schedule_checked_sixteen_hours_earlier
              (mkSchedule (Some [("08:00", "12:30"); ("20:00", "24:00")])
                 None None None None None None)
              [[(16, 25); (40, 48)]; []; []; []; []; []; []])
    as (activeDays & Hdays & _ & Hcheck).
  { constructor; [|by repeat constructor].
    split; [|apply apart_two; cbn; lia].
    repeat constructor; cbn [fst snd]; first [read_time|lia]. }
  exists activeDays. split; [exact Hdays|]. split.
  - apply Hcheck; [vm_compute; intuition discriminate|].
    exists [(16, 25); (40, 48)]. split; [reflexivity|].
    exists (16, 25). split; [left|vm_compute; intuition discriminate].
  - destruct (isDuringMotionActiveTime activeDays (mkDate 1 20 30)) eqn:E;
      [|reflexivity].
    apply Hcheck in E as (spans & [= <-] & span & Hin & Hs & He);
      [|vm_compute; intuition discriminate].
    change (looked_at (mkDate 1 20 30)) with 9 in Hs, He.
    apply elem_of_cons in Hin as [->|Hin].
    + cbn in Hs. lia.
    + apply elem_of_cons in Hin as [->|Hin]; [cbn in Hs; lia|].
      by apply elem_of_nil in Hin.
Defined.

(** X27. Without a schedule in the configuration every bitmap is
    [2 ^ 48 - 1], and the check answers yes at every time. *)
Theorem no_schedule_always_active (d : date) :
  valid_date d ->
  activeDays_of None = inr (replicate 7 (2 ^ 48 - 1))
  ∧ isDuringMotionActiveTime (replicate 7 (2 ^ 48 - 1)) d = true.
Proof.
  intros Hvalid. split; [done|].
  rewrite isDuringMotionActiveTime_testbit, looked_at_slot by done.
  assert (0 <= looked_at d < 32) as Hlooked.
  { rewrite <- looked_at_slot by done. apply Z.mod_pos_bound. lia. }
  pose proof (weekday_range d) as Hw.
  rewrite lookup_replicate_2 by lia. cbn [default from_option id].
  change (2 ^ 48 - 1) with (Z.ones 48). apply Z.ones_spec_low. lia.
Qed.

Lemma no_schedule_always_active_witness :
  isDuringMotionActiveTime (replicate 7 (2 ^ 48 - 1)) (mkDate 0 23 59) = true.
Proof.
  apply (no_schedule_always_active (mkDate 0 23 59)).
  vm_compute. intuition discriminate.
Defined.

(** X28. An interval of whole and half hours whose stop is before its
    start is taken without an error and adds nothing to the bitmap of its
    day; so is an interval of two parts each whose start is no number,
    when its stop is no number either or a half hour of the day. *)
Theorem reversed_interval_adds_nothing (bits : Z) (iv : interval) :
  (∀ s e, reads iv.1 s -> reads iv.2 e -> 0 <= e -> e < s -> s <= 48 ->
          add_interval bits iv = inr bits)
  ∧ (length (split ":" iv.1) = 2%nat ->
     time_bit (split ":" iv.1) = NotANumber ->
     (length (split ":" iv.2) = 2%nat ∧ time_bit (split ":" iv.2) = NotANumber)
     ∨ (∃ e, reads iv.2 e ∧ 0 <= e ∧ e <= 48) ->
     add_interval bits iv = inr bits).
Proof.
  split.
  - intros s e [Hls Hs]%time_bit_reads [Hle He]%time_bit_reads H0 Hes H48.
    unfold add_interval. rewrite Hls, Hle, Hs, He. cbn [Nat.eqb negb].
    unfold out_of_range, same_bit.
    rewrite (proj2 (Z.ltb_ge _ _)), (proj2 (Z.ltb_ge _ _)) by lia.
    rewrite !Z.gtb_ltb.
    rewrite (proj2 (Z.ltb_ge _ _)), (proj2 (Z.ltb_ge _ _)) by lia.
    rewrite (proj2 (Z.eqb_neq _ _)) by lia. cbn [orb]. f_equal.
    unfold loop_values.
    assert ((e * 30 - s * 30 + 29) / 30 <= 0) as Hnone.
    { apply Z.lt_succ_r. apply Z.div_lt_upper_bound; lia. }
    by rewrite seqZ_nil by lia.
  - intros Hls Hs Hstop. unfold add_interval. rewrite Hls, Hs.
    cbn [Nat.eqb negb out_of_range same_bit loop_values foldl].
    destruct Hstop as [[Hle He]|(e & [Hle He]%time_bit_reads & H0 & H48)];
      rewrite Hle, He; cbn [Nat.eqb negb out_of_range]; [done|].
    rewrite (proj2 (Z.ltb_ge _ _)) by lia. rewrite Z.gtb_ltb.
    rewrite (proj2 (Z.ltb_ge _ _)) by lia. done.
Qed.

Section MoreResponseClaims.

Context {Authenticator : Type}.
Variable authenticate : string -> option Authenticator.
Variable auth_err : Authenticator -> option string.
Variable authorize : Authenticator -> string -> string -> string.

(** X29. A response to a pending request that announces a body settles
    nothing yet: the request stays pending and nothing is written, its
    [done] waits for the end of the body.  When the end comes, a response
    with another status than 401 and 403 fulfils the request with the
    response and the body received.  When the connection fails first, the
    request is rejected with the failure, and the end of the body, should
    it still come, does not change that. *)
Theorem body_awaited (st : client Authenticator) (n : Z) (request : pending)
    (resp : response) :
  allocated st ->
  is_pending st n request ->
  parseInt_opt (rheaders resp !! "cseq") = Num n ->
  truthy truthy_string (rheaders resp !! "content-length") = true ->
  is_positive (parseInt_opt (rheaders resp !! "content-length")) = true ->
  let r := onResponse authenticate auth_err authorize st resp in
  let d := mkDeferred n request resp in
  r.2 = Some d
  ∧ is_pending r.1 n request
  ∧ written r.1 = written st
  ∧ (statusCode resp <> 401 -> statusCode resp <> 403 ->
     ∀ data,
       promises (onEnd authenticate auth_err authorize r.1 d data)
         !! p_handle request
       = Some (Fulfilled (mkResult resp data)))
  ∧ (∀ err data,
       promises (onEnd authenticate auth_err authorize (onError r.1 err) d data)
         !! p_handle request
       = Some (Rejected err)).
Proof.
  intros Halloc [Hreq Hp] Hcseq Hlength Hpositive r d.
  destruct (onResponse_runs_done authenticate auth_err authorize st resp n
              request Hcseq Hreq) as (_ & Hend & Hr1 & Hp1 & Hn1 & Hw1).
  assert (Hr : r = (update_session st resp, Some d)).
  { unfold r, onResponse. by rewrite Hcseq, Hreq, Hlength, Hpositive. }
  rewrite Hr. cbn [fst snd].
  set (st1 := update_session st resp) in *.
  assert (Hpending : is_pending st1 n request)
    by (split; [by rewrite Hr1|by rewrite Hp1]).
  assert (Halloc1 : allocated st1).
  { intros p. rewrite Hp1, Hn1. apply Halloc. }
  split; [done|]. split; [done|]. split; [done|]. split.
  - intros H401 H403 data. unfold d. rewrite Hend. unfold done.
    rewrite (proj2 (Z.eqb_neq _ _) H401), (proj2 (Z.eqb_neq _ _) H403).
    cbn. apply settle_pending. by destruct Hpending.
  - intros err data. unfold d. rewrite Hend.
    assert (Hrejected : promises (onError st1 err) !! p_handle request
                        = Some (Rejected err)).
    { unfold onError. rewrite reconnect_promises.
      apply reject_all_pending with (k := n); [|by destruct Hpending].
      apply elem_of_map_to_list. by destruct Hpending. }
    destruct (later_done authenticate auth_err authorize (onError st1 err) n
                request resp data) as (_ & _ & Hkept).
    + by apply later_onError.
    + by apply Hkept.
Qed.

End MoreResponseClaims.

Lemma body_awaited_witness :
  let request :=
    mkPending (mkOptions "DESCRIBE" "rtsp://camera/videoMain"
                 (Some {[ "CSeq" := HNum 1 ]})) 0 in
  let resp := mkResponse 200 {[ "cseq" := "1"; "content-length" := "460" ]} in
  let r := onResponse basic_authenticate basic_err basic_authorize one_pending resp in
  r.2 = Some (mkDeferred 1 request resp)
  ∧ is_pending r.1 1 request.
Proof.
  intros request resp r.
  assert (Hpending : is_pending one_pending 1 request)
    by (split; vm_compute; reflexivity).
  destruct (body_awaited basic_authenticate basic_err basic_authorize
              one_pending 1 request resp allocated_one_pending Hpending
              eq_refl eq_refl eq_refl) as (H1 & H2 & _).
  split; [exact H1|exact H2].
Defined.

(** * A talk stream that starts after the stream was stopped *)

(** X30. When the callback of a talk stream says it has started only after
    a stop request has set [self.foscamStream] to null, the stream takes
    audio again without a talk stream to send it to: a call that leaves
    fewer than 960 bytes buffers them and returns, and a call that has a
    frame ready throws a TypeError, no frame being sent, after it has
    taken the 960 bytes of the frame from the output buffer. *)
Theorem late_start_after_stop_throws (scale : Z -> Z -> Z) (st : stream)
    (samples output : buffer) (carry : option buffer) :
  speakerEnabled st = true ->
  resample scale samples (outgoingSampleRate st) 8000 = Value (output, carry) ->
  let stopped := handleStreamRequest st stop in
  let late := talkStreamStarted stopped true in
  let r := audioDataInput scale late samples in
  possible stopped (TalkStreamStarted true)
  ∧ talkStreamSetup late = true ∧ foscamStream late = false
  ∧ sent r = []
  ∧ audioBuffer (after r) = carry
  ∧ (blength output < 960 ->
     how r = Returned ∧ audioOutputBuffer (after r) = Some output)
  ∧ (960 <= blength output ->
     how r = Raised TypeError
     ∧ buffered (after r) = drop 960 output
     ∧ blength (buffered (after r)) = blength output - 960).
Proof.
  intros Henabled Hres stopped late r.
  assert (Hlate : late = mkStream true (speakerCompression st) true false
                           None None (outgoingSampleRate st)).
  { unfold late, stopped, talkStreamStarted, handleStreamRequest.
    rewrite Henabled. cbn. by rewrite ?Henabled. }
  assert (Hpossible : possible stopped (TalkStreamStarted true)).
  { unfold stopped, handleStreamRequest, possible. rewrite Henabled. cbn.
    by rewrite ?Henabled. }
  split; [done|]. unfold r. rewrite Hlate. cbn [talkStreamSetup foscamStream].
  split; [done|]. split; [done|].
  unfold audioDataInput.
  cbn [talkStreamSetup negb audioBuffer outgoingSampleRate audioOutputBuffer
       foscamStream].
  rewrite Hres. cbn [fst snd].
  destruct (Z.ltb_spec (blength output) 960) as [Hshort|Hlong].
  - cbn. split; [done|]. split; [done|]. split; [done|]. intros ?. lia.
  - cbn [after sent how set_buffers audioBuffer audioOutputBuffer].
    split; [done|]. split; [done|]. split; [intros ?; lia|]. intros _.
    split; [done|]. unfold buffered, blength in *.
    cbn [audioOutputBuffer].
    destruct (Z.ltb_spec 960 (Z.of_nat (length output))) as [Hmore|Hexact].
    + cbn. unfold slice. cbn. split; [done|]. rewrite length_drop. lia.
    + cbn. assert (length output = 960%nat) as Hlen by lia.
      rewrite drop_ge by lia. cbn. split; [done|]. lia.
Qed.

Lemma late_start_after_stop_throws_witness :
  let late :=
    talkStreamStarted
      (handleStreamRequest (prepareStream (new_stream true true 8000) 8000) stop)
      true in
  how (audioDataInput (scale_exact 1) late (replicate 960 Byte.x00))
  = Raised TypeError.
Proof.
  intros late.
  destruct (late_start_after_stop_throws (scale_exact 1)
              (prepareStream (new_stream true true 8000) 8000)
              (replicate 960 Byte.x00) (replicate 960 Byte.x00) None
              eq_refl eq_refl) as (_ & _ & _ & _ & _ & _ & Hthrows).
  exact (proj1 (Hthrows ltac:(vm_compute; discriminate))).
Defined.

Lemma sockets_follow_pendingReconnect_witness :
  let failure := TransportFailure "ECONNRESET" in
  let connected :=
    connection_run basic_authenticate basic_err basic_authorize new_client
      [Client On_connected; Client (On_decoder_error failure)] in
  sockets (new_client (Authenticator := string)) = 1%nat
  ∧ sockets connected = 2%nat ∧ pendingReconnect connected = true
  ∧ sockets (client_step basic_authenticate basic_err basic_authorize connected
               (On_socket_error failure)) = 3%nat.
Proof.
  intros failure connected.
  split; [reflexivity|]. split; [reflexivity|]. split; [reflexivity|].
  destruct (sockets_follow_pendingReconnect basic_authenticate basic_err
              basic_authorize [] connected) as (_ & _ & Herror & _).
  exact (proj1 (Herror failure)).
Defined.
